(** * Outline wiki translator: hierarchy replication, ledger and budget gate

  A shallow embedding of the TypeScript sources

  - [src/types]                       (records),
  - [services/translationTracker.ts]  (the persisted ledger),
  - [services/documentHierarchy.ts]   (hierarchy builder, folder resolver),
  - [services/costEstimator.ts], [services/usageMonitor.ts] (budget gate),
  - [services/translationService.ts]  (title / body translation),
  - [index.ts]                        (the run orchestrator [main]),

  followed by the properties proved about them.

  Conventions.  A [string] holds the UTF-8 bytes of the JavaScript string,
  so that [===] is equality and what JavaScript counts in UTF-16 code units
  is counted from the bytes; [T | undefined] is [option T]; a [Map] keyed
  by identifiers is a [gmap string _], and so are the own properties of an
  object used as a dictionary, whose lookups also see what it inherits
  from [Object.prototype]; a JS [number] is its exact rational value or
  [NaN]/infinities (module [Js]); a [DocumentNode] object lives in a heap
  and is referred to by its address; asynchronous code is sequenced (one
  call in flight), exceptions and the mutable state of the services are
  threaded by the monad [M]. *)

From Stdlib Require Import QArith Ascii String.
From stdpp Require Import base option strings gmap list.


(* ===================================================================== *)
(** ** JavaScript values *)
(* ===================================================================== *)

Module Js.

(** A [number]: doubles are compared through the rationals they denote. *)
Inductive number : Type :=
| NaN
| NegInf
| Fin (q : Q)
| PosInf.

(** [a > b] on numbers: false as soon as one side is [NaN]. *)
Definition gt (a b : number) : bool :=
  match a, b with
  | NaN, _ | _, NaN => false
  | NegInf, _ => false
  | _, PosInf => false
  | Fin _, NegInf => true
  | PosInf, (NegInf | Fin _) => true
  | Fin x, Fin y => if Qlt_le_dec y x then true else false
  end.

(** Truthiness of a number: [0], [-0] and [NaN] are falsy. *)
Definition truthy_number (a : number) : bool :=
  match a with
  | NaN => false
  | Fin q => negb (Qeq_bool q 0)
  | NegInf | PosInf => true
  end.

(** Truthiness of a string: only the empty string is falsy. *)
Definition truthy_string (s : string) : bool :=
  match s with
  | EmptyString => false
  | String _ _ => true
  end.

(** Truthiness of [x?: number] and [x?: string]. *)
Definition truthy_onumber (a : option number) : bool :=
  match a with
  | None => false
  | Some x => truthy_number x
  end.

Definition truthy_ostring (s : option string) : bool :=
  match s with
  | None => false
  | Some x => truthy_string x
  end.

(** [Array.prototype.find]. *)
Fixpoint find {A} (p : A -> bool) (l : list A) : option A :=
  match l with
  | [] => None
  | x :: r => if p x then Some x else find p r
  end.

(** [Array.prototype.slice(0, n)] for an integer [n]: a negative end counts
    from the end of the array. *)
Definition slice0 {A} (l : list A) (n : Z) : list A :=
  if (0 <=? n)%Z then take (Z.to_nat n) l
  else take (Z.to_nat (Z.of_nat (length l) + n)) l.

(** [Array.prototype.slice(0, -1)]. *)
Definition drop_last {A} (l : list A) : list A := slice0 l (-1).

(** The UTF-16 code units of the character a byte begins: none for a
    continuation byte, two for the first byte of a four-byte sequence (a
    character outside the basic plane, a surrogate pair in UTF-16). *)
Definition units_of_byte (c : Ascii.ascii) : nat :=
  let n := Ascii.nat_of_ascii c in
  if n <? 128 then 1 else if n <? 192 then 0 else if n <? 240 then 1 else 2.

(** The high surrogate of the character encoded by a four-byte sequence
    that begins with the bytes [b0 b1 b2], encoded like a code point. *)
Definition high_surrogate (b0 b1 b2 : Ascii.ascii) : string :=
  let w := (N.land (Ascii.N_of_ascii b0) 7 * 256
            + N.land (Ascii.N_of_ascii b1) 63 * 4
            + N.shiftr (N.land (Ascii.N_of_ascii b2) 63) 4 - 64)%N in
  String (Ascii.ascii_of_N 237)
    (String (Ascii.ascii_of_N (160 + N.shiftr w 6))
       (String (Ascii.ascii_of_N (128 + N.land w 63)) EmptyString)).

(** [s.length]: the number of UTF-16 code units. *)
Fixpoint length (s : string) : nat :=
  match s with
  | EmptyString => 0
  | String c r => units_of_byte c + length r
  end.

(** [s.substring(0, n)]: the first [n] code units; a cut inside a
    surrogate pair leaves the high surrogate at the end. *)
Fixpoint substring0 (n : nat) (s : string) : string :=
  match s with
  | EmptyString => EmptyString
  | String c r =>
      match units_of_byte c, n with
      | 0, _ => String c (substring0 n r)
      | _, 0 => EmptyString
      | 1, S n' => String c (substring0 n' r)
      | _, 1 =>
          match r with
          | String c1 (String c2 _) => high_surrogate c c1 c2
          | _ => EmptyString
          end
      | _, S (S n') => String c (substring0 n' r)
      end
  end.

(** The names of the members of [Object.prototype], which an object
    created by a literal or by [JSON.parse] inherits: [key in o] holds and
    [o[key]] is an object for each of them, own property or not. *)
Definition object_prototype_names : list string :=
  [ "constructor"; "__defineGetter__"; "__defineSetter__"; "hasOwnProperty";
    "__lookupGetter__"; "__lookupSetter__"; "isPrototypeOf";
    "propertyIsEnumerable"; "toString"; "valueOf"; "__proto__";
    "toLocaleString" ].

Definition inherited (key : string) : bool :=
  bool_decide (key ∈ object_prototype_names).

(** What the embedding takes from the JavaScript platform and from the
    text heuristics built on it: the time value of [new Date(s)] ([NaN]
    for an invalid date), [String.prototype.trim], and the regex and
    case-mapping based [TranslationService.isAlreadyInEnglish]. *)
Class Runtime : Type := {
  date_value : string -> number;
  trim : string -> string;
  isAlreadyInEnglish : string -> bool;
}.

End Js.

(* ===================================================================== *)
(** ** Records of [types/index.ts] *)
(* ===================================================================== *)

(** [OutlineDocument], restricted to the fields the services read. *)
Record OutlineDocument : Type := {
  id : string;
  title : string;
  text : string;
  emoji : option string;
  collectionId : string;
  parentDocumentId : option string;
  updatedAt : string;
}.

Record OutlineDocumentCreateRequest : Type := {
  req_title : string;
  req_text : string;
  req_emoji : option string;
  req_collectionId : string;
  req_parentDocumentId : option string;
}.

Record TranslatedDocument : Type := {
  originalId : string;
  translatedId : string;
  originalTitle : string;
  translatedTitle : string;
  originalUpdatedAt : string;
  translatedAt : string;
}.

(** [TranslationRecord]: an object keyed by the original document id, by its
    own properties. *)
Abbreviation TranslationRecord := (gmap string TranslatedDocument).

(** What [record[key]] is when it is not [undefined]: an entry, or the
    member of [Object.prototype] the record inherits under that name (a
    built-in function, the prototype itself for [__proto__]), on which every
    field of an entry reads [undefined]. *)
Inductive LedgerValue : Type :=
| Entry (entry : TranslatedDocument)
| Builtin.

Definition translatedId_of (v : LedgerValue) : option string :=
  match v with
  | Entry entry => Some (translatedId entry)
  | Builtin => None
  end.

Definition translatedTitle_of (v : LedgerValue) : option string :=
  match v with
  | Entry entry => Some (translatedTitle entry)
  | Builtin => None
  end.

Definition translatedAt_of (v : LedgerValue) : option string :=
  match v with
  | Entry entry => Some (translatedAt entry)
  | Builtin => None
  end.

(** [key in record], for a record whose prototype is [Object.prototype]. *)
Definition has_property (record : TranslationRecord) (key : string) : bool :=
  bool_decide (is_Some (record !! key)) || Js.inherited key.

(** [record[key]], likewise. *)
Definition get_property (record : TranslationRecord) (key : string)
    : option LedgerValue :=
  match record !! key with
  | Some entry => Some (Entry entry)
  | None => if Js.inherited key then Some Builtin else None
  end.

(** [record[key] = entry]: an own property is set.  The one exception is
    the key [__proto__] on a record without an own property of that name:
    the assignment goes to the setter inherited from [Object.prototype],
    which makes the entry the prototype of the record, and no property is
    stored. *)
Definition set_property (key : string) (entry : TranslatedDocument)
    (record : TranslationRecord) : TranslationRecord :=
  if bool_decide (key = "__proto__") && bool_decide (record !! key = None)
  then record
  else <[key := entry]> record.

Record Config : Type := {
  sourceCollectionId : string;
  targetCollectionId : string;
  maxSpendingUsd : option Js.number;
  batchSize : option Z;
  dryRun : bool;
}.

Record TranslationStats : Type := {
  total : nat;
  translated : nat;
  skipped : nat;
  errors : nat;
}.

Record CostEstimate : Type := {
  totalDocuments : nat;
  estimatedCostUsd : Js.number;
}.

#[global] Instance OutlineDocument_eq_dec : EqDecision OutlineDocument.
Proof. solve_decision. Defined.

#[global] Instance TranslatedDocument_eq_dec : EqDecision TranslatedDocument.
Proof. solve_decision. Defined.

(* ===================================================================== *)
(** ** Budget gate: [CostEstimator] and [UsageMonitor] *)
(* ===================================================================== *)

(** [CostEstimator.confirmCostWithUser]: the printing is left out, the
    verdict kept. *)
Definition confirmCostWithUser
    (estimate : CostEstimate) (maxSpending : option Js.number) : bool :=
  match maxSpending with
  | Some m =>
      if Js.truthy_number m && Js.gt (estimatedCostUsd estimate) m
      then false else true
  | None => true
  end.

(** [UsageMonitor.checkSpendingLimit]. *)
Definition checkSpendingLimit
    (estimatedCost : Js.number) (maxSpending : option Js.number) : bool :=
  if negb (Js.truthy_onumber maxSpending) then true
  else
    match maxSpending with
    | Some m => if Js.gt estimatedCost m then false else true
    | None => true
    end.

(* ===================================================================== *)
(** ** Outcomes, collaborators and the state of one run *)
(* ===================================================================== *)

(** A thrown JS [Error], by its message. *)
Inductive Error : Type :=
| MkError (message : string).

(** The outcome of a computation: a value, an exception, or no outcome
    because a loop was still running when the fuel ran out. *)
Inductive Result (A : Type) : Type :=
| Ok (a : A)
| Throw (e : Error)
| Hang.

Arguments Ok {A} a.
Arguments Throw {A} e.
Arguments Hang {A}.

(** The two prompts [TranslationService] sends to the chat endpoint. *)
Inductive ChatRequest : Type :=
| TitlePrompt (title : string)
| ContentPrompt (content : string).

(** Requests issued to the collaborators, in the order they are issued. *)
Inductive Call : Type :=
| CallList (collection : string)
| CallInfo (documentId : string)
| CallCreate (request : OutlineDocumentCreateRequest)
| CallChat (request : ChatRequest)
| CallWriteFile (record : TranslationRecord).

(** The creation requests among a sequence of calls. *)
Definition creations (l : list Call) : list OutlineDocumentCreateRequest :=
  omap (fun c => match c with CallCreate r => Some r | _ => None end) l.

(** The collaborators of the core, over an arbitrary world [W]: the three
    [OutlineClient] methods the run uses (each may throw), the chat
    completion behind [TranslationService] (the reply's
    [choices[0]?.message?.content], or an exception), whether
    [fs.writeFileSync] throws, and the clock read by [new Date()]. *)
Class Remote (W : Type) : Type := {
  getDocumentsByCollection_remote :
    string -> W -> Result (list OutlineDocument) * W;
  getDocumentInfo_remote : string -> W -> Result OutlineDocument * W;
  createDocument_remote :
    OutlineDocumentCreateRequest -> W -> Result OutlineDocument * W;
  chat_remote : ChatRequest -> W -> Result (option string) * W;
  writeFileSync_remote : TranslationRecord -> W -> Result unit * W;
  now_remote : W -> string * W;
}.

(** The backing file of the ledger: absent, present but not readable as a
    record ([readFileSync] or [JSON.parse] throws), or holding the JSON of a
    record. *)
Inductive File : Type :=
| Missing
| Unreadable
| Stored (record : TranslationRecord).

(** A [DocumentNode] object; [children] and [parent] hold node addresses. *)
Record DocumentNode : Type := {
  document : OutlineDocument;
  children : list nat;
  parent : option nat;
}.

(** [targetId] and [targetName] are [undefined] in the mapping made from
    a ledger value that is not an entry. *)
Record FolderMapping : Type := {
  sourceId : string;
  targetId : option string;
  sourceName : string;
  targetName : option string;
}.

(** The mutable state of one process: the fields of [TranslationTracker]
    and its file, the node heap and the two maps of [DocumentHierarchy],
    the requests issued so far and the world. *)
Record State (W : Type) : Type := {
  translations : TranslationRecord;
  file : File;
  heap : list DocumentNode;
  sourceHierarchy : gmap string nat;
  folderMappings : gmap string FolderMapping;
  calls : list Call;
  world : W;
}.

Arguments translations {W} _.
Arguments file {W} _.
Arguments heap {W} _.
Arguments sourceHierarchy {W} _.
Arguments folderMappings {W} _.
Arguments calls {W} _.
Arguments world {W} _.

Section Setters.
Context {W : Type}.

Definition set_translations (f : TranslationRecord -> TranslationRecord)
    (st : State W) : State W :=
  {| translations := f (translations st); file := file st; heap := heap st;
     sourceHierarchy := sourceHierarchy st;
     folderMappings := folderMappings st; calls := calls st;
     world := world st |}.

Definition set_file (f : File) (st : State W) : State W :=
  {| translations := translations st; file := f; heap := heap st;
     sourceHierarchy := sourceHierarchy st;
     folderMappings := folderMappings st; calls := calls st;
     world := world st |}.

Definition set_heap (f : list DocumentNode -> list DocumentNode)
    (st : State W) : State W :=
  {| translations := translations st; file := file st; heap := f (heap st);
     sourceHierarchy := sourceHierarchy st;
     folderMappings := folderMappings st; calls := calls st;
     world := world st |}.

Definition set_sourceHierarchy (f : gmap string nat -> gmap string nat)
    (st : State W) : State W :=
  {| translations := translations st; file := file st; heap := heap st;
     sourceHierarchy := f (sourceHierarchy st);
     folderMappings := folderMappings st; calls := calls st;
     world := world st |}.

Definition set_folderMappings
    (f : gmap string FolderMapping -> gmap string FolderMapping)
    (st : State W) : State W :=
  {| translations := translations st; file := file st; heap := heap st;
     sourceHierarchy := sourceHierarchy st;
     folderMappings := f (folderMappings st); calls := calls st;
     world := world st |}.

Definition set_world (c : list Call) (w : W) (st : State W) : State W :=
  {| translations := translations st; file := file st; heap := heap st;
     sourceHierarchy := sourceHierarchy st;
     folderMappings := folderMappings st; calls := c; world := w |}.

End Setters.

(* ===================================================================== *)
(** ** The monad of the services *)
(* ===================================================================== *)

(** State passing with exceptions: a throw keeps the state reached. *)
Definition M (W A : Type) : Type := State W -> Result A * State W.

Section Monad.
Context {W : Type}.

Definition ret {A} (a : A) : M W A := fun st => (Ok a, st).

Definition bind {A B} (m : M W A) (k : A -> M W B) : M W B :=
  fun st =>
    match m st with
    | (Ok a, st') => k a st'
    | (Throw e, st') => (Throw e, st')
    | (Hang, st') => (Hang, st')
    end.

Definition throw {A} (e : Error) : M W A := fun st => (Throw e, st).

Definition hang {A} : M W A := fun st => (Hang, st).

(** [try { m } catch (error) { h error }]. *)
Definition try_catch {A} (m : M W A) (h : Error -> M W A) : M W A :=
  fun st =>
    match m st with
    | (Throw e, st') => h e st'
    | r => r
    end.

(** [await Promise.all([m1, m2])]: both computations are started, [m1]
    first; the result is the pair of their values, or the first exception
    when one of them throws. *)
Definition promise_all2 {A B} (m1 : M W A) (m2 : M W B) : M W (A * B) :=
  fun st =>
    let '(r1, st1) := m1 st in
    let '(r2, st2) := m2 st1 in
    match r1, r2 with
    | Ok a, Ok b => (Ok (a, b), st2)
    | Throw e, _ => (Throw e, st2)
    | _, Throw e => (Throw e, st2)
    | _, _ => (Hang, st2)
    end.

Definition gets {A} (f : State W -> A) : M W A := fun st => (Ok (f st), st).

Definition modify (f : State W -> State W) : M W unit :=
  fun st => (Ok tt, f st).

(** A request to a collaborator: logged, then answered by the world. *)
Definition request `{!Remote W} {A} (c : Call) (op : W -> Result A * W)
    : M W A :=
  fun st =>
    let '(r, w) := op (world st) in
    (r, set_world (calls st ++ [c]) w st).

End Monad.

Notation "x <- c1 ;; c2" := (bind c1 (fun x => c2))
  (at level 20, c1 at level 99, c2 at level 200, only parsing).

(* ===================================================================== *)
(** ** [TranslationTracker]: the persisted ledger *)
(* ===================================================================== *)

(** [loadTranslations]: a missing file, or one that cannot be read or
    parsed, gives the empty record. *)
Definition loadTranslations (f : File) : TranslationRecord :=
  match f with
  | Stored r => r
  | Missing | Unreadable => ∅
  end.

(** The entry [addTranslation] records for a pair of documents, stamped
    with the time of the call. *)
Definition ledger_entry (originalDoc translatedDoc : OutlineDocument)
    (stamp : string) : TranslatedDocument :=
  {| originalId := id originalDoc;
     translatedId := id translatedDoc;
     originalTitle := title originalDoc;
     translatedTitle := title translatedDoc;
     originalUpdatedAt := updatedAt originalDoc;
     translatedAt := stamp |}.

Section TranslationTracker.
Context {W : Type} `{!Remote W} `{!Js.Runtime}.

(** [new TranslationTracker()]. *)
Definition newTranslationTracker : M W unit :=
  modify (fun st => set_translations (fun _ => loadTranslations (file st)) st).

(** [saveTranslations]: the whole record is written; a failed write is
    rethrown. *)
Definition saveTranslations : M W unit :=
  data <- gets translations ;;
  try_catch
    (_ <- request (CallWriteFile data) (writeFileSync_remote data) ;;
     modify (set_file (Stored data)))
    (fun error => throw error).

Definition isDocumentTranslated (tr : TranslationRecord) (documentId : string)
    : bool :=
  has_property tr documentId.

Definition getTranslatedDocument (tr : TranslationRecord)
    (documentId : string) : option LedgerValue :=
  get_property tr documentId.

Definition addTranslation (originalDoc translatedDoc : OutlineDocument)
    : M W unit :=
  stamp <- (fun st => let '(t, w) := now_remote (world st) in
                      (Ok t, set_world (calls st) w st)) ;;
  let translatedDocument := ledger_entry originalDoc translatedDoc stamp in
  _ <- modify (set_translations
                 (set_property (id originalDoc) translatedDocument)) ;;
  saveTranslations.

(** [new Date(undefined)] is an invalid date. *)
Definition needsUpdate (tr : TranslationRecord) (doc : OutlineDocument)
    : bool :=
  match getTranslatedDocument tr (id doc) with
  | None => false
  | Some existingTranslation =>
      let originalUpdated := Js.date_value (updatedAt doc) in
      let translatedAt :=
        match translatedAt_of existingTranslation with
        | Some stamp => Js.date_value stamp
        | None => Js.NaN
        end in
      Js.gt originalUpdated translatedAt
  end.

Definition removeTranslation (documentId : string) : M W unit :=
  tr <- gets translations ;;
  if isDocumentTranslated tr documentId then
    _ <- modify (set_translations (delete documentId)) ;;
    saveTranslations
  else ret tt.

End TranslationTracker.

(* ===================================================================== *)
(** ** [TranslationService] *)
(* ===================================================================== *)

Section TranslationService.
Context {W : Type} `{!Remote W} `{!Js.Runtime}.

(** [dry] is the service's [dryRun] field, fixed at construction. *)
Definition translateToEnglish (dry : bool) (content title : string)
    (forceTranslate : bool) : M W string :=
  if dry && negb forceTranslate then
    ret ("[DRY RUN] Translated: " +:+ Js.substring0 100 content +:+ "...")
  else if Js.isAlreadyInEnglish content then ret content
  else
    try_catch
      (translatedContent <-
         request (CallChat (ContentPrompt content))
                 (chat_remote (ContentPrompt content)) ;;
       if Js.truthy_ostring translatedContent then
         ret (Js.trim (default "" translatedContent))
       else throw (MkError "OpenAI returned empty translation"))
      (fun '(MkError message) =>
         throw (MkError ("Translation failed: " +:+ message))).

Definition translateTitle (dry : bool) (title : string)
    (forceTranslate : bool) : M W string :=
  if dry && negb forceTranslate then
    ret ("[DRY RUN] Translated: " +:+ title)
  else if Js.isAlreadyInEnglish title then ret title
  else
    try_catch
      (content <-
         request (CallChat (TitlePrompt title))
                 (chat_remote (TitlePrompt title)) ;;
       match content with
       | Some c =>
           if Js.truthy_string (Js.trim c) then ret (Js.trim c) else ret title
       | None => ret title
       end)
      (fun _ => ret title).

End TranslationService.

(* ===================================================================== *)
(** ** [DocumentHierarchy]: building the forest, root-to-node paths *)
(* ===================================================================== *)

(** In-place update of the node at address [a]. *)
Definition update_node (a : nat) (f : DocumentNode -> DocumentNode)
    (h : list DocumentNode) : list DocumentNode :=
  match h !! a with
  | Some n => <[a := f n]> h
  | None => h
  end.

Definition push_child (c : nat) (n : DocumentNode) : DocumentNode :=
  {| document := document n; children := children n ++ [c];
     parent := parent n |}.

Definition set_parent (p : nat) (n : DocumentNode) : DocumentNode :=
  {| document := document n; children := children n; parent := Some p |}.

(** First pass of [buildHierarchy]: one fresh node per document, entered
    under the document's id in the local [documentMap] and in the
    [sourceHierarchy] field (a later document with the same id replaces the
    earlier entry).  The accumulator is [(heap, documentMap,
    sourceHierarchy)]. *)
Definition first_pass_step
    (acc : list DocumentNode * gmap string nat * gmap string nat)
    (doc : OutlineDocument)
    : list DocumentNode * gmap string nat * gmap string nat :=
  let '(h, documentMap, sh) := acc in
  let node := {| document := doc; children := []; parent := None |} in
  let a := length h in
  (h ++ [node], <[id doc := a]> documentMap, <[id doc := a]> sh).

(** Second pass: link each document's node under its parent's node when the
    declared parent id is truthy and present in [documentMap]; otherwise the
    node is pushed on [rootNodes].  The accumulator is [(heap, rootNodes)]. *)
Definition second_pass_step (documentMap : gmap string nat)
    (acc : list DocumentNode * list nat) (doc : OutlineDocument)
    : list DocumentNode * list nat :=
  let '(h, rootNodes) := acc in
  match documentMap !! id doc with
  | None => acc
  | Some node =>
      if Js.truthy_ostring (parentDocumentId doc) then
        match documentMap !! default "" (parentDocumentId doc) with
        | Some parent =>
            (update_node node (set_parent parent)
               (update_node parent (push_child node) h), rootNodes)
        | None => (h, rootNodes ++ [node])
        end
      else (h, rootNodes ++ [node])
  end.

(** [buildHierarchy] on the heap and [sourceHierarchy] it finds; the result
    is [(rootNodes, heap, sourceHierarchy)]. *)
Definition buildHierarchy_on (documents : list OutlineDocument)
    (h : list DocumentNode) (sh : gmap string nat)
    : list nat * list DocumentNode * gmap string nat :=
  let '(h1, documentMap, sh1) := foldl first_pass_step (h, ∅, sh) documents in
  let '(h2, rootNodes) :=
    foldl (second_pass_step documentMap) (h1, []) documents in
  (rootNodes, h2, sh1).

(** The [while (current)] loop of [getDocumentPath]: [None] when the loop
    is still running after [fuel] iterations. *)
Fixpoint path_loop (fuel : nat) (h : list DocumentNode)
    (current : option nat) (path : list nat) : option (list nat) :=
  match current with
  | None => Some path
  | Some a =>
      match fuel with
      | O => None
      | S fuel' => path_loop fuel' h (h !! a ≫= parent) (a :: path)
      end
  end.

Definition getDocumentPath_on (fuel : nat) (h : list DocumentNode)
    (sh : gmap string nat) (documentId : string) : option (list nat) :=
  path_loop fuel h (sh !! documentId) [].

(** The recursion of [printHierarchyStats]: [calculateStats] visits the
    nodes and, for a node with children, calls itself on them; the pair is
    [(totalDocs, maxDepth)].  The result is [None] when the calls nest
    deeper than the call stack allows ([stack] frames). *)
Fixpoint calculateStats (stack : nat) (h : list DocumentNode)
    (nodes : list nat) (depth : nat) (acc : nat * nat)
    : option (nat * nat) :=
  match stack with
  | O => None
  | S stack' =>
      foldl
        (fun acc a =>
           match acc with
           | None => None
           | Some (totalDocs, maxDepth) =>
               match h !! a with
               | Some node =>
                   if bool_decide (0 < length (children node)) then
                     calculateStats stack' h (children node) (S depth)
                       (S totalDocs, maxDepth)
                   else Some (S totalDocs, maxDepth)
               | None => Some (S totalDocs, maxDepth)
               end
           end)
        (Some (acc.1, Nat.max acc.2 depth)) nodes
  end.

Section DocumentHierarchy.
Context {W : Type} `{!Remote W} `{!Js.Runtime}.

(** [new DocumentHierarchy(...)]: both maps start empty. *)
Definition newDocumentHierarchy : M W unit :=
  modify (fun st =>
    set_folderMappings (fun _ => ∅)
      (set_sourceHierarchy (fun _ => ∅) (set_heap (fun _ => []) st))).

Definition buildHierarchy (documents : list OutlineDocument)
    : M W (list nat) :=
  fun st =>
    let '(rootNodes, h, sh) :=
      buildHierarchy_on documents (heap st) (sourceHierarchy st) in
    (Ok rootNodes, set_sourceHierarchy (fun _ => sh) (set_heap (fun _ => h) st)).

(** [printHierarchyStats]: the printing is left out; exceeding the call
    stack throws a [RangeError]. *)
Definition printHierarchyStats (stack : nat) (rootNodes : list nat)
    : M W unit :=
  fun st =>
    match calculateStats stack (heap st) rootNodes 0 (0, 0) with
    | Some _ => (Ok tt, st)
    | None => (Throw (MkError "Maximum call stack size exceeded"), st)
    end.

Definition getDocumentPath (fuel : nat) (documentId : string)
    : M W (list nat) :=
  fun st =>
    match getDocumentPath_on fuel (heap st) (sourceHierarchy st) documentId
    with
    | Some path => (Ok path, st)
    | None => (Hang, st)
    end.

Definition getDocumentsByCollection (collection : string)
    : M W (list OutlineDocument) :=
  request (CallList collection) (getDocumentsByCollection_remote collection).

Definition getDocumentInfo (documentId : string) : M W OutlineDocument :=
  request (CallInfo documentId) (getDocumentInfo_remote documentId).

Definition createDocument (req : OutlineDocumentCreateRequest)
    : M W OutlineDocument :=
  request (CallCreate req) (createDocument_remote req).

(** The callback of [documents.find] in [findFolderByName]: strict
    equality of the title and of the parent id. *)
Definition folder_matches (folderName : string) (parentId : option string)
    (doc : OutlineDocument) : bool :=
  bool_decide (title doc = folderName)
  && bool_decide (parentDocumentId doc = parentId).

Definition findFolderByName (folderName collection : string)
    (parentId : option string) : M W (option OutlineDocument) :=
  try_catch
    (documents <- getDocumentsByCollection collection ;;
     ret (Js.find (folder_matches folderName parentId) documents))
    (fun _ => ret None).

Definition mkFolderMapping (sourceDoc : OutlineDocument)
    (target targetName : option string) : FolderMapping :=
  {| sourceId := id sourceDoc; targetId := target;
     sourceName := title sourceDoc; targetName := targetName |}.

(** The last branch of the loop body of [ensureFolderStructure]: no folder
    was found, so one is created, recorded in the ledger and mapped. *)
Definition createFolder (dry : bool) (targetCollection : string)
    (forceTranslate : bool) (sourceDoc : OutlineDocument)
    (translatedFolderName : string) (currentParentId : option string)
    : M W (option string) :=
  translatedContent <-
    (if Js.truthy_string (text sourceDoc)
        && negb (bool_decide (Js.trim (text sourceDoc) = ""))
     then translateToEnglish dry (text sourceDoc) (title sourceDoc)
            forceTranslate
     else ret "") ;;
  let folderRequest :=
    {| req_title := translatedFolderName;
       req_text := translatedContent;
       req_emoji :=
         if Js.truthy_ostring (emoji sourceDoc) then emoji sourceDoc
         else None;
       req_collectionId := targetCollection;
       req_parentDocumentId :=
         if Js.truthy_ostring currentParentId then currentParentId
         else None |} in
  newFolder <- createDocument folderRequest ;;
  _ <- addTranslation sourceDoc newFolder ;;
  _ <- modify (set_folderMappings
         (<[id sourceDoc :=
              mkFolderMapping sourceDoc (Some (id newFolder))
                (Some translatedFolderName)]>)) ;;
  ret (Some (id newFolder)).

(** The loop body of [ensureFolderStructure] for one ancestor: the cache,
    then the ledger, then the search of the destination, then creation.
    The result is the next [currentParentId]. *)
Definition resolveFolder (dry : bool) (targetCollection : string)
    (forceTranslate : bool) (currentParentId : option string)
    (sourceDoc : OutlineDocument) : M W (option string) :=
  mappings <- gets folderMappings ;;
  match mappings !! id sourceDoc with
  | Some existingMapping => ret (targetId existingMapping)
  | None =>
      tr <- gets translations ;;
      match (if isDocumentTranslated tr (id sourceDoc)
             then getTranslatedDocument tr (id sourceDoc) else None) with
      | Some existingTranslation =>
          _ <- modify (set_folderMappings
                 (<[id sourceDoc :=
                      mkFolderMapping sourceDoc
                        (translatedId_of existingTranslation)
                        (translatedTitle_of existingTranslation)]>)) ;;
          ret (translatedId_of existingTranslation)
      | None =>
          translatedFolderName <-
            translateTitle dry (title sourceDoc) forceTranslate ;;
          existingFolder <-
            findFolderByName translatedFolderName targetCollection
              currentParentId ;;
          match existingFolder with
          | Some folder =>
              _ <- modify (set_folderMappings
                     (<[id sourceDoc :=
                          mkFolderMapping sourceDoc (Some (id folder))
                            (Some translatedFolderName)]>)) ;;
              ret (Some (id folder))
          | None =>
              createFolder dry targetCollection forceTranslate sourceDoc
                translatedFolderName currentParentId
          end
      end
  end.

(** The [for] loop over [folderPath]. *)
Fixpoint resolveFolders (dry : bool) (targetCollection : string)
    (forceTranslate : bool) (folderPath : list nat)
    (currentParentId : option string) : M W (option string) :=
  match folderPath with
  | [] => ret currentParentId
  | a :: rest =>
      h <- gets heap ;;
      match h !! a with
      | None =>
          resolveFolders dry targetCollection forceTranslate rest
            currentParentId
      | Some folderNode =>
          next <- resolveFolder dry targetCollection forceTranslate
                    currentParentId (document folderNode) ;;
          resolveFolders dry targetCollection forceTranslate rest next
      end
  end.

Definition ensureFolderStructure (fuel : nat) (dry : bool)
    (documentId targetCollection : string) (forceTranslate : bool)
    : M W (option string) :=
  path <- getDocumentPath fuel documentId ;;
  let folderPath := Js.drop_last path in
  if bool_decide (length folderPath = 0) then ret None
  else resolveFolders dry targetCollection forceTranslate folderPath None.

End DocumentHierarchy.

(* ===================================================================== *)
(** ** [main]: the run orchestrator *)
(* ===================================================================== *)

(** [CostEstimator.estimateBatchCost] sums per-document prices in floating
    point; the run only compares its [estimatedCostUsd] with the ceiling,
    so the estimator is a parameter of the embedding. *)
Class Pricing : Type := {
  estimateBatchCost : list OutlineDocument -> CostEstimate;
}.

(** How one invocation of [main] ends. *)
Inductive Outcome : Type :=
| NoDocuments
| AllUpToDate
| CancelledByCostLimit
| CancelledBySpendingLimit
| Completed (stats : TranslationStats)
| FatalError (e : Error).

Definition incr_translated (s : TranslationStats) : TranslationStats :=
  {| total := total s; translated := S (translated s);
     skipped := skipped s; errors := errors s |}.

Definition incr_skipped (s : TranslationStats) : TranslationStats :=
  {| total := total s; translated := translated s;
     skipped := S (skipped s); errors := errors s |}.

Definition incr_errors (s : TranslationStats) : TranslationStats :=
  {| total := total s; translated := translated s;
     skipped := skipped s; errors := S (errors s) |}.

(** What the first half of the [try] block decides for a document. *)
Inductive Placement : Type :=
| SkipDocument
| Place (fullDoc : OutlineDocument) (parentDocumentId : option string).

Section Main.
Context {W : Type} `{!Remote W} `{!Js.Runtime} `{!Pricing}.

(** The [documents.filter] of [main]. *)
Definition pending (tr : TranslationRecord) (doc : OutlineDocument) : bool :=
  if isDocumentTranslated tr (id doc) then needsUpdate tr doc else true.

(** First half of the [try] block: the up-to-date check, the fetch of the
    full document, the empty-content check and the folder placement. *)
Definition placeDocument (fuel : nat) (config : Config) (isFirstDoc : bool)
    (doc : OutlineDocument) : M W Placement :=
  tr <- gets translations ;;
  if isDocumentTranslated tr (id doc) && negb (needsUpdate tr doc)
  then ret SkipDocument
  else
    fullDoc <- getDocumentInfo (id doc) ;;
    if negb (Js.truthy_string (text fullDoc))
       || bool_decide (Js.trim (text fullDoc) = "")
    then ret SkipDocument
    else
      let forceTranslate := dryRun config && isFirstDoc in
      parentDocumentId <-
        ensureFolderStructure fuel (dryRun config) (id doc)
          (targetCollectionId config) forceTranslate ;;
      ret (Place fullDoc parentDocumentId).

(** Second half, up to the creation of the translated document: the two
    translations are awaited together, then the document is created. *)
Definition translateAndCreate (config : Config) (isFirstDoc : bool)
    (fullDoc : OutlineDocument) (parentDocumentId : option string)
    : M W OutlineDocument :=
  let forceTranslate := dryRun config && isFirstDoc in
  translated <-
    promise_all2
      (translateToEnglish (dryRun config) (text fullDoc) (title fullDoc)
         forceTranslate)
      (translateTitle (dryRun config) (title fullDoc) forceTranslate) ;;
  let '(translatedContent, translatedTitle) := translated in
  let createRequest :=
    {| req_title := translatedTitle;
       req_text := translatedContent;
       req_emoji :=
         if Js.truthy_ostring (emoji fullDoc) then emoji fullDoc else None;
       req_collectionId := targetCollectionId config;
       req_parentDocumentId :=
         if Js.truthy_ostring parentDocumentId then parentDocumentId
         else None |} in
  createDocument createRequest.

(** One iteration of the processing loop. *)
Definition processDocument (fuel : nat) (config : Config) (i : nat)
    (doc : OutlineDocument) (stats : TranslationStats)
    : M W TranslationStats :=
  let isFirstDoc := bool_decide (i = 0) in
  if dryRun config && negb isFirstDoc then ret (incr_skipped stats)
  else
    try_catch
      (placement <- placeDocument fuel config isFirstDoc doc ;;
       match placement with
       | SkipDocument => ret (incr_skipped stats)
       | Place fullDoc parentDocumentId =>
           newDocument <-
             translateAndCreate config isFirstDoc fullDoc parentDocumentId ;;
           _ <- addTranslation fullDoc newDocument ;;
           ret (incr_translated stats)
       end)
      (fun _ => ret (incr_errors stats)).

(** The [for] loop of [main], from index [i]. *)
Fixpoint processDocuments (fuel : nat) (config : Config) (i : nat)
    (documentsToProcess : list OutlineDocument) (stats : TranslationStats)
    : M W TranslationStats :=
  match documentsToProcess with
  | [] => ret stats
  | doc :: rest =>
      stats' <- processDocument fuel config i doc stats ;;
      processDocuments fuel config (S i) rest stats'
  end.

(** The batch [main] settles on, from the fetched documents. *)
Definition documentsToProcess (config : Config) (tr : TranslationRecord)
    (documents : list OutlineDocument) : list OutlineDocument :=
  let documentsToTranslate := filter (fun doc => pending tr doc = true)
                                documents in
  match batchSize config with
  | Some (Zpos _ as n) | Some (Zneg _ as n) => Js.slice0 documentsToTranslate n
  | Some Z0 | None => documentsToTranslate
  end.

(** The documents whose cost is estimated for the gate. *)
Definition documentsForCostEstimate (config : Config)
    (batch : list OutlineDocument) : list OutlineDocument :=
  if dryRun config then Js.slice0 batch 1 else batch.

(** What [main] makes of the outcome of its processing loop. *)
Definition finish (r : Result TranslationStats * State W)
    : Result Outcome * State W :=
  match r with
  | (Ok stats, st) => (Ok (Completed stats), st)
  | (Throw e, st) => (Ok (FatalError e), st)
  | (Hang, st) => (Hang, st)
  end.

(** [main], with the configuration already loaded. *)
Definition main (fuel stack : nat) (config : Config) : M W Outcome :=
  try_catch
    (_ <- newTranslationTracker ;;
     _ <- newDocumentHierarchy ;;
     documents <- getDocumentsByCollection (sourceCollectionId config) ;;
     if bool_decide (length documents = 0) then ret NoDocuments
     else
       rootNodes <- buildHierarchy documents ;;
       _ <- printHierarchyStats stack rootNodes ;;
       tr <- gets translations ;;
       if bool_decide
            (length (filter (fun doc => pending tr doc = true) documents) = 0)
       then ret AllUpToDate
       else
         let batch := documentsToProcess config tr documents in
         let costEstimate :=
           estimateBatchCost (documentsForCostEstimate config batch) in
         if negb (confirmCostWithUser costEstimate (maxSpendingUsd config))
         then ret CancelledByCostLimit
         else if negb (checkSpendingLimit (estimatedCostUsd costEstimate)
                         (maxSpendingUsd config))
         then ret CancelledBySpendingLimit
         else
           let stats := {| total := length batch; translated := 0;
                           skipped := 0; errors := 0 |} in
           stats' <- processDocuments fuel config 0 batch stats ;;
           ret (Completed stats'))
    (fun error => ret (FatalError error)).

End Main.

(* ===================================================================== *)
(** ** A document store and a translation engine to run against *)
(* ===================================================================== *)

(** The documents the server holds (all collections, oldest first) and the
    number of identifiers it has handed out. *)
Record Store : Type := {
  store_docs : list OutlineDocument;
  store_next : nat;
}.

(** How a server behaves: the identifier it gives to its [n]-th creation,
    the reply of the translation engine to a prompt, the time it reports,
    and which kinds of request it rejects. *)
Record Server : Type := {
  fresh_id : nat -> string;
  reply : ChatRequest -> string;
  clock : string;
  list_fails : bool;
  info_fails : bool;
  create_fails : bool;
  chat_fails : bool;
  write_fails : bool;
}.

Definition created_document (srv : Server) (n : nat)
    (req : OutlineDocumentCreateRequest) : OutlineDocument :=
  {| id := fresh_id srv n;
     title := req_title req;
     text := req_text req;
     emoji := req_emoji req;
     collectionId := req_collectionId req;
     parentDocumentId := req_parentDocumentId req;
     updatedAt := clock srv |}.

(** A server that lists a collection by scanning its documents, finds a
    document by id, stores what it creates under a new identifier, and
    answers chat prompts by [reply]. *)
Definition server_remote (srv : Server) : Remote Store :=
  {| getDocumentsByCollection_remote := fun collection w =>
       if list_fails srv then (Throw (MkError "Outline API error"), w)
       else (Ok (filter (fun d => collectionId d = collection) (store_docs w)),
             w);
     getDocumentInfo_remote := fun documentId w =>
       if info_fails srv then (Throw (MkError "Outline API error"), w)
       else
         match Js.find (fun d => bool_decide (id d = documentId))
                 (store_docs w) with
         | Some d => (Ok d, w)
         | None => (Throw (MkError "Outline API error"), w)
         end;
     createDocument_remote := fun req w =>
       if create_fails srv then (Throw (MkError "Outline API error"), w)
       else
         let d := created_document srv (store_next w) req in
         (Ok d, {| store_docs := store_docs w ++ [d];
                   store_next := S (store_next w) |});
     chat_remote := fun req w =>
       if chat_fails srv then (Throw (MkError "OpenAI error"), w)
       else (Ok (Some (reply srv req)), w);
     writeFileSync_remote := fun _ w =>
       if write_fails srv then (Throw (MkError "EACCES"), w)
       else (Ok tt, w);
     now_remote := fun w => (clock srv, w) |}.

(** Decimal reading of a digit string, and the platform used in the
    examples: dates are epoch milliseconds written in decimal (anything else
    is an invalid date), [trim] leaves its argument alone, and every text
    counts as English, so that translation returns its input without a
    request to the engine. *)
Definition digit_value (c : Ascii.ascii) : option Z :=
  let n := Z.of_nat (Ascii.nat_of_ascii c) in
  if ((48 <=? n) && (n <=? 57))%Z then Some (n - 48)%Z else None.

Fixpoint decimal_value (acc : Z) (s : string) : option Z :=
  match s with
  | EmptyString => Some acc
  | String c r =>
      match digit_value c with
      | Some d => decimal_value (10 * acc + d) r
      | None => None
      end
  end.

Definition example_runtime : Js.Runtime :=
  {| Js.date_value := fun s =>
       match s with
       | EmptyString => Js.NaN
       | _ => match decimal_value 0 s with
              | Some z => Js.Fin (inject_Z z)
              | None => Js.NaN
              end
       end;
     Js.trim := fun s => s;
     Js.isAlreadyInEnglish := fun _ => true |}.

(** A price of 1.50 dollars per document. *)
Definition example_pricing : Pricing :=
  {| estimateBatchCost := fun docs =>
       {| totalDocuments := length docs;
          estimatedCostUsd :=
            Js.Fin (Qmult (3 # 2) (inject_Z (Z.of_nat (length docs)))) |} |}.

Definition initial_state {W} (f : File) (w : W) : State W :=
  {| translations := ∅; file := f; heap := []; sourceHierarchy := ∅;
     folderMappings := ∅; calls := []; world := w |}.

(* ===================================================================== *)
(** ** The rest of the services *)
(* ===================================================================== *)

From Stdlib Require Import Qround.

(** More of the JavaScript platform. *)
Module JsLib.

(** [a === b] on numbers: [NaN] equals nothing, the two zeros are equal. *)
Definition strict_eq (a b : Js.number) : bool :=
  match a, b with
  | Js.Fin x, Js.Fin y => Qeq_bool x y
  | Js.NegInf, Js.NegInf | Js.PosInf, Js.PosInf => true
  | _, _ => false
  end.

(** [Math.ceil] of a number that is not negative. *)
Definition ceil (q : Q) : nat := Z.to_nat (Qceiling q).

(** [s.replace(/\/$/, "")]: one slash at the very end of the string is
    removed. *)
Fixpoint strip_trailing_slash (s : string) : string :=
  match s with
  | EmptyString => EmptyString
  | String c EmptyString =>
      if Ascii.eqb c "/" then EmptyString else String c EmptyString
  | String c r => String c (strip_trailing_slash r)
  end.

(** [parseFloat] and [parseInt] (radix left out); [parseInt] answers an
    integer or [NaN], which is [None] here. *)
Class Parsers : Type := {
  parseFloat : string -> Js.number;
  parseInt : string -> option Z;
}.

End JsLib.

(* ===================================================================== *)
(** ** [CostEstimator]: token estimates, [shouldProceedWithCost] *)
(* ===================================================================== *)

Definition CHARS_PER_TOKEN : Q := 4.
Definition SYSTEM_PROMPT_TOKENS : nat := 100.
Definition TRANSLATION_OVERHEAD_TOKENS : nat := 50.

(** [(document.text || "").length + (document.title || "").length]: the
    default only ever replaces an empty string by an empty string.  Counts
    of this size are exact in a [number], so they are naturals here. *)
Definition contentLength (document : OutlineDocument) : nat :=
  Js.length (text document) + Js.length (title document).

Definition estimateInputTokens (document : OutlineDocument) : nat :=
  let contentTokens :=
    JsLib.ceil (inject_Z (Z.of_nat (contentLength document))
                / CHARS_PER_TOKEN) in
  contentTokens + SYSTEM_PROMPT_TOKENS + TRANSLATION_OVERHEAD_TOKENS.

Definition estimateOutputTokens (document : OutlineDocument) : nat :=
  JsLib.ceil (inject_Z (Z.of_nat (contentLength document)) / CHARS_PER_TOKEN).

(** The [totalTokens] of [estimateBatchCost], reported as
    [estimatedTokens]. *)
Definition totalTokens (documents : list OutlineDocument) : nat :=
  foldl (fun sum doc =>
           sum + estimateInputTokens doc + estimateOutputTokens doc)
    0 documents.

(** [CostEstimator.shouldProceedWithCost]: the warning is left out. *)
Definition shouldProceedWithCost
    (estimate : CostEstimate) (maxSpending : option Js.number) : bool :=
  if JsLib.strict_eq (estimatedCostUsd estimate) (Js.Fin 0) then true
  else
    match maxSpending with
    | Some m =>
        if Js.truthy_number m && Js.gt (estimatedCostUsd estimate) m
        then false else true
    | None => true
    end.

(* ===================================================================== *)
(** ** [DocumentHierarchy]: [clearMappings] *)
(* ===================================================================== *)

Section OtherMethods.
Context {W : Type}.

(** [clearMappings]: both maps are emptied; the nodes stay where they
    are, no longer reachable from the index. *)
Definition clearMappings : M W unit :=
  modify (fun st =>
    set_sourceHierarchy (fun _ => ∅) (set_folderMappings (fun _ => ∅) st)).

End OtherMethods.

(* ===================================================================== *)
(** ** [TranslationTracker.getStats] *)
(* ===================================================================== *)

Record LedgerStats : Type := {
  totalTranslations : nat;
  oldestTranslation : option string;
  newestTranslation : option string;
}.

Section GetStats.
Context `{!Js.Runtime}.

(** [new Date(entry.translatedAt).getTime()]. *)
Definition translation_time (entry : TranslatedDocument) : Js.number :=
  Js.date_value (translatedAt entry).

(** The comparator of the sort answers a positive number: [a] is to come
    after [b]. *)
Definition sorts_after (a b : TranslatedDocument) : bool :=
  Js.gt (translation_time a) (translation_time b).

Fixpoint insert_by_date (a : TranslatedDocument)
    (l : list TranslatedDocument) : list TranslatedDocument :=
  match l with
  | [] => [a]
  | b :: rest =>
      if sorts_after a b then b :: insert_by_date a rest else a :: l
  end.

(** [translations.sort((a, b) => time(a) - time(b))]: the sort is stable.
    With a time that is not finite the differences are [NaN] and the
    comparator is not consistent, in which case ECMAScript leaves the
    order to the implementation: [None]. *)
Definition sort_by_date (l : list TranslatedDocument)
    : option (list TranslatedDocument) :=
  if forallb (fun entry =>
                match translation_time entry with
                | Js.Fin _ => true
                | _ => false
                end) l
  then Some (foldr insert_by_date [] l)
  else None.

(** [entry?.translatedAt || null]. *)
Definition translatedAt_or_null (entry : option TranslatedDocument)
    : option string :=
  match entry with
  | Some e =>
      if Js.truthy_string (translatedAt e) then Some (translatedAt e)
      else None
  | None => None
  end.

(** [getStats], on the array [Object.values(this.translations)]. *)
Definition getStats (translations : list TranslatedDocument)
    : option LedgerStats :=
  if bool_decide (length translations = 0)
  then Some {| totalTranslations := 0; oldestTranslation := None;
               newestTranslation := None |}
  else
    sortedByDate ← sort_by_date translations;
    Some {| totalTranslations := length translations;
            oldestTranslation := translatedAt_or_null (sortedByDate !! 0);
            newestTranslation :=
              translatedAt_or_null
                (sortedByDate !! (length sortedByDate - 1)) |}.

End GetStats.

(* ===================================================================== *)
(** ** [config/index.ts] *)
(* ===================================================================== *)

(** The fields of [Config] that only the constructors of the clients
    read. *)
Record Credentials : Type := {
  openaiApiKey : string;
  outlineApiKey : string;
  outlineApiUrl : string;
}.

Definition required_variable (name : string) : Error :=
  MkError (name +:+ " environment variable is required").

(** [getConfig], on the environment [process.env] once [dotenv] has
    loaded.  A [batchSize] of [NaN], which [main] reads like an absent
    one, is [None]. *)
Definition getConfig `{!JsLib.Parsers} (env : gmap string string)
    : Result (Credentials * Config) :=
  let openaiApiKey := env !! "OPENAI_API_KEY" in
  let outlineApiKey := env !! "OUTLINE_API_KEY" in
  let outlineApiUrl := env !! "OUTLINE_API_URL" in
  let sourceCollectionId := env !! "SOURCE_COLLECTION_ID" in
  let targetCollectionId := env !! "TARGET_COLLECTION_ID" in
  if negb (Js.truthy_ostring openaiApiKey)
  then Throw (required_variable "OPENAI_API_KEY")
  else if negb (Js.truthy_ostring outlineApiKey)
  then Throw (required_variable "OUTLINE_API_KEY")
  else if negb (Js.truthy_ostring outlineApiUrl)
  then Throw (required_variable "OUTLINE_API_URL")
  else if negb (Js.truthy_ostring sourceCollectionId)
  then Throw (required_variable "SOURCE_COLLECTION_ID")
  else if negb (Js.truthy_ostring targetCollectionId)
  then Throw (required_variable "TARGET_COLLECTION_ID")
  else
    Ok ({| openaiApiKey := default "" openaiApiKey;
           outlineApiKey := default "" outlineApiKey;
           outlineApiUrl :=
             JsLib.strip_trailing_slash (default "" outlineApiUrl) |},
        {| sourceCollectionId := default "" sourceCollectionId;
           targetCollectionId := default "" targetCollectionId;
           maxSpendingUsd :=
             if Js.truthy_ostring (env !! "MAX_SPENDING_USD")
             then Some (JsLib.parseFloat
                          (default "" (env !! "MAX_SPENDING_USD")))
             else None;
           batchSize :=
             if Js.truthy_ostring (env !! "BATCH_SIZE")
             then JsLib.parseInt (default "" (env !! "BATCH_SIZE"))
             else None;
           dryRun := bool_decide (env !! "DRY_RUN" = Some "true") |}).

(* ===================================================================== *)
(** ** [OutlineClient]: the paginated listings *)
(* ===================================================================== *)

Module OutlineClient.

(** What [makeRequest] returns, or throws, for the request of the
    listings, [POST /documents.list?offset=..&limit=..] with the body
    [{collectionId}] (none for [getAllDocuments]): the [data] of the
    response, or the error. *)
Class Endpoint (W : Type) : Type := {
  documents_list :
    option string -> nat -> nat -> W -> Result (list OutlineDocument) * W;
}.

Section Listings.
Context {W : Type} `{!Endpoint W}.

Definition limit : nat := 100.

(** The [do { ... } while (true)] loop of the two listings, entered with
    the documents gathered so far and the next offset; [Hang] when it is
    still running after [fuel] requests. *)
Fixpoint list_loop (fuel : nat) (collectionId : option string)
    (offset : nat) (documents : list OutlineDocument) (w : W)
    : Result (list OutlineDocument) * W :=
  match fuel with
  | O => (Hang, w)
  | S fuel' =>
      match documents_list collectionId offset limit w with
      | (Ok data, w') =>
          let documents := documents ++ data in
          if bool_decide (length data < limit) then (Ok documents, w')
          else list_loop fuel' collectionId (offset + limit) documents w'
      | (Throw e, w') => (Throw e, w')
      | (Hang, w') => (Hang, w')
      end
  end.

Definition getAllDocuments (fuel : nat) (w : W)
    : Result (list OutlineDocument) * W :=
  list_loop fuel None 0 [] w.

Definition getDocumentsByCollection (fuel : nat) (collectionId : string)
    (w : W) : Result (list OutlineDocument) * W :=
  list_loop fuel (Some collectionId) 0 [] w.

End Listings.

End OutlineClient.

(* ===================================================================== *)
(** ** Example data *)
(* ===================================================================== *)

Definition mkdoc (i t body : string) (p : option string) (c stamp : string)
    : OutlineDocument :=
  {| id := i; title := t; text := body; emoji := None; collectionId := c;
     parentDocumentId := p; updatedAt := stamp |}.

Definition mkentry (i j stamp : string) : TranslatedDocument :=
  {| originalId := i; translatedId := j; originalTitle := "";
     translatedTitle := ""; originalUpdatedAt := ""; translatedAt := stamp |}.

Fixpoint ticks (n : nat) : string :=
  match n with
  | O => ""
  | S k => String "'"%char (ticks k)
  end.

(** A server that never fails: its [n]-th identifier is ["n"] followed by
    [n] primes, and the engine answers every prompt alike. *)
Definition example_server : Server :=
  {| fresh_id := fun n => String "n"%char (ticks n);
     reply := fun _ => "TRANSLATED";
     clock := "5000";
     list_fails := false; info_fails := false; create_fails := false;
     chat_fails := false; write_fails := false |}.

Definition with_write_failure (srv : Server) : Server :=
  {| fresh_id := fresh_id srv; reply := reply srv; clock := clock srv;
     list_fails := list_fails srv; info_fails := info_fails srv;
     create_fails := create_fails srv; chat_fails := chat_fails srv;
     write_fails := true |}.

Definition with_create_failure (srv : Server) : Server :=
  {| fresh_id := fresh_id srv; reply := reply srv; clock := clock srv;
     list_fails := list_fails srv; info_fails := info_fails srv;
     create_fails := true; chat_fails := chat_fails srv;
     write_fails := write_fails srv |}.

Definition with_list_failure (srv : Server) : Server :=
  {| fresh_id := fresh_id srv; reply := reply srv; clock := clock srv;
     list_fails := true; info_fails := info_fails srv;
     create_fails := create_fails srv; chat_fails := chat_fails srv;
     write_fails := write_fails srv |}.

Definition empty_store : Store := {| store_docs := []; store_next := 0 |}.

(** A source collection with one root document, and two configurations
    that differ in the ceiling only. *)
Definition one_document_store : Store :=
  {| store_docs :=
       [mkdoc "d1" "The title" "This is the body" None "src" "1000"];
     store_next := 0 |}.

Definition config_with_ceiling (ceiling : option Js.number) : Config :=
  {| sourceCollectionId := "src"; targetCollectionId := "dst";
     maxSpendingUsd := ceiling; batchSize := None; dryRun := false |}.

(** Two documents that name each other as parent, and one that names
    itself. *)
Definition mutual_documents : list OutlineDocument :=
  [ mkdoc "A" "Lore" "" (Some "B") "src" "1000";
    mkdoc "B" "Characters" "" (Some "A") "src" "1000" ].

Definition selfparent_documents : list OutlineDocument :=
  [ mkdoc "A" "Lore" "" (Some "A") "src" "1000" ].

(** The scenario of the specification: [A], [B] under [A], [C] under [B]. *)
Definition lore_documents : list OutlineDocument :=
  [ mkdoc "A" "Lore" "" None "src" "1000";
    mkdoc "B" "Characters" "" (Some "A") "src" "1000";
    mkdoc "C" "Arthur" "Once" (Some "B") "src" "1000" ].

Definition lore_rank (i : string) : nat :=
  if decide (i = "A") then 0 else if decide (i = "B") then 1 else 2.

(** The state [main] is in when its loop starts on the one-document
    collection. *)
Definition one_document_state : State Store :=
  (@buildHierarchy Store (store_docs one_document_store)
     (initial_state Missing one_document_store)).2.

(** The scenario with a second leaf [D] under [B]. *)
Definition lore_documents_with_D : list OutlineDocument :=
  lore_documents ++ [ mkdoc "D" "Merlin" "Twice" (Some "B") "src" "1000" ].

(** Two sibling folders with the same title, each with one leaf. *)
Definition sibling_documents : list OutlineDocument :=
  [ mkdoc "R" "The lore" "" None "src" "1000";
    mkdoc "A1" "The notes" "" (Some "R") "src" "1000";
    mkdoc "A2" "The notes" "" (Some "R") "src" "1000";
    mkdoc "L1" "The first" "One" (Some "A1") "src" "1000";
    mkdoc "L2" "The second" "Two" (Some "A2") "src" "1000" ].

(** The state once the hierarchy of [docs] is built, with an empty ledger,
    an empty cache and an empty destination. *)
Definition built_state (docs : list OutlineDocument) : State Store :=
  (@buildHierarchy Store docs (initial_state Missing empty_store)).2.

(* ===================================================================== *)
(** ** More example data *)
(* ===================================================================== *)

(** A dry run over the same collections. *)
Definition dry_run_config : Config :=
  {| sourceCollectionId := "src"; targetCollectionId := "dst";
     maxSpendingUsd := None; batchSize := None; dryRun := true |}.

(** An endpoint that serves the documents it holds by pages, whatever the
    collection asked for, and logs the offsets it is asked for. *)
Definition paging_endpoint (held : list OutlineDocument)
    : OutlineClient.Endpoint (list nat) :=
  {| OutlineClient.documents_list := fun _ offset limit log =>
       (Ok (take limit (drop offset held)), log ++ [offset]) |}.

(** A collection of [n] copies of one document. *)
Definition copies (n : nat) : list OutlineDocument :=
  replicate n (mkdoc "d" "The title" "This is the body" None "src" "1000").

(** An endpoint that answers every request with the same hundred
    documents. *)
Definition stuck_endpoint : OutlineClient.Endpoint unit :=
  {| OutlineClient.documents_list := fun _ _ _ w => (Ok (copies 100), w) |}.

(** Parsers for the examples: a string of decimal digits is read as the
    integer it writes, anything else is not a number. *)
Definition example_parsers : JsLib.Parsers :=
  {| JsLib.parseFloat := fun s =>
       match s with
       | EmptyString => Js.NaN
       | _ => match decimal_value 0 s with
              | Some z => Js.Fin (inject_Z z)
              | None => Js.NaN
              end
       end;
     JsLib.parseInt := fun s =>
       match s with
       | EmptyString => None
       | _ => decimal_value 0 s
       end |}.

(** An environment with the five required variables, a dry-run flag in
    capitals and a ceiling that is not a number. *)
Definition example_env : gmap string string :=
  {[ "OPENAI_API_KEY" := "sk-1";
     "OUTLINE_API_KEY" := "ol-1";
     "OUTLINE_API_URL" := "https://wiki.example.com/api/";
     "SOURCE_COLLECTION_ID" := "src";
     "TARGET_COLLECTION_ID" := "dst";
     "DRY_RUN" := "TRUE";
     "MAX_SPENDING_USD" := "ten" ]}.

(** A server whose translation engine rejects every request, and a
    platform on which no text counts as English. *)
Definition with_chat_failure (srv : Server) : Server :=
  {| fresh_id := fresh_id srv; reply := reply srv; clock := clock srv;
     list_fails := list_fails srv; info_fails := info_fails srv;
     create_fails := create_fails srv; chat_fails := true;
     write_fails := write_fails srv |}.

Definition foreign_runtime : Js.Runtime :=
  {| Js.date_value := Js.date_value (Runtime := example_runtime);
     Js.trim := fun s => s;
     Js.isAlreadyInEnglish := fun _ => false |}.

(* ===================================================================== *)
(** ** Notions used to state the properties *)
(* ===================================================================== *)

(** The node the first pass of [buildHierarchy] allocates. *)
Definition fresh_node (doc : OutlineDocument) : DocumentNode :=
  {| document := doc; children := []; parent := None |}.

(** The index the first pass builds: the [k]-th document is entered at
    address [a + k], later entries replacing earlier ones. *)
Fixpoint index_docs (a : nat) (docs : list OutlineDocument)
    (m : gmap string nat) : gmap string nat :=
  match docs with
  | [] => m
  | doc :: rest => index_docs (S a) rest (<[id doc := a]> m)
  end.

(** The parent reference of the node at address [a]. *)
Definition parent_of (h : list DocumentNode) (a : nat) : option nat :=
  h !! a ≫= parent.

(** [b] is the parent of [a]. *)
Definition child_of (h : list DocumentNode) (a b : nat) : Prop :=
  parent_of h a = Some b.

(** A root-first chain of nodes: the first has no parent, and each later
    one has its predecessor as parent. *)
Fixpoint chain_from (h : list DocumentNode) (prev : option nat)
    (p : list nat) : Prop :=
  match p with
  | [] => True
  | a :: rest => parent_of h a = prev /\ chain_from h (Some a) rest
  end.

(** Some document of the input carries the identifier. *)
Definition known (docs : list OutlineDocument) (i : string) : Prop :=
  exists doc, doc ∈ docs /\ id doc = i.

(** The declared parent of a document, when the second pass of
    [buildHierarchy] takes it into account: truthy and known. *)
Definition declared_parent (docs : list OutlineDocument)
    (doc : OutlineDocument) (p : string) : Prop :=
  parentDocumentId doc = Some p /\ Js.truthy_string p = true /\ known docs p.

(** The declared parent pointers are acyclic: identifiers can be ranked so
    that every declared parent ranks below its child. *)
Definition acyclic_input (docs : list OutlineDocument) (rank : string -> nat)
    : Prop :=
  forall doc p, doc ∈ docs -> declared_parent docs doc p -> rank p < rank (id doc).

(** What holds of the heap throughout the second pass over [docs], whose
    index is [dm]: the node at address [a] still wraps the [a]-th document,
    and a parent reference is only ever set on the node indexed under its
    own id, to the node indexed under a declared parent id of a document
    with that id. *)
Definition linked_heap (docs : list OutlineDocument) (dm : gmap string nat)
    (h : list DocumentNode) : Prop :=
  length h = length docs
  /\ (forall a n, h !! a = Some n -> docs !! a = Some (document n))
  /\ (forall a n pa,
        h !! a = Some n -> parent n = Some pa ->
        dm !! id (document n) = Some a
        /\ exists doc p,
             doc ∈ docs /\ id doc = id (document n)
             /\ parentDocumentId doc = Some p /\ Js.truthy_string p = true
             /\ dm !! p = Some pa).

(** The hierarchy of a state is the one a fresh [DocumentHierarchy] builds
    from [docs]. *)
Definition hierarchy_of {W} (docs : list OutlineDocument) (st : State W)
    : Prop :=
  sourceHierarchy st = index_docs 0 docs ∅
  /\ linked_heap docs (sourceHierarchy st) (heap st).

(** The identifier wrapped by the node at an address. *)
Definition node_id (h : list DocumentNode) (a : nat) : option string :=
  (fun n => id (document n)) <$> h !! a.

(** [st'] is [st] except, possibly, for the ledger entries of the
    identifiers in [touched], the cache and the collaborators: the
    hierarchy is the same, every other ledger entry is the same, and the
    file is either untouched or holds a record with those same entries. *)
Definition ledger_kept {W} (touched : string -> Prop) (st st' : State W)
    : Prop :=
  heap st' = heap st
  /\ sourceHierarchy st' = sourceHierarchy st
  /\ (forall k, ~ touched k -> translations st' !! k = translations st !! k)
  /\ (file st' = file st
      \/ exists r, file st' = Stored r
                   /\ forall k, ~ touched k -> r !! k = translations st !! k).

(** Every run of [m] relates its initial and final states by [R]. *)
Definition preserves {W A} (R : State W -> State W -> Prop) (m : M W A)
    : Prop :=
  forall st r st', m st = (r, st') -> R st st'.

(** The node at address [a] is the one indexed under its own identifier. *)
Definition canonical_node (dm : gmap string nat) (h : list DocumentNode)
    (a : nat) : Prop :=
  exists n, h !! a = Some n /\ dm !! id (document n) = Some a.

(** *** Folder resolution against a server that never fails *)

Definition reliable_server (fresh : nat -> string)
    (answer : ChatRequest -> string) (time : string) : Server :=
  {| fresh_id := fresh; reply := answer; clock := time;
     list_fails := false; info_fails := false; create_fails := false;
     chat_fails := false; write_fails := false |}.

Definition reliable_remote (fresh : nat -> string)
    (answer : ChatRequest -> string) (time : string) : Remote Store :=
  server_remote (reliable_server fresh answer time).

(** The value of [translateTitle] when the engine answers [answer]. *)
Definition translated_title `{!Js.Runtime} (answer : ChatRequest -> string)
    (dry forceTranslate : bool) (title : string) : string :=
  if dry && negb forceTranslate then "[DRY RUN] Translated: " +:+ title
  else if Js.isAlreadyInEnglish title then title
  else if Js.truthy_string (Js.trim (answer (TitlePrompt title)))
       then Js.trim (answer (TitlePrompt title))
       else title.

(** [ensureFolderStructure] for each identifier of a list, in order. *)
Fixpoint ensureFolderStructures {W} `{!Remote W} `{!Js.Runtime}
    (fuel : nat) (dry : bool) (targetCollection : string)
    (forceTranslate : bool) (documentIds : list string)
    : M W (list (option string)) :=
  match documentIds with
  | [] => ret []
  | documentId :: rest =>
      p <- ensureFolderStructure fuel dry documentId targetCollection
             forceTranslate ;;
      ps <- ensureFolderStructures fuel dry targetCollection forceTranslate
              rest ;;
      ret (p :: ps)
  end.

(** Where a source folder ends up in the destination, independently of the
    processing order: at the top ([Root], for the parent of a top-level
    folder), in a destination document that was there before the run
    ([Old], known from the ledger or found by the search), or in a folder
    the run has to create ([New]), named by its translated title and the
    place of its parent. *)
Inductive Key : Type :=
| Root
| Old (x : string)
| New (t : string) (parent : Key).

#[global] Instance Key_eq_dec : EqDecision Key.
Proof. solve_decision. Defined.

Definition current_of (k : Key) : option string :=
  match k with
  | Old c => Some c
  | Root | New _ _ => None
  end.

Section Keys.
Variable translate : string -> string.
Variable ledger0 : TranslationRecord.
Variable listed0 : list OutlineDocument.

(** The place of a folder under a parent placed at [pk]. *)
Definition key_step (pk : Key) (s : OutlineDocument) : Key :=
  match ledger0 !! id s with
  | Some e => Old (translatedId e)
  | None =>
      match pk with
      | New _ _ => New (translate (title s)) pk
      | Root | Old _ =>
          match Js.find (folder_matches (translate (title s)) (current_of pk))
                  listed0 with
          | Some d => Old (id d)
          | None => New (translate (title s)) pk
          end
      end
  end.

(** The place of the last folder of a root-first chain of folders. *)
Definition path_key (chain : list OutlineDocument) : Key :=
  foldl key_step Root chain.

End Keys.

(** The position of a key among the keys of the folders created so far. *)
Fixpoint index_of (k : Key) (ks : list Key) : option nat :=
  match ks with
  | [] => None
  | k' :: rest => if decide (k = k') then Some 0 else S <$> index_of k rest
  end.

(** The destination identifier a key stands for, when the [j]-th folder
    created has the [j]-th key of [ks] and the identifier [fresh (n0 + j)]. *)
Definition resolve (fresh : nat -> string) (n0 : nat) (ks : list Key)
    (k : Key) : option string :=
  match k with
  | Root => None
  | Old c => Some c
  | New _ _ => (fun j => fresh (n0 + j)) <$> index_of k ks
  end.

(** The documents wrapped by the nodes of a path. *)
Definition path_documents (h : list DocumentNode) (p : list nat)
    : list OutlineDocument :=
  omap (fun a => document <$> h !! a) p.

(** The place of the folder with a given source identifier. *)
Definition key_of (translate : string -> string) (ledger0 : TranslationRecord)
    (listed0 : list OutlineDocument) (fuel : nat) (h : list DocumentNode)
    (sh : gmap string nat) (i : string) : Key :=
  path_key translate ledger0 listed0
    (path_documents h (default [] (getDocumentPath_on fuel h sh i))).

(** The source identifiers of the ancestors of a document. *)
Definition ancestor_ids (fuel : nat) (h : list DocumentNode)
    (sh : gmap string nat) (documentId : string) : list string :=
  omap (node_id h)
    (Js.drop_last (default [] (getDocumentPath_on fuel h sh documentId))).

(** An identifier the destination knew before the run: the target of a
    ledger entry or the identifier of a stored document. *)
Definition old_id (ledger0 : TranslationRecord)
    (stored0 : list OutlineDocument) (x : string) : Prop :=
  (exists i e, ledger0 !! i = Some e /\ translatedId e = x)
  \/ (exists d, d ∈ stored0 /\ id d = x).

(** The parts of a state the folder resolver can change or depends on; of
    the requests issued only the creations are kept. *)
Definition components (st : State Store) :=
  (translations st, file st, heap st, sourceHierarchy st, folderMappings st,
   world st, creations (calls st)).

(** The request [createFolder] sends for a source folder. *)
Definition folder_request (target : string) (sourceDoc : OutlineDocument)
    (name content : string) (currentParentId : option string)
    : OutlineDocumentCreateRequest :=
  {| req_title := name;
     req_text := content;
     req_emoji :=
       if Js.truthy_ostring (emoji sourceDoc) then emoji sourceDoc else None;
     req_collectionId := target;
     req_parentDocumentId :=
       if Js.truthy_ostring currentParentId then currentParentId else None |}.

Section ResolutionInvariant.
Variable fresh : nat -> string.
Variable translate : string -> string.
Variable target : string.
Variable fuel : nat.
Variable h0 : list DocumentNode.
Variable sh0 : gmap string nat.
Variable ledger0 : TranslationRecord.
Variable stored0 : list OutlineDocument.
Variable n0 : nat.
Variable created0 : nat.

(** The documents of the target collection among those stored at first. *)
Definition listed_of : list OutlineDocument :=
  filter (fun d => collectionId d = target) stored0.

(** A key that stands for something: the top, a known destination
    identifier, or a folder already created in this run. *)
Definition closed_key (ks : list Key) (k : Key) : Prop :=
  k = Root
  \/ (exists c, k = Old c /\ old_id ledger0 stored0 c)
  \/ (k ∈ ks /\ exists t pk, k = New t pk).

(** The invariant of a run of folder resolutions: [ks] are the keys of the
    folders created so far, [created] the documents created for them. *)
Record resolution_invariant (st : State Store) (ks : list Key)
    (created : list OutlineDocument) : Prop := {
  inv_heap : heap st = h0;
  inv_index : sourceHierarchy st = sh0;
  inv_docs : store_docs (world st) = stored0 ++ created;
  inv_next : store_next (world st) = n0 + length ks;
  inv_length : length created = length ks;
  inv_calls : length (creations (calls st)) = created0 + length ks;
  inv_nodup : NoDup ks;
  inv_created : forall j k d,
    ks !! j = Some k -> created !! j = Some d ->
    exists t pk,
      k = New t pk /\ closed_key ks pk
      /\ id d = fresh (n0 + j) /\ title d = t
      /\ parentDocumentId d = resolve fresh n0 ks pk
      /\ collectionId d = target;
  inv_mapped : forall i m,
    folderMappings st !! i = Some m ->
    let k := key_of translate ledger0 listed_of fuel h0 sh0 i in
    k <> Root /\ closed_key ks k
    /\ resolve fresh n0 ks k = targetId m;
  inv_ledger : forall i,
    folderMappings st !! i = None -> translations st !! i = ledger0 !! i;
  inv_keys : forall k,
    k ∈ ks ->
    exists i, is_Some (folderMappings st !! i)
              /\ key_of translate ledger0 listed_of fuel h0 sh0 i = k;
  inv_parent : forall i a pa,
    is_Some (folderMappings st !! i) -> sh0 !! i = Some a ->
    child_of h0 a pa ->
    exists ip, node_id h0 pa = Some ip /\ is_Some (folderMappings st !! ip);
}.

End ResolutionInvariant.

(** The source identifier of the parent folder of a source document, and
    the title of a source document, as the hierarchy has them. *)
Definition source_parent (h : list DocumentNode) (sh : gmap string nat)
    (i : string) : option string :=
  match sh !! i with
  | Some a =>
      match parent_of h a with
      | Some b => node_id h b
      | None => None
      end
  | None => None
  end.

Definition source_title (h : list DocumentNode) (sh : gmap string nat)
    (i : string) : option string :=
  match sh !! i with
  | Some a => (fun n => title (document n)) <$> h !! a
  | None => None
  end.

(** The destination mirrors the source: the folder a source folder is
    mapped to either was known before the run, or is a stored document
    that carries the translated title of the source folder and has as
    parent the folder its source parent is mapped to (none for a top-level
    source folder). *)
Definition mirrors_source (translate : string -> string)
    (ledger0 : TranslationRecord) (stored0 : list OutlineDocument)
    (st : State Store) : Prop :=
  forall i m,
    folderMappings st !! i = Some m ->
    (exists x, targetId m = Some x /\ old_id ledger0 stored0 x)
    \/ exists d,
         d ∈ store_docs (world st)
         /\ targetId m = Some (id d)
         /\ Some (title d)
            = translate <$> source_title (heap st) (sourceHierarchy st) i
         /\ parentDocumentId d
            = match source_parent (heap st) (sourceHierarchy st) i with
              | Some ip => folderMappings st !! ip ≫= targetId
              | None => None
              end.

(** The destination the parent of a source folder is mapped to (none for
    a top-level source folder). *)
Definition parent_target (st : State Store) (i : string) : option string :=
  match source_parent (heap st) (sourceHierarchy st) i with
  | Some ip => folderMappings st !! ip ≫= targetId
  | None => None
  end.

(** The ledger comes first: a source folder with a ledger entry is mapped
    to the destination the entry records. *)
Definition follows_ledger (ledger0 : TranslationRecord) (st : State Store)
    : Prop :=
  forall i m e,
    folderMappings st !! i = Some m -> ledger0 !! i = Some e ->
    targetId m = Some (translatedId e).

(** Existing folders are adopted: a source folder without a ledger entry,
    whose parent is at the top or in a destination known before the run,
    is mapped to a document stored before the run as soon as one of the
    target collection carries its translated title under that parent. *)
Definition adopts_existing (translate : string -> string)
    (ledger0 : TranslationRecord) (stored0 : list OutlineDocument)
    (target : string) (st : State Store) : Prop :=
  forall i m t,
    folderMappings st !! i = Some m -> ledger0 !! i = None ->
    source_title (heap st) (sourceHierarchy st) i = Some t ->
    parent_target st i = None
    \/ (exists x, parent_target st i = Some x /\ old_id ledger0 stored0 x) ->
    let twin (d : OutlineDocument) :=
      d ∈ stored0 /\ collectionId d = target /\ title d = translate t
      /\ parentDocumentId d = parent_target st i in
    (exists d, twin d) -> exists d, twin d /\ targetId m = Some (id d).

(** Siblings whose translated titles are equal share a destination, when
    the ledger knows neither. *)
Definition shares_siblings (translate : string -> string)
    (ledger0 : TranslationRecord) (st : State Store) : Prop :=
  forall i i' m m' t t',
    folderMappings st !! i = Some m -> folderMappings st !! i' = Some m' ->
    ledger0 !! i = None -> ledger0 !! i' = None ->
    source_parent (heap st) (sourceHierarchy st) i
      = source_parent (heap st) (sourceHierarchy st) i' ->
    source_title (heap st) (sourceHierarchy st) i = Some t ->
    source_title (heap st) (sourceHierarchy st) i' = Some t' ->
    translate t = translate t' ->
    targetId m = targetId m'.

(** What the run has created: the documents stored beyond [stored0], one
    for each creation request beyond the first [created0], with distinct
    identifiers none of which was known before, each the destination of a
    source folder. *)
Definition creates_destinations (ledger0 : TranslationRecord)
    (stored0 : list OutlineDocument) (created0 : nat) (st : State Store)
    : Prop :=
  exists created : list OutlineDocument,
    store_docs (world st) = stored0 ++ created
    /\ length (creations (calls st)) = created0 + length created
    /\ NoDup (id <$> created)
    /\ forall d, d ∈ created ->
         ~ old_id ledger0 stored0 (id d)
         /\ exists i m, folderMappings st !! i = Some m
                        /\ targetId m = Some (id d).

(* ===================================================================== *)
(** ** Notions used to state the further properties *)
(* ===================================================================== *)

(** The characters the token estimate counts in a batch, in UTF-16 code
    units. *)
Definition total_characters (documents : list OutlineDocument) : nat :=
  sum_list (contentLength <$> documents).

(** [st'] is [st] up to the requests issued and the state of the
    collaborators. *)
Definition world_only {W} (st st' : State W) : Prop :=
  exists c w, st' = set_world c w st.

(** Nothing is forgotten between [st] and [st']: the hierarchy is the same,
    every cache entry is still there unchanged, and every identifier the
    ledger had an entry for still has one. *)
Definition grows {W} (st st' : State W) : Prop :=
  heap st' = heap st
  /\ sourceHierarchy st' = sourceHierarchy st
  /\ (forall i m, folderMappings st !! i = Some m ->
                  folderMappings st' !! i = Some m)
  /\ (forall i, is_Some (translations st !! i) ->
                is_Some (translations st' !! i)).

(** Nothing is rewritten between [st] and [st']: the hierarchy is the
    same, and every cache entry and every ledger entry is still there
    unchanged. *)
Definition extends {W} (st st' : State W) : Prop :=
  heap st' = heap st
  /\ sourceHierarchy st' = sourceHierarchy st
  /\ folderMappings st ⊆ folderMappings st'
  /\ translations st ⊆ translations st'.

(** What [createFolder] and [resolveFolder] leave behind: nothing is
    rewritten, and an answer is the target of the mapping now cached for
    the folder. *)
Definition resolved {W} (sourceDoc : OutlineDocument) (st : State W)
    (r : Result (option string)) (st' : State W) : Prop :=
  extends st st'
  /\ forall next, r = Ok next ->
       exists m, folderMappings st' !! id sourceDoc = Some m
                 /\ next = targetId m.

(** The parent identifier the cache alone gives for a path of folders:
    the target of the mapping of its last folder. *)
Definition cached_parent (mappings : gmap string FolderMapping)
    (h : list DocumentNode) (folderPath : list nat) (cur : option string)
    : option string :=
  foldl (fun cur a =>
           match h !! a with
           | Some folderNode =>
               match mappings !! id (document folderNode) with
               | Some m => targetId m
               | None => cur
               end
           | None => cur
           end) cur folderPath.

(** Every folder of a path has a mapping in the cache. *)
Definition all_cached (mappings : gmap string FolderMapping)
    (h : list DocumentNode) (folderPath : list nat) : Prop :=
  forall a folderNode,
    a ∈ folderPath -> h !! a = Some folderNode ->
    is_Some (mappings !! id (document folderNode)).

(** The documents the counters account for. *)
Definition processed (stats : TranslationStats) : nat :=
  translated stats + skipped stats + errors stats.

(** [stats] with [n] more documents skipped. *)
Definition skip_more (n : nat) (stats : TranslationStats) : TranslationStats :=
  {| total := total stats; translated := translated stats;
     skipped := skipped stats + n; errors := errors stats |}.

(** The collaborators always answer: no request stays pending. *)
Definition responsive (W : Type) `{!Remote W} : Prop :=
  (forall c w, (getDocumentsByCollection_remote c w).1 <> Hang)
  /\ (forall i w, (getDocumentInfo_remote i w).1 <> Hang)
  /\ (forall r w, (createDocument_remote r w).1 <> Hang)
  /\ (forall r w, (chat_remote r w).1 <> Hang)
  /\ (forall t w, (writeFileSync_remote t w).1 <> Hang).

(** From a state that satisfies [I], the computation [m] comes to an end,
    with a value or an exception, in a state that satisfies [I]. *)
Definition steady {W A} (I : State W -> Prop) (m : M W A) : Prop :=
  forall st, I st -> (m st).1 <> Hang /\ I (m st).2.

(** Between [st] and [st'] the run has only loaded the ledger and listed
    one collection. *)
Definition only_listed {W} (collection : string) (st st' : State W) : Prop :=
  calls st' = calls st ++ [CallList collection]
  /\ file st' = file st
  /\ translations st' = loadTranslations (file st)
  /\ folderMappings st' = ∅.

(** The variables [getConfig] insists on, in the order it checks them. *)
Definition required_variables : list string :=
  [ "OPENAI_API_KEY"; "OUTLINE_API_KEY"; "OUTLINE_API_URL";
    "SOURCE_COLLECTION_ID"; "TARGET_COLLECTION_ID" ].

(** The variable is unset or set to the empty string. *)
Definition blank (env : gmap string string) (name : string) : bool :=
  negb (Js.truthy_ostring (env !! name)).

(** The nodes [calculateStats] counts, each with the depth it is counted
    at, in the order of the traversal; [None] when the calls nest deeper
    than [stack]. *)
Fixpoint visited (stack : nat) (h : list DocumentNode) (nodes : list nat)
    (depth : nat) : option (list (nat * nat)) :=
  match stack with
  | O => None
  | S stack' =>
      foldr
        (fun a rest =>
           below ←
             match h !! a with
             | Some node =>
                 if bool_decide (0 < length (children node))
                 then visited stack' h (children node) (S depth)
                 else Some []
             | None => Some []
             end;
           l ← rest;
           Some ((a, depth) :: below ++ l))
        (Some []) nodes
  end.

(** [p] is the path the loop of [getDocumentPath] builds from the node
    [a], when it is given the time. *)
Definition has_path (h : list DocumentNode) (a : nat) (p : list nat) : Prop :=
  exists fuel, path_loop fuel h (Some a) [] = Some p.

(** The nodes from which the parent references lead to a root. *)
Definition rooted (h : list DocumentNode) (a : nat) : Prop :=
  is_Some (path_loop (length h) h (Some a) []).

(** The node [a] is counted at depth [k] under one of [nodes], which sit
    at depth [d]: its path has [k + 1] nodes, the one at position [d]
    being among [nodes]. *)
Definition counted_under (h : list DocumentNode) (nodes : list nat)
    (d : nat) (a k : nat) : Prop :=
  exists p, has_path h a p /\ length p = S k
            /\ exists b, b ∈ nodes /\ p !! d = Some b.

#[global] Instance rooted_dec (h : list DocumentNode) (a : nat) :
  Decision (rooted h a).
Proof. unfold rooted. apply _. Defined.

(** The recorded translation time of an entry is a valid date. *)
Definition valid_time `{!Js.Runtime} (entry : TranslatedDocument) : Prop :=
  exists t, translation_time entry = Js.Fin t.

(** The entry [a] was not recorded after [b]. *)
Definition not_after `{!Js.Runtime} (a b : TranslatedDocument) : Prop :=
  forall ta tb,
    translation_time a = Js.Fin ta -> translation_time b = Js.Fin tb ->
    (ta <= tb)%Q.

(* ===================================================================== *)
(** * Properties *)
(* ===================================================================== *)

(** ** Numbers *)

Lemma gt_Fin (x y : Q) : Js.gt (Js.Fin x) (Js.Fin y) = true <-> (y < x)%Q.
Proof.
  simpl. destruct (Qlt_le_dec y x) as [Hlt | Hle].
  - split; [intros _; exact Hlt | reflexivity].
  - split; [discriminate |].
    intros Hlt. exfalso. exact (Qlt_not_le _ _ Hlt Hle).
Qed.

Lemma gt_Fin_false (x y : Q) :
  Js.gt (Js.Fin x) (Js.Fin y) = false <-> (x <= y)%Q.
Proof.
  simpl. destruct (Qlt_le_dec y x) as [Hlt | Hle].
  - split; [discriminate |].
    intros Hle. exfalso. exact (Qlt_not_le _ _ Hlt Hle).
  - split; [intros _; exact Hle | reflexivity].
Qed.

Lemma truthy_zero (q : Q) : (q == 0)%Q -> Js.truthy_number (Js.Fin q) = false.
Proof.
  intros Hq. simpl. apply negb_false_iff. apply Qeq_bool_iff. exact Hq.
Qed.

Lemma gt_NaN_r (a : Js.number) : Js.gt a Js.NaN = false.
Proof. destruct a; reflexivity. Qed.

(** ** Lookups in a record *)

Lemma has_property_own (record : TranslationRecord) (key : string)
    (entry : TranslatedDocument) :
  record !! key = Some entry -> has_property record key = true.
Proof.
  intros Hl. unfold has_property. rewrite bool_decide_eq_true_2 by eauto.
  reflexivity.
Qed.

Lemma has_property_inherited (record : TranslationRecord) (key : string) :
  Js.inherited key = true -> has_property record key = true.
Proof. intros Hi. unfold has_property. rewrite Hi. apply orb_true_r. Qed.

Lemma has_property_false (record : TranslationRecord) (key : string) :
  has_property record key = false
  <-> record !! key = None /\ Js.inherited key = false.
Proof.
  unfold has_property. rewrite orb_false_iff, bool_decide_eq_false.
  rewrite <- eq_None_not_Some. reflexivity.
Qed.

Lemma get_property_own (record : TranslationRecord) (key : string)
    (entry : TranslatedDocument) :
  record !! key = Some entry -> get_property record key = Some (Entry entry).
Proof. intros Hl. unfold get_property. rewrite Hl. reflexivity. Qed.

Lemma get_property_None (record : TranslationRecord) (key : string) :
  record !! key = None -> Js.inherited key = false ->
  get_property record key = None.
Proof. intros Hl Hi. unfold get_property. rewrite Hl, Hi. reflexivity. Qed.

Lemma inherited_proto : Js.inherited "__proto__" = true.
Proof. reflexivity. Qed.

Lemma set_property_insert (key : string) (entry : TranslatedDocument)
    (record : TranslationRecord) :
  key <> "__proto__" \/ is_Some (record !! key) ->
  set_property key entry record = <[key := entry]> record.
Proof.
  intros Hk. unfold set_property.
  destruct (bool_decide (key = "__proto__")) eqn:Hp; [| reflexivity].
  apply bool_decide_eq_true in Hp.
  destruct Hk as [Hne | [x Hx]]; [contradiction |].
  rewrite bool_decide_eq_false_2 by (rewrite Hx; discriminate). reflexivity.
Qed.

Lemma set_property_ordinary (key : string) (entry : TranslatedDocument)
    (record : TranslationRecord) :
  Js.inherited key = false ->
  set_property key entry record = <[key := entry]> record.
Proof.
  intros Hi. apply set_property_insert. left. intros ->. discriminate.
Qed.

Lemma set_property_proto (entry : TranslatedDocument)
    (record : TranslationRecord) :
  record !! "__proto__" = None ->
  set_property "__proto__" entry record = record.
Proof.
  intros Hl. unfold set_property.
  rewrite bool_decide_eq_true_2 by reflexivity.
  rewrite bool_decide_eq_true_2 by exact Hl. reflexivity.
Qed.

Lemma set_property_cases (key : string) (entry : TranslatedDocument)
    (record : TranslationRecord) :
  set_property key entry record = <[key := entry]> record
  \/ (key = "__proto__" /\ record !! key = None
      /\ set_property key entry record = record).
Proof.
  unfold set_property.
  destruct (bool_decide (key = "__proto__")) eqn:Hp; [| left; reflexivity].
  destruct (bool_decide (record !! key = None)) eqn:Hn; [| left; reflexivity].
  right. apply bool_decide_eq_true in Hp, Hn. auto.
Qed.

Lemma set_property_other (key k : string) (entry : TranslatedDocument)
    (record : TranslationRecord) :
  k <> key -> set_property key entry record !! k = record !! k.
Proof.
  intros Hk. destruct (set_property_cases key entry record)
    as [-> | (_ & _ & ->)]; [| reflexivity].
  apply lookup_insert_ne. congruence.
Qed.

Lemma set_property_kept (key k : string) (entry : TranslatedDocument)
    (record : TranslationRecord) :
  is_Some (record !! k) -> is_Some (set_property key entry record !! k).
Proof.
  intros Hk. destruct (set_property_cases key entry record)
    as [-> | (_ & _ & ->)]; [| exact Hk].
  destruct (decide (key = k)) as [-> | Hne].
  - rewrite lookup_insert_eq. eauto.
  - rewrite lookup_insert_ne by exact Hne. exact Hk.
Qed.

Lemma set_property_extends (key : string) (entry : TranslatedDocument)
    (record : TranslationRecord) :
  record !! key = None -> record ⊆ set_property key entry record.
Proof.
  intros Hl. destruct (set_property_cases key entry record)
    as [-> | (_ & _ & ->)]; [| reflexivity].
  apply insert_subseteq. exact Hl.
Qed.

(** ** The budget gate on a zero ceiling *)

(** C9.  A ceiling of exactly zero is read as "no limit": whatever the
    estimated cost, [confirmCostWithUser] and [checkSpendingLimit] both
    pass, because the ceiling is tested for truthiness before it is
    compared. *)
Theorem zero_ceiling_means_no_limit :
  forall (estimate : CostEstimate) (cost : Js.number) (ceiling : Q),
    (ceiling == 0)%Q ->
    confirmCostWithUser estimate (Some (Js.Fin ceiling)) = true
    /\ checkSpendingLimit cost (Some (Js.Fin ceiling)) = true.
Proof.
  intros estimate cost ceiling Hz.
  unfold confirmCostWithUser, checkSpendingLimit, Js.truthy_onumber.
  rewrite (truthy_zero _ Hz). split; reflexivity.
Qed.

Lemma zero_ceiling_means_no_limit_witness :
  (0 == 0)%Q
  /\ confirmCostWithUser
       {| totalDocuments := 3; estimatedCostUsd := Js.Fin (3 # 2) |}
       (Some (Js.Fin 0)) = true
  /\ checkSpendingLimit (Js.Fin (3 # 2)) (Some (Js.Fin 0)) = true.
Proof.
  split; [reflexivity |].
  apply (zero_ceiling_means_no_limit
           {| totalDocuments := 3; estimatedCostUsd := Js.Fin (3 # 2) |}
           (Js.Fin (3 # 2)) 0).
  reflexivity.
Defined.

(** ** The ledger *)

Section LedgerProperties.
Context {W : Type} `{!Remote W} `{!Js.Runtime}.

(** C3.  [needsUpdate] is false for a document without a ledger entry; for
    a document with an entry and valid dates it is true exactly when the
    document was modified strictly after the recorded translation time, and
    false when it was modified at or before it. *)
Theorem needsUpdate_spec :
  forall (tr : TranslationRecord) (doc : OutlineDocument),
    (tr !! id doc = None -> needsUpdate tr doc = false)
    /\ (forall (entry : TranslatedDocument) (modified translatedTime : Q),
          tr !! id doc = Some entry ->
          Js.date_value (updatedAt doc) = Js.Fin modified ->
          Js.date_value (translatedAt entry) = Js.Fin translatedTime ->
          (needsUpdate tr doc = true <-> (translatedTime < modified)%Q)
          /\ ((modified <= translatedTime)%Q -> needsUpdate tr doc = false)).
Proof.
  intros tr doc. unfold needsUpdate, getTranslatedDocument, get_property.
  split.
  - intros ->. destruct (Js.inherited (id doc)); [| reflexivity].
    apply gt_NaN_r.
  - intros entry modified translatedTime -> Hm Ht. cbn. rewrite Hm, Ht.
    split.
    + apply gt_Fin.
    + apply gt_Fin_false.
Qed.

End LedgerProperties.

Lemma needsUpdate_spec_witness :
  let H := example_runtime in
  let tr : TranslationRecord := {[ "d1" := mkentry "d1" "t1" "2000" ]} in
  let doc := mkdoc "d1" "The title" "This is the body" None "src" "3000" in
  needsUpdate tr doc = true.
Proof.
  intros H tr doc.
  apply (proj2 (needsUpdate_spec tr doc) (mkentry "d1" "t1" "2000")
           (inject_Z 3000) (inject_Z 2000)); reflexivity.
Defined.

Section PersistenceProperties.
Context {W : Type} `{!Remote W} `{!Js.Runtime}.

Lemma saveTranslations_run (st : State W) :
  saveTranslations st =
  match writeFileSync_remote (translations st) (world st) with
  | (Ok _, w) =>
      (Ok tt,
       set_file (Stored (translations st))
         (set_world (calls st ++ [CallWriteFile (translations st)]) w st))
  | (Throw e, w) =>
      (Throw e, set_world (calls st ++ [CallWriteFile (translations st)]) w st)
  | (Hang, w) =>
      (Hang, set_world (calls st ++ [CallWriteFile (translations st)]) w st)
  end.
Proof.
  unfold saveTranslations, bind, gets, try_catch, request, modify, throw.
  simpl. destruct (writeFileSync_remote (translations st) (world st))
    as [[[] | e | ] w]; reflexivity.
Qed.

Lemma addTranslation_run (originalDoc translatedDoc : OutlineDocument)
    (st : State W) :
  addTranslation originalDoc translatedDoc st =
  let '(stamp, w1) := now_remote (world st) in
  let tr :=
    set_property (id originalDoc)
      (ledger_entry originalDoc translatedDoc stamp) (translations st) in
  let st1 := set_translations (fun _ => tr) (set_world (calls st) w1 st) in
  match writeFileSync_remote tr w1 with
  | (Ok _, w) =>
      (Ok tt,
       set_file (Stored tr) (set_world (calls st ++ [CallWriteFile tr]) w st1))
  | (Throw e, w) => (Throw e, set_world (calls st ++ [CallWriteFile tr]) w st1)
  | (Hang, w) => (Hang, set_world (calls st ++ [CallWriteFile tr]) w st1)
  end.
Proof.
  unfold addTranslation, bind, modify. simpl.
  destruct (now_remote (world st)) as [stamp w1]. simpl.
  rewrite saveTranslations_run. simpl.
  destruct (writeFileSync_remote _ w1) as [[[] | e | ] w]; reflexivity.
Qed.

Lemma removeTranslation_run (documentId : string) (st : State W) :
  removeTranslation documentId st =
  if has_property (translations st) documentId then
    let tr := delete documentId (translations st) in
    let st1 := set_translations (fun _ => tr) st in
    match writeFileSync_remote tr (world st) with
    | (Ok _, w) =>
        (Ok tt,
         set_file (Stored tr) (set_world (calls st ++ [CallWriteFile tr]) w st1))
    | (Throw e, w) =>
        (Throw e, set_world (calls st ++ [CallWriteFile tr]) w st1)
    | (Hang, w) => (Hang, set_world (calls st ++ [CallWriteFile tr]) w st1)
    end
  else (Ok tt, st).
Proof.
  unfold removeTranslation, bind, gets, isDocumentTranslated. simpl.
  destruct (has_property (translations st) documentId); [| reflexivity].
  unfold modify. simpl. rewrite saveTranslations_run. simpl.
  destruct (writeFileSync_remote _ (world st)) as [[[] | e | ] w];
    reflexivity.
Qed.


End PersistenceProperties.



(** A key the ledger only inherits counts as present: on an empty ledger
    [removeTranslation] of [constructor] goes through the deletion and
    writes the file, and a document with that identifier reads as
    translated and up to date. *)
Example inherited_key_examples :
  let R := server_remote example_server in
  let H := example_runtime in
  let st := initial_state Missing empty_store in
  let d := mkdoc "constructor" "The title" "This is the body" None "src"
             "1000" in
  let run := @removeTranslation Store R "constructor" st in
  fst run = Ok tt
  /\ calls (snd run) = [CallWriteFile ∅]
  /\ file (snd run) = Stored ∅
  /\ isDocumentTranslated ∅ "constructor" = true
  /\ getTranslatedDocument ∅ "constructor" = Some Builtin
  /\ needsUpdate ∅ d = false.
Proof. vm_compute. repeat split; reflexivity. Qed.

(** Lengths are counted in UTF-16 code units: one for a character of the
    basic plane, whatever the number of its bytes, and two beyond; a cut
    inside a surrogate pair keeps the high surrogate. *)
Example length_examples :
  Js.length "abc" = 3
  /\ Js.length (String "195" (String "169" "")) = 1
  /\ Js.length (String "226" (String "130" (String "172" ""))) = 1
  /\ Js.length
       (String "240" (String "159" (String "152" (String "128" "")))) = 2
  /\ Js.substring0 2 (String "195" (String "169" "bc"))
     = String "195" (String "169" "b")
  /\ Js.substring0 2
       (String "a"
          (String "240" (String "159" (String "152" (String "128" "b")))))
     = String "a" (String "237" (String "160" (String "189" ""))).
Proof. vm_compute. repeat split; reflexivity. Qed.

(** ** The hierarchy builder *)

(** *** First pass *)

Lemma first_pass_fold (docs : list OutlineDocument) (h : list DocumentNode)
    (dm sh : gmap string nat) :
  foldl first_pass_step (h, dm, sh) docs
  = (h ++ map fresh_node docs, index_docs (length h) docs dm,
     index_docs (length h) docs sh).
Proof.
  revert h dm sh. induction docs as [| doc docs IH]; intros h dm sh; simpl.
  - rewrite app_nil_r. reflexivity.
  - rewrite IH. rewrite length_app. simpl.
    replace (length h + 1) with (S (length h)) by lia.
    rewrite <- app_assoc. reflexivity.
Qed.

Lemma index_docs_lookup (docs : list OutlineDocument) (a : nat)
    (m : gmap string nat) (i : string) (x : nat) :
  index_docs a docs m !! i = Some x ->
  (m !! i = Some x /\ forall doc, doc ∈ docs -> id doc <> i)
  \/ (exists k doc, docs !! k = Some doc /\ id doc = i /\ x = a + k
        /\ forall k' doc', k < k' -> docs !! k' = Some doc' -> id doc' <> i).
Proof.
  revert a m. induction docs as [| doc docs IH]; intros a m; simpl.
  - intros Hm. left. split; [exact Hm |]. intros doc Hdoc. inversion Hdoc.
  - intros Hl. destruct (IH _ _ Hl) as [[Hm Hno] | (k & d & Hk & Hid & Hx & Hlast)].
    + destruct (decide (id doc = i)) as [Heq | Hne].
      * right. exists 0, doc. rewrite Heq, lookup_insert_eq in Hm.
        injection Hm as <-. split; [reflexivity |]. split; [exact Heq |].
        split; [lia |]. intros [| k'] doc' Hk' Hd'; [lia |].
        simpl in Hd'. apply Hno. apply list_elem_of_lookup. eauto.
      * left. rewrite lookup_insert_ne in Hm by exact Hne.
        split; [exact Hm |]. intros doc' Hd'.
        inversion Hd'; subst; [exact Hne | auto].
    + right. exists (S k), d. split; [exact Hk |]. split; [exact Hid |].
      split; [lia |]. intros [| k'] doc' Hk' Hd'; [lia |].
      simpl in Hd'. apply (Hlast k' doc'); [lia | exact Hd'].
Qed.

Lemma index_docs_keeps (docs : list OutlineDocument) (a : nat)
    (m : gmap string nat) (i : string) :
  is_Some (m !! i) -> is_Some (index_docs a docs m !! i).
Proof.
  revert a m. induction docs as [| d docs IH]; intros a m Hs; [exact Hs |].
  simpl. apply IH. destruct (decide (id d = i)) as [-> | Hne].
  - rewrite lookup_insert_eq. eauto.
  - rewrite lookup_insert_ne by exact Hne. exact Hs.
Qed.

Lemma index_docs_known (docs : list OutlineDocument) (a : nat)
    (m : gmap string nat) (doc : OutlineDocument) :
  doc ∈ docs -> is_Some (index_docs a docs m !! id doc).
Proof.
  revert a m. induction docs as [| d docs IH]; intros a m Hin.
  - inversion Hin.
  - simpl. inversion Hin; subst.
    + apply index_docs_keeps. rewrite lookup_insert_eq. eauto.
    + apply IH. assumption.
Qed.

Section FreshIndex.
Variable docs : list OutlineDocument.
Let dm := index_docs 0 docs ∅.

Lemma dm_lookup (i : string) (a : nat) :
  dm !! i = Some a -> exists doc, docs !! a = Some doc /\ id doc = i.
Proof.
  intros Hl. apply index_docs_lookup in Hl as [[He _] | (k & doc & Hk & Hid & -> & _)].
  - rewrite lookup_empty in He. discriminate.
  - exists doc. split; [exact Hk | exact Hid].
Qed.

Lemma dm_last (i : string) (a : nat) :
  dm !! i = Some a ->
  forall k doc, a < k -> docs !! k = Some doc -> id doc <> i.
Proof.
  intros Hl. apply index_docs_lookup in Hl as [[He _] | (k & doc & Hk & Hid & -> & Hlast)].
  - rewrite lookup_empty in He. discriminate.
  - exact Hlast.
Qed.

Lemma dm_known (i : string) : known docs i <-> is_Some (dm !! i).
Proof.
  split.
  - intros (doc & Hin & <-). apply index_docs_known, Hin.
  - intros [a Ha]. destruct (dm_lookup _ _ Ha) as (doc & Hk & Hid).
    exists doc. split; [apply list_elem_of_lookup; eauto | exact Hid].
Qed.

Lemma dm_injective (a b : nat) (da db : OutlineDocument) :
  docs !! a = Some da -> docs !! b = Some db ->
  dm !! id da = Some a -> dm !! id db = Some b ->
  id da = id db -> a = b.
Proof. intros _ _ Ha Hb Heq. rewrite Heq in Ha. congruence. Qed.

(** *** Second pass *)

Lemma update_node_lookup (a b : nat) (f : DocumentNode -> DocumentNode)
    (h : list DocumentNode) :
  update_node a f h !! b = if decide (a = b) then f <$> h !! b else h !! b.
Proof.
  unfold update_node. destruct (h !! a) as [n |] eqn:Ha.
  - destruct (decide (a = b)) as [<- | Hne].
    + rewrite list_lookup_insert_eq by (eapply lookup_lt_Some; eauto).
      rewrite Ha. reflexivity.
    + apply list_lookup_insert_ne. exact Hne.
  - destruct (decide (a = b)) as [<- | Hne]; [rewrite Ha |]; reflexivity.
Qed.

Lemma update_node_length (a : nat) (f : DocumentNode -> DocumentNode)
    (h : list DocumentNode) :
  length (update_node a f h) = length h.
Proof.
  unfold update_node. destruct (h !! a); [apply length_insert | reflexivity].
Qed.

Lemma linked_heap_start : linked_heap docs dm (map fresh_node docs).
Proof.
  split; [apply length_map |]. split.
  - intros a n Hn. rewrite list_lookup_fmap in Hn.
    destruct (docs !! a) as [doc |]; [| discriminate].
    injection Hn as <-. reflexivity.
  - intros a n pa Hn Hp. rewrite list_lookup_fmap in Hn.
    destruct (docs !! a) as [doc |]; [| discriminate].
    injection Hn as <-. discriminate.
Qed.

Lemma second_pass_step_linked (h : list DocumentNode) (roots : list nat)
    (doc : OutlineDocument) :
  doc ∈ docs -> linked_heap docs dm h ->
  linked_heap docs dm (second_pass_step dm (h, roots) doc).1.
Proof.
  intros Hin Hinv. unfold second_pass_step.
  destruct (dm !! id doc) as [a |] eqn:Ha; [| exact Hinv].
  destruct (parentDocumentId doc) as [p |] eqn:Hp; simpl; [| exact Hinv].
  destruct (Js.truthy_string p) eqn:Htp; [| exact Hinv].
  destruct (dm !! p) as [pa |] eqn:Hpa; [| exact Hinv]. simpl.
  destruct Hinv as (Hlen & Hdoc & Hpar).
  split; [by rewrite !update_node_length |]. split.
  - intros b n. rewrite !update_node_lookup.
    intros Hn. repeat case_decide; subst;
      repeat match goal with
      | H : _ <$> ?o = Some _ |- _ =>
          let E := fresh "E" in destruct o eqn:E; simplify_eq/=
      end; eauto.
  - intros b n pb. rewrite !update_node_lookup. intros Hn Hparent.
    assert (Hcase : (b = a /\ pb = pa /\ exists n0, h !! a = Some n0
                       /\ document n = document n0)
                    \/ (exists n0, h !! b = Some n0
                          /\ document n = document n0
                          /\ parent n0 = Some pb)).
    { repeat case_decide; subst;
        repeat match goal with
        | H : _ <$> ?o = Some _ |- _ =>
            let E := fresh "E" in destruct o eqn:E; simplify_eq/=
        end; eauto 10. }
    destruct Hcase as [(-> & -> & n0 & Hn0 & Hd) | (n0 & Hn0 & Hd & Hp0)].
    + rewrite Hd. apply Hdoc in Hn0.
      destruct (dm_lookup _ _ Ha) as (doc' & Hk & Hid).
      assert (doc' = document n0) by congruence. subst doc'.
      rewrite Hid. split; [exact Ha |].
      exists doc, p. repeat split; auto.
    + rewrite Hd. eapply Hpar; eauto.
Qed.

Lemma second_pass_linked (l : list OutlineDocument) (h : list DocumentNode)
    (roots : list nat) :
  (forall doc, doc ∈ l -> doc ∈ docs) -> linked_heap docs dm h ->
  linked_heap docs dm (foldl (second_pass_step dm) (h, roots) l).1.
Proof.
  revert h roots. induction l as [| doc l IH]; intros h roots Hsub Hinv.
  - exact Hinv.
  - cbn [foldl].
    destruct (second_pass_step dm (h, roots) doc) as [h' roots'] eqn:Hs.
    apply IH.
    + intros d Hd. apply Hsub. right. exact Hd.
    + replace h' with (second_pass_step dm (h, roots) doc).1
        by (rewrite Hs; reflexivity).
      apply second_pass_step_linked; [| exact Hinv]. apply Hsub. left.
Qed.

Lemma second_pass_roots_grow (l : list OutlineDocument)
    (h : list DocumentNode) (roots : list nat) (a : nat) :
  a ∈ roots -> a ∈ (foldl (second_pass_step dm) (h, roots) l).2.
Proof.
  revert h roots. induction l as [| doc l IH]; intros h roots Ha; [exact Ha |].
  cbn [foldl].
  destruct (second_pass_step dm (h, roots) doc) as [h' roots'] eqn:Hs.
  apply IH. unfold second_pass_step in Hs.
  repeat match type of Hs with
         | context [match ?x with _ => _ end] => destruct x
         | context [if ?x then _ else _] => destruct x
         end; simplify_eq; try exact Ha; set_solver.
Qed.

Lemma second_pass_roots (l : list OutlineDocument) (h : list DocumentNode)
    (roots : list nat) (doc : OutlineDocument) (a : nat) :
  doc ∈ l -> dm !! id doc = Some a ->
  (forall p, ~ declared_parent docs doc p) ->
  a ∈ (foldl (second_pass_step dm) (h, roots) l).2.
Proof.
  revert h roots. induction l as [| d l IH]; intros h roots Hin Ha Hno.
  - inversion Hin.
  - cbn [foldl]. apply elem_of_cons in Hin as [<- | Hin].
    + destruct (second_pass_step dm (h, roots) doc) as [h' roots'] eqn:Hs.
      apply second_pass_roots_grow. unfold second_pass_step in Hs.
      rewrite Ha in Hs.
      destruct (parentDocumentId doc) as [p |] eqn:Hp; simpl in Hs.
      * destruct (Js.truthy_string p) eqn:Htp.
        -- destruct (dm !! p) as [pa |] eqn:Hpa.
           ++ exfalso. apply (Hno p). split; [exact Hp |].
              split; [exact Htp |]. apply dm_known. eauto.
           ++ simplify_eq. set_solver.
        -- simplify_eq. set_solver.
      * simplify_eq. set_solver.
    + destruct (second_pass_step dm (h, roots) d) as [h' roots'].
      apply IH; assumption.
Qed.

End FreshIndex.

(** *** The hierarchy of a fresh [DocumentHierarchy] *)

Lemma buildHierarchy_on_fresh (docs : list OutlineDocument) :
  buildHierarchy_on docs [] ∅
  = let dm := index_docs 0 docs ∅ in
    let r := foldl (second_pass_step dm) (map fresh_node docs, []) docs in
    (r.2, r.1, dm).
Proof.
  unfold buildHierarchy_on. rewrite first_pass_fold. simpl.
  destruct (foldl _ _ docs) as [h roots]. reflexivity.
Qed.

Lemma buildHierarchy_linked (docs : list OutlineDocument)
    (roots : list nat) (h : list DocumentNode) (sh : gmap string nat) :
  buildHierarchy_on docs [] ∅ = (roots, h, sh) ->
  sh = index_docs 0 docs ∅ /\ linked_heap docs sh h.
Proof.
  rewrite buildHierarchy_on_fresh. cbn zeta. intros [= <- <- <-].
  split; [reflexivity |].
  apply second_pass_linked; [auto | apply linked_heap_start].
Qed.

(** *** The path loop *)

Lemma path_loop_acc (fuel : nat) (h : list DocumentNode) (cur : option nat)
    (acc : list nat) :
  path_loop fuel h cur acc = (fun p => p ++ acc) <$> path_loop fuel h cur [].
Proof.
  revert cur acc. induction fuel as [| fuel IH]; intros [a |] acc; simpl;
    try reflexivity.
  rewrite (IH _ (a :: acc)), (IH _ [a]).
  destruct (path_loop fuel h _ []) as [p |]; simpl; [| reflexivity].
  rewrite <- app_assoc. reflexivity.
Qed.

Lemma path_loop_step (fuel : nat) (h : list DocumentNode) (a : nat) :
  path_loop (S fuel) h (Some a) []
  = (fun p => p ++ [a]) <$> path_loop fuel h (parent_of h a) [].
Proof. simpl. apply path_loop_acc. Qed.

Lemma path_loop_mono (fuel fuel' : nat) (h : list DocumentNode)
    (cur : option nat) (p : list nat) :
  fuel <= fuel' -> path_loop fuel h cur [] = Some p ->
  path_loop fuel' h cur [] = Some p.
Proof.
  revert fuel' cur p. induction fuel as [| fuel IH]; intros fuel' cur p Hle.
  - destruct cur; simpl; [discriminate |]. intros [= <-].
    destruct fuel'; reflexivity.
  - destruct cur as [a |]; [| intros [= <-]; destruct fuel'; reflexivity].
    destruct fuel' as [| fuel']; [lia |].
    rewrite !path_loop_step.
    destruct (path_loop fuel h _ []) as [q |] eqn:Hq; [| discriminate].
    simpl. intros [= <-]. rewrite (IH fuel' _ q); [reflexivity | lia | exact Hq].
Qed.

Lemma chain_from_snoc (h : list DocumentNode) (prev : option nat)
    (q : list nat) (a : nat) :
  chain_from h prev q ->
  parent_of h a = from_option Some prev (last q) ->
  chain_from h prev (q ++ [a]).
Proof.
  revert prev. induction q as [| b q IH]; intros prev Hc Ha; simpl in *.
  - split; [exact Ha | exact I].
  - destruct Hc as [Hb Hc]. split; [exact Hb |]. apply IH; [exact Hc |].
    rewrite Ha. destruct q as [| n q]; [reflexivity |].
    change (last (b :: n :: q)) with (last (n :: q)).
    destruct (last (n :: q)) eqn:E; [reflexivity |].
    apply last_None in E. discriminate.
Qed.

(** A returned path is a root-first chain that ends at the start node. *)
Lemma path_loop_chain (fuel : nat) (h : list DocumentNode) (cur : option nat)
    (p : list nat) :
  path_loop fuel h cur [] = Some p ->
  chain_from h None p /\ last p = cur.
Proof.
  revert cur p. induction fuel as [| fuel IH]; intros [a |] p.
  - discriminate.
  - intros [= <-]. split; [exact I | reflexivity].
  - rewrite path_loop_step.
    destruct (path_loop fuel h _ []) as [q |] eqn:Hq; [| discriminate].
    simpl. intros [= <-]. destruct (IH _ _ Hq) as [Hc Hl].
    split; [| apply last_snoc].
    apply chain_from_snoc; [exact Hc |]. rewrite Hl.
    destruct (parent_of h a); reflexivity.
  - intros [= <-]. split; [exact I | reflexivity].
Qed.

Lemma path_loop_None_current (fuel : nat) (h : list DocumentNode) :
  path_loop fuel h None [] = Some [].
Proof. destruct fuel; reflexivity. Qed.

(** *** Acyclic input *)

Section Acyclic.
Variable docs : list OutlineDocument.
Variable rank : string -> nat.
Hypothesis Hrank : acyclic_input docs rank.
Variable h : list DocumentNode.
Let dm := index_docs 0 docs ∅.
Hypothesis Hlinked : linked_heap docs dm h.

(** The rank of the identifier wrapped by the node at an address. *)
Let node_rank (a : nat) : nat :=
  from_option (fun n => rank (id (document n))) 0 (h !! a).

Lemma child_of_inv (a pa : nat) :
  child_of h a pa ->
  exists n np,
    h !! a = Some n /\ h !! pa = Some np
    /\ dm !! id (document n) = Some a
    /\ dm !! id (document np) = Some pa
    /\ rank (id (document np)) < rank (id (document n)).
Proof.
  destruct Hlinked as (Hlen & Hdoc & Hpar).
  unfold child_of, parent_of. intros Hc.
  destruct (h !! a) as [n |] eqn:Hn; [| discriminate]. simpl in Hc.
  destruct (Hpar _ _ _ Hn Hc) as (Ha & doc & p & Hin & Hid & Hp & Htp & Hpa).
  destruct (dm_lookup _ _ _ Hpa) as (dp & Hdp & Hidp).
  destruct (h !! pa) as [np |] eqn:Hnp.
  2: { apply lookup_ge_None in Hnp. apply lookup_lt_Some in Hdp. lia. }
  pose proof (Hdoc _ _ Hnp) as Hd. assert (dp = document np) by congruence.
  subst dp. exists n, np. rewrite Hidp. repeat split; try assumption.
  rewrite <- Hid. apply Hrank; [exact Hin |].
  split; [exact Hp |]. split; [exact Htp |]. apply dm_known. eauto.
Qed.

Lemma child_of_rank (a pa : nat) :
  child_of h a pa -> node_rank pa < node_rank a.
Proof.
  intros Hc. destruct (child_of_inv _ _ Hc) as (n & np & Hn & Hnp & _ & _ & Hlt).
  unfold node_rank. rewrite Hn, Hnp. exact Hlt.
Qed.

Lemma ancestor_rank (a b : nat) :
  tc (child_of h) a b -> node_rank b < node_rank a.
Proof.
  induction 1 as [a b Hab | a b c Hab _ IH].
  - apply child_of_rank, Hab.
  - apply child_of_rank in Hab. lia.
Qed.

Lemma no_own_ancestor (a : nat) : ~ tc (child_of h) a a.
Proof. intros Hc. apply ancestor_rank in Hc. lia. Qed.

Lemma path_loop_terminates (fuel : nat) (a : nat) :
  node_rank a < fuel -> is_Some (path_loop fuel h (Some a) []).
Proof.
  revert a. induction fuel as [| fuel IH]; intros a Hlt; [lia |].
  rewrite path_loop_step.
  destruct (parent_of h a) as [pa |] eqn:Hpa.
  - destruct (IH pa) as [q Hq].
    + apply child_of_rank in Hpa. lia.
    + rewrite Hq. simpl. eauto.
  - rewrite path_loop_None_current. simpl. eauto.
Qed.

Lemma getDocumentPath_terminates (documentId : string) :
  exists path, forall fuel,
    rank documentId < fuel ->
    getDocumentPath_on fuel h dm documentId = Some path.
Proof.
  unfold getDocumentPath_on. destruct (dm !! documentId) as [a |] eqn:Ha.
  - destruct (path_loop_terminates (S (rank documentId)) a) as [p Hp].
    + destruct (dm_lookup _ _ _ Ha) as (doc & Hdoc & Hid).
      destruct Hlinked as (Hlen & Hd & _). unfold node_rank.
      destruct (h !! a) as [n |] eqn:Hn; simpl; [| lia].
      apply Hd in Hn. assert (doc = document n) by congruence. subst doc.
      rewrite Hid. lia.
    + exists p. intros fuel Hfuel. eapply path_loop_mono; [| exact Hp]. lia.
  - exists []. intros fuel _. apply path_loop_None_current.
Qed.

End Acyclic.

(** C2 (as the code has it).  When the declared parent pointers of the
    input are acyclic, the forest [buildHierarchy] links has no node among
    its own transitive ancestors, and [getDocumentPath] returns for every
    identifier. *)
Theorem forest_acyclic_on_acyclic_input :
  forall (docs : list OutlineDocument) (rank : string -> nat),
    acyclic_input docs rank ->
    let '(_, h, sh) := buildHierarchy_on docs [] ∅ in
    (forall a, ~ tc (child_of h) a a)
    /\ (forall documentId, exists path, forall fuel,
          rank documentId < fuel ->
          getDocumentPath_on fuel h sh documentId = Some path).
Proof.
  intros docs rank Hrank.
  destruct (buildHierarchy_on docs [] ∅) as [[roots h] sh] eqn:Hb.
  apply buildHierarchy_linked in Hb as [-> Hl]. split.
  - intros a. eapply no_own_ancestor; eauto.
  - intros documentId. eapply getDocumentPath_terminates; eauto.
Qed.

Lemma forest_acyclic_on_acyclic_input_witness :
  let '(_, h, sh) := buildHierarchy_on lore_documents [] ∅ in
  (forall a, ~ tc (child_of h) a a)
  /\ (forall documentId, exists path, forall fuel,
        lore_rank documentId < fuel ->
        getDocumentPath_on fuel h sh documentId = Some path).
Proof.
  apply (forest_acyclic_on_acyclic_input lore_documents lore_rank).
  intros doc p Hin (Hp & _ & _). unfold lore_documents in Hin.
  repeat (apply elem_of_cons in Hin as [-> | Hin]);
    [ discriminate Hp | injection Hp as <- | injection Hp as <-
    | apply elem_of_nil in Hin; destruct Hin ];
    vm_compute; lia.
Defined.

(** C2, as stated, fails on mutually referential parent pointers: the two
    nodes are linked into a cycle, node [A] is its own transitive ancestor,
    and [getDocumentPath("A")] is still looping at every bound. *)
Lemma mutual_parents_counterexample :
  let '(_, h, sh) := buildHierarchy_on mutual_documents [] ∅ in
  sh !! "A" = Some 0
  /\ tc (child_of h) 0 0
  /\ forall fuel, getDocumentPath_on fuel h sh "A" = None.
Proof.
  destruct (buildHierarchy_on mutual_documents [] ∅) as [[roots h] sh] eqn:Hb.
  vm_compute in Hb. injection Hb as <- <- <-.
  split; [reflexivity |]. split.
  - apply tc_l with 1; [reflexivity |]. apply tc_once. reflexivity.
  - intros fuel. unfold getDocumentPath_on.
    match goal with
    | |- path_loop _ _ ?c _ = _ => change c with (Some 0)
    end.
    assert (Hloop : forall a l, a = 0 \/ a = 1 ->
              path_loop fuel
                [ {| document := mkdoc "A" "Lore" "" (Some "B") "src" "1000";
                     children := [1]; parent := Some 1 |};
                  {| document := mkdoc "B" "Characters" "" (Some "A") "src" "1000";
                     children := [0]; parent := Some 0 |} ]
                (Some a) l = None).
    { induction fuel as [| fuel IH]; intros a l Ha; [reflexivity |].
      destruct Ha as [-> | ->]; simpl; apply IH; auto. }
    exact (Hloop 0 [] (or_introl eq_refl)).
Qed.

Lemma unique_ids (docs : list OutlineDocument) (d1 d2 : OutlineDocument) :
  NoDup (map id docs) -> d1 ∈ docs -> d2 ∈ docs -> id d1 = id d2 -> d1 = d2.
Proof.
  induction docs as [| d docs IH]; intros Hnd H1 H2 Heq.
  - inversion H1.
  - simpl in Hnd. apply NoDup_cons in Hnd as [Hd Hnd].
    apply elem_of_cons in H1 as [-> | H1];
      apply elem_of_cons in H2 as [-> | H2]; auto.
    + exfalso. apply Hd. rewrite Heq. apply (list_elem_of_fmap_2 id). exact H2.
    + exfalso. apply Hd. rewrite <- Heq. apply (list_elem_of_fmap_2 id). exact H1.
Qed.

Lemma chain_from_head (h : list DocumentNode) (p : list nat) (r : nat) :
  chain_from h None p -> head p = Some r -> parent_of h r = None.
Proof. destruct p as [| a p]; simpl; [discriminate |]. intros [Ha _] [= <-]. exact Ha. Qed.

(** C4 (as the code has it).  For input with unique identifiers and
    acyclic declared parents: the path of a known identifier is a chain of
    nodes that starts at a node without parent, follows the parent
    references downwards and ends at the node of the named document; the
    path of an unknown identifier is empty; and a document whose declared
    parent is not in the input is pushed on the roots and has the
    one-element path made of its own node. *)
Theorem document_path_spec :
  forall (docs : list OutlineDocument) (rank : string -> nat),
    acyclic_input docs rank ->
    NoDup (map id docs) ->
    let '(roots, h, sh) := buildHierarchy_on docs [] ∅ in
    (forall doc, doc ∈ docs ->
       exists (path : list nat) (a : nat),
         (forall fuel, rank (id doc) < fuel ->
            getDocumentPath_on fuel h sh (id doc) = Some path)
         /\ chain_from h None path
         /\ (forall r, head path = Some r -> parent_of h r = None)
         /\ last path = Some a
         /\ document <$> h !! a = Some doc)
    /\ (forall i fuel, ~ known docs i -> getDocumentPath_on fuel h sh i = Some [])
    /\ (forall doc, doc ∈ docs ->
          (forall p, parentDocumentId doc = Some p -> ~ known docs p) ->
          exists a : nat,
            a ∈ roots
            /\ document <$> h !! a = Some doc
            /\ forall fuel, 0 < fuel ->
                 getDocumentPath_on fuel h sh (id doc) = Some [a]).
Proof.
  intros docs rank Hrank Hnd.
  destruct (buildHierarchy_on docs [] ∅) as [[roots h] sh] eqn:Hb.
  pose proof Hb as Hb'. rewrite buildHierarchy_on_fresh in Hb'.
  cbn zeta in Hb'. injection Hb' as Hroots _ _.
  apply buildHierarchy_linked in Hb as [-> Hl].
  set (dm := index_docs 0 docs ∅) in *.
  assert (Hnode : forall doc, doc ∈ docs ->
            exists a, dm !! id doc = Some a /\ document <$> h !! a = Some doc).
  { intros doc Hin. destruct (proj1 (dm_known docs (id doc))) as [a Ha].
    { exists doc. auto. }
    exists a. split; [exact Ha |].
    destruct (dm_lookup _ _ _ Ha) as (doc' & Hk & Hid).
    assert (doc' = doc).
    { eapply unique_ids; eauto. apply list_elem_of_lookup. eauto. }
    subst doc'. destruct Hl as (Hlen & Hdoc & _).
    destruct (h !! a) as [n |] eqn:Hn.
    - simpl. apply Hdoc in Hn. congruence.
    - apply lookup_ge_None in Hn. apply lookup_lt_Some in Hk. lia. }
  split; [| split].
  - intros doc Hin. destruct (Hnode doc Hin) as (a & Ha & Hda).
    destruct (getDocumentPath_terminates docs rank Hrank h Hl (id doc))
      as [path Hpath].
    exists path, a. split; [exact Hpath |].
    specialize (Hpath (S (rank (id doc))) ltac:(lia)).
    unfold getDocumentPath_on in Hpath. fold dm in Hpath. rewrite Ha in Hpath.
    apply path_loop_chain in Hpath as [Hc Hlast].
    split; [exact Hc |]. split; [intros r; apply chain_from_head, Hc |].
    split; [exact Hlast | exact Hda].
  - intros i fuel Hunknown. unfold getDocumentPath_on.
    destruct (dm !! i) as [a |] eqn:Ha.
    + exfalso. apply Hunknown. apply dm_known. fold dm. eauto.
    + apply path_loop_None_current.
  - intros doc Hin Habsent. destruct (Hnode doc Hin) as (a & Ha & Hda).
    assert (Hno : forall p, ~ declared_parent docs doc p).
    { intros p (Hp & _ & Hk). exact (Habsent p Hp Hk). }
    exists a. split; [| split; [exact Hda |]].
    + rewrite <- Hroots. eapply second_pass_roots; eauto.
    + intros [| fuel] Hfuel; [lia |]. unfold getDocumentPath_on.
      fold dm. rewrite Ha, path_loop_step.
      assert (Hp : parent_of h a = None).
      { unfold parent_of. destruct (h !! a) as [n |] eqn:Hn; [| reflexivity].
        simpl in *. injection Hda as Hda.
        destruct (parent n) as [pa |] eqn:Hpn; [| reflexivity]. exfalso.
        destruct Hl as (_ & _ & Hpar).
        destruct (Hpar _ _ _ Hn Hpn) as (_ & doc' & p & Hin' & Hid & Hp & Htp & Hpa).
        rewrite Hda in Hid. assert (doc' = doc) by (eapply unique_ids; eauto).
        subst doc'. apply (Hno p). split; [exact Hp |]. split; [exact Htp |].
        apply dm_known. fold dm. eauto. }
      rewrite Hp, path_loop_None_current. reflexivity.
Qed.

Lemma document_path_spec_witness :
  let '(roots, h, sh) := buildHierarchy_on lore_documents [] ∅ in
  (forall doc, doc ∈ lore_documents ->
     exists (path : list nat) (a : nat),
       (forall fuel, lore_rank (id doc) < fuel ->
          getDocumentPath_on fuel h sh (id doc) = Some path)
       /\ chain_from h None path
       /\ (forall r, head path = Some r -> parent_of h r = None)
       /\ last path = Some a
       /\ document <$> h !! a = Some doc)
  /\ (forall i fuel, ~ known lore_documents i ->
        getDocumentPath_on fuel h sh i = Some [])
  /\ (forall doc, doc ∈ lore_documents ->
        (forall p, parentDocumentId doc = Some p -> ~ known lore_documents p) ->
        exists a : nat,
          a ∈ roots
          /\ document <$> h !! a = Some doc
          /\ forall fuel, 0 < fuel ->
               getDocumentPath_on fuel h sh (id doc) = Some [a]).
Proof.
  apply (document_path_spec lore_documents lore_rank).
  - intros doc p Hin (Hp & _ & _). unfold lore_documents in Hin.
    repeat (apply elem_of_cons in Hin as [-> | Hin]);
      [ discriminate Hp | injection Hp as <- | injection Hp as <-
      | apply elem_of_nil in Hin; destruct Hin ];
      vm_compute; lia.
  - apply (bool_decide_unpack _). vm_compute. reflexivity.
Defined.

(** The scenario of the specification: [path("C") = [A, B, C]]. *)
Example lore_path :
  let '(roots, h, sh) := buildHierarchy_on lore_documents [] ∅ in
  roots = [0]
  /\ getDocumentPath_on 3 h sh "C" = Some [0; 1; 2]
  /\ (fun a => id <$> (document <$> h !! a)) <$> [0; 1; 2]
     = [Some "A"; Some "B"; Some "C"].
Proof. vm_compute. repeat split; reflexivity. Qed.

(** C4, as stated, fails on a document that names itself as parent: its
    identifier is known to the hierarchy, yet [getDocumentPath] is still
    looping at every bound and returns no sequence. *)
Lemma selfparent_path_counterexample :
  let '(_, h, sh) := buildHierarchy_on selfparent_documents [] ∅ in
  known selfparent_documents "A"
  /\ sh !! "A" = Some 0
  /\ parent_of h 0 = Some 0
  /\ forall fuel, getDocumentPath_on fuel h sh "A" = None.
Proof.
  destruct (buildHierarchy_on selfparent_documents [] ∅)
    as [[roots h] sh] eqn:Hb.
  vm_compute in Hb. injection Hb as <- <- <-.
  split; [eexists; split; [left | reflexivity] |].
  split; [reflexivity |]. split; [reflexivity |].
  intros fuel. unfold getDocumentPath_on.
  match goal with
  | |- path_loop _ _ ?c _ = _ => change c with (Some 0)
  end.
  assert (Hloop : forall l,
            path_loop fuel
              [ {| document := mkdoc "A" "Lore" "" (Some "A") "src" "1000";
                   children := [0]; parent := Some 0 |} ]
              (Some 0) l = None).
  { induction fuel as [| fuel IH]; intros l; [reflexivity |]. simpl. apply IH. }
  exact (Hloop []).
Qed.

(** *** Paths in a linked heap *)

Local Arguments path_loop : simpl never.

Lemma path_loop_prefix (fuel : nat) (h : list DocumentNode) (a : nat)
    (p : list nat) (k b : nat) :
  path_loop fuel h (Some a) [] = Some p ->
  p !! k = Some b ->
  path_loop fuel h (Some b) [] = Some (take (S k) p).
Proof.
  revert a p k b. induction fuel as [| fuel IH]; intros a p k b; [discriminate |].
  rewrite path_loop_step.
  destruct (path_loop fuel h (parent_of h a) []) as [q |] eqn:Hq;
    [| discriminate].
  simpl. intros [= <-] Hk.
  destruct (decide (k < length q)) as [Hlt | Hge].
  - rewrite lookup_app_l in Hk by exact Hlt.
    rewrite take_app_le by lia.
    destruct (parent_of h a) as [pa |] eqn:Hpa.
    + apply (path_loop_mono fuel (S fuel)); [lia |]. eapply IH; eauto.
    + rewrite path_loop_None_current in Hq. injection Hq as <-.
      simpl in Hlt. lia.
  - rewrite lookup_app_r in Hk by lia.
    destruct (k - length q) as [| j] eqn:Hj; simpl in Hk; [| destruct j; discriminate].
    injection Hk as <-.
    rewrite take_ge by (rewrite length_app; simpl; lia).
    rewrite path_loop_step, Hq. reflexivity.
Qed.

Lemma path_loop_NoDup (fuel : nat) (h : list DocumentNode) (a : nat)
    (p : list nat) :
  path_loop fuel h (Some a) [] = Some p -> NoDup p.
Proof.
  intros Hp. apply NoDup_alt. intros i j b Hi Hj.
  pose proof (path_loop_prefix _ _ _ _ _ _ Hp Hi) as H1.
  pose proof (path_loop_prefix _ _ _ _ _ _ Hp Hj) as H2.
  rewrite H1 in H2. injection H2 as H2.
  apply (f_equal length) in H2. rewrite !length_take in H2.
  apply lookup_lt_Some in Hi, Hj. lia.
Qed.

Lemma path_loop_last (fuel : nat) (h : list DocumentNode) (a : nat)
    (p : list nat) :
  path_loop fuel h (Some a) [] = Some p -> exists q, p = q ++ [a].
Proof.
  destruct fuel as [| fuel]; [discriminate |]. rewrite path_loop_step.
  destruct (path_loop fuel h _ []) as [q |]; [| discriminate].
  simpl. intros [= <-]. eauto.
Qed.

Lemma drop_last_snoc {A} (q : list A) (a : A) : Js.drop_last (q ++ [a]) = q.
Proof.
  unfold Js.drop_last, Js.slice0. simpl.
  rewrite length_app. simpl.
  replace (Z.to_nat (Z.of_nat (length q + 1) + -1)) with (length q) by lia.
  rewrite take_app_le by lia. apply take_ge. lia.
Qed.

Lemma drop_last_nil {A} : Js.drop_last (@nil A) = [].
Proof. reflexivity. Qed.

Section LinkedPaths.
Variable docs : list OutlineDocument.
Variable h : list DocumentNode.
Let dm := index_docs 0 docs ∅.
Hypothesis Hlinked : linked_heap docs dm h.

Local Abbreviation canonical := (canonical_node dm h).

Lemma canonical_index (i : string) (a : nat) : dm !! i = Some a ->
  canonical a /\ node_id h a = Some i.
Proof.
  intros Ha. destruct (dm_lookup _ _ _ Ha) as (doc & Hdoc & Hid).
  destruct Hlinked as (Hlen & Hd & _).
  destruct (h !! a) as [n |] eqn:Hn.
  - pose proof (Hd _ _ Hn) as Hdn. assert (doc = document n) by congruence.
    subst doc. split.
    + exists n. rewrite Hid. auto.
    + unfold node_id. rewrite Hn. simpl. congruence.
  - apply lookup_ge_None in Hn. apply lookup_lt_Some in Hdoc. lia.
Qed.

Lemma canonical_parent (a pa : nat) : child_of h a pa -> canonical pa.
Proof.
  unfold child_of, parent_of. intros Hc.
  destruct (h !! a) as [n |] eqn:Hn; [| discriminate]. simpl in Hc.
  destruct Hlinked as (_ & _ & Hpar).
  destruct (Hpar _ _ _ Hn Hc) as (_ & doc & p & _ & _ & _ & _ & Hpa).
  apply canonical_index in Hpa as [Hcan _]. exact Hcan.
Qed.

Lemma canonical_injective (a b : nat) (i : string) :
  canonical a -> canonical b ->
  node_id h a = Some i -> node_id h b = Some i -> a = b.
Proof.
  unfold node_id. intros (n & Hn & Hdn) (m & Hm & Hdm).
  rewrite Hn, Hm. simpl. intros [= Hi] [= Hj]. congruence.
Qed.

Lemma path_loop_canonical (fuel : nat) (a : nat) (p : list nat) :
  canonical a -> path_loop fuel h (Some a) [] = Some p ->
  forall b, b ∈ p -> canonical b.
Proof.
  revert a p. induction fuel as [| fuel IH]; intros a p Ha; [discriminate |].
  rewrite path_loop_step.
  destruct (path_loop fuel h (parent_of h a) []) as [q |] eqn:Hq;
    [| discriminate].
  simpl. intros [= <-] b Hb. apply elem_of_app in Hb as [Hb | Hb].
  - destruct (parent_of h a) as [pa |] eqn:Hpa.
    + eapply IH; [| exact Hq | exact Hb]. eapply canonical_parent. exact Hpa.
    + rewrite path_loop_None_current in Hq. injection Hq as <-.
      inversion Hb.
  - apply list_elem_of_singleton in Hb as ->. exact Ha.
Qed.

(** The ancestors on the path of an identifier carry other identifiers, and
    each of them has the prefix of the path that ends at it as its own
    path. *)
Lemma getDocumentPath_ancestors (fuel : nat) (i : string) (p : list nat) :
  getDocumentPath_on fuel h dm i = Some p ->
  (forall b, b ∈ p -> canonical b)
  /\ NoDup p
  /\ (forall k b j, p !! k = Some b -> node_id h b = Some j ->
        getDocumentPath_on fuel h dm j = Some (take (S k) p))
  /\ (forall b, b ∈ Js.drop_last p -> node_id h b <> Some i)
  /\ (p = [] \/ exists a, dm !! i = Some a /\ p = Js.drop_last p ++ [a]).
Proof.
  unfold getDocumentPath_on. intros Hp.
  destruct (dm !! i) as [a |] eqn:Ha.
  2: { rewrite path_loop_None_current in Hp. injection Hp as <-.
       split; [intros b Hb; inversion Hb |]. split; [constructor |].
       split; [intros k b j Hk; discriminate |].
       split; [intros b Hb; inversion Hb | left; reflexivity]. }
  destruct (canonical_index _ _ Ha) as [Hcan Hid].
  assert (Hall : forall b, b ∈ p -> canonical b)
    by (eapply path_loop_canonical; eauto).
  pose proof (path_loop_NoDup _ _ _ _ Hp) as Hnd.
  split; [exact Hall |]. split; [exact Hnd |]. split; [| split].
  - intros k b j Hk Hj.
    assert (Hb : canonical b) by (apply Hall, list_elem_of_lookup; eauto).
    destruct Hb as (n & Hn & Hdn). unfold node_id in Hj. rewrite Hn in Hj.
    injection Hj as <-. rewrite Hdn. eapply path_loop_prefix; eauto.
  - destruct (path_loop_last _ _ _ _ Hp) as [q ->].
    rewrite drop_last_snoc. intros b Hb Hidb.
    assert (b = a).
    { eapply canonical_injective; eauto. apply Hall. set_solver. }
    subst b. apply NoDup_app in Hnd as (_ & Hdisj & _).
    apply (Hdisj a Hb). set_solver.
  - right. exists a. split; [reflexivity |].
    destruct (path_loop_last _ _ _ _ Hp) as [q ->].
    rewrite drop_last_snoc. reflexivity.
Qed.

End LinkedPaths.

(** ** The budget gate in [main] *)

Section GateProperties.
Context {W : Type} `{!Remote W} `{!Js.Runtime} `{!Pricing}.

(** C5 (as the code has it).  Once the source documents are fetched, the
    statistics of their hierarchy computed and some documents are pending,
    the cost that is compared with the ceiling is the estimate for the
    whole batch, or in a dry run for its first document only.  When a
    ceiling is configured that is neither zero nor [NaN] and that cost
    strictly exceeds it, [main] ends with the cost-limit cancellation
    having issued no request besides the fetch of the source collection
    and without touching the ledger; when no ceiling is configured, or the
    ceiling is zero or [NaN], or that cost does not exceed it, [main] goes
    on to the per-document loop. *)
Theorem budget_gate :
  forall (fuel stack : nat) (config : Config) (st : State W)
         (documents : list OutlineDocument) (w : W),
    getDocumentsByCollection_remote (sourceCollectionId config) (world st)
      = (Ok documents, w) ->
    is_Some (let '(rootNodes, h, _) := buildHierarchy_on documents [] ∅ in
             calculateStats stack h rootNodes 0 (0, 0)) ->
    let tr := loadTranslations (file st) in
    let batch := documentsToProcess config tr documents in
    let priced := if dryRun config then take 1 batch else batch in
    let cost := estimatedCostUsd (estimateBatchCost priced) in
    filter (fun doc => pending tr doc = true) documents <> [] ->
    exists st1 : State W,
      calls st1 = calls st ++ [CallList (sourceCollectionId config)]
      /\ translations st1 = tr
      /\ file st1 = file st
      /\ (forall ceiling : Js.number,
            maxSpendingUsd config = Some ceiling ->
            Js.truthy_number ceiling = true ->
            Js.gt cost ceiling = true ->
            main fuel stack config st = (Ok CancelledByCostLimit, st1))
      /\ (maxSpendingUsd config = None
          \/ (exists ceiling : Js.number,
                maxSpendingUsd config = Some ceiling
                /\ (Js.truthy_number ceiling = false
                    \/ Js.gt cost ceiling = false)) ->
          main fuel stack config st =
          finish (processDocuments fuel config 0 batch
                    {| total := length batch; translated := 0;
                       skipped := 0; errors := 0 |} st1)).
Proof.
  intros fuel stack config st documents w Hlist Hstats tr batch priced cost
    Hpending.
  assert (Hpriced : documentsForCostEstimate config batch = priced).
  { unfold documentsForCostEstimate, priced.
    destruct (dryRun config); reflexivity. }
  assert (Hne : length documents <> 0).
  { intros Hlen. apply Hpending.
    destruct documents; [reflexivity | discriminate]. }
  assert (Hpl : length (filter (fun doc => pending tr doc = true) documents)
                <> 0).
  { intros Hlen. apply Hpending.
    destruct (filter _ documents); [reflexivity | discriminate]. }
  unfold main, try_catch, bind, newTranslationTracker, newDocumentHierarchy,
    modify, getDocumentsByCollection, request, buildHierarchy,
    printHierarchyStats, gets, ret.
  cbn [world set_translations set_folderMappings set_sourceHierarchy set_heap
       heap sourceHierarchy translations calls file].
  rewrite Hlist.
  rewrite (bool_decide_eq_false_2 _ Hne).
  cbn [world set_translations set_folderMappings set_sourceHierarchy set_heap
       set_world heap sourceHierarchy translations calls file].
  destruct (buildHierarchy_on documents [] ∅) as [[rootNodes h] sh] eqn:Hb.
  cbn [world set_translations set_folderMappings set_sourceHierarchy set_heap
       set_world heap sourceHierarchy translations calls file].
  destruct Hstats as [counted Hstats]. rewrite Hstats.
  cbn [world set_translations set_folderMappings set_sourceHierarchy set_heap
       set_world heap sourceHierarchy translations calls file].
  fold tr. rewrite (bool_decide_eq_false_2 _ Hpl). fold batch.
  rewrite Hpriced. fold cost.
  eexists. split; [| split; [| split; [| split]]];
    [ | | | intros ceiling Hc Ht Hgt | intros Hpass].
  4: { unfold confirmCostWithUser. rewrite Hc. fold cost. rewrite Ht, Hgt.
       cbn [andb negb]. reflexivity. }
  4: { assert (Hconfirm : confirmCostWithUser (estimateBatchCost priced)
              (maxSpendingUsd config) = true).
       { unfold confirmCostWithUser.
         destruct Hpass as [-> | (ceiling & -> & [Ht | Hgt])];
           [reflexivity | rewrite Ht; reflexivity |].
         fold cost. rewrite Hgt, andb_false_r. reflexivity. }
       assert (Hcheck : checkSpendingLimit cost (maxSpendingUsd config) = true).
       { unfold checkSpendingLimit.
         destruct Hpass as [-> | (ceiling & -> & [Ht | Hgt])];
           [reflexivity | simpl; rewrite Ht; reflexivity |].
         rewrite Hgt. destruct (negb _); reflexivity. }
       rewrite Hconfirm, Hcheck. cbn [negb]. unfold finish.
       match goal with
       | |- context [processDocuments ?f ?c ?i ?b ?s ?x] =>
           destruct (processDocuments f c i b s x) as [[stats | e |] st2]
       end; reflexivity. }
  all: reflexivity.
Qed.

End GateProperties.

Lemma budget_gate_witness :
  let R := server_remote example_server in
  let H := example_runtime in
  let P := example_pricing in
  let config := config_with_ceiling (Some (Js.Fin 1)) in
  let st := initial_state Missing one_document_store in
  exists st1 : State Store,
    calls st1 = [CallList "src"]
    /\ @main Store R H P 10 10 config st = (Ok CancelledByCostLimit, st1).
Proof.
  intros R H P config st.
  destruct (@budget_gate Store R H P 10 10 config st
              [mkdoc "d1" "The title" "This is the body" None "src" "1000"]
              one_document_store)
    as (st1 & Hcalls & _ & _ & Hreject & _).
  - reflexivity.
  - vm_compute. eauto.
  - vm_compute. discriminate.
  - exists st1. split; [exact Hcalls |].
    apply (Hreject (Js.Fin 1)); reflexivity.
Defined.

(** C5, as stated, fails on a ceiling of zero: the estimate of 1.50 for the
    one pending document strictly exceeds the configured ceiling 0, yet
    [main] is not cancelled: it translates and creates the document. *)
Lemma budget_gate_zero_ceiling_counterexample :
  let R := server_remote example_server in
  let H := example_runtime in
  let P := example_pricing in
  let config := config_with_ceiling (Some (Js.Fin 0)) in
  let st := initial_state Missing one_document_store in
  let run := @main Store R H P 10 10 config st in
  maxSpendingUsd config = Some (Js.Fin 0)
  /\ Js.gt (estimatedCostUsd
              (estimateBatchCost
                 (documentsForCostEstimate config
                    (documentsToProcess config (loadTranslations (file st))
                       (store_docs one_document_store)))))
           (Js.Fin 0) = true
  /\ fst run
     = Ok (Completed {| total := 1; translated := 1; skipped := 0;
                        errors := 0 |})
  /\ creations (calls (snd run))
     = [ {| req_title := "The title"; req_text := "This is the body";
            req_emoji := None;
            req_collectionId := "dst"; req_parentDocumentId := None |} ].
Proof.
  vm_compute. repeat split; reflexivity.
Qed.

(** In a dry run the gate looks at the first document only: with three
    pending documents at 1.50 each and a ceiling of 2, the estimate for
    the batch, 4.50, exceeds the ceiling and the run still proceeds,
    translating and creating the first document. *)
Example budget_gate_dry_run :
  let R := server_remote example_server in
  let H := example_runtime in
  let P := example_pricing in
  let config :=
    {| sourceCollectionId := "src"; targetCollectionId := "dst";
       maxSpendingUsd := Some (Js.Fin 2); batchSize := None;
       dryRun := true |} in
  let documents :=
    [ mkdoc "d1" "One" "First body" None "src" "1000";
      mkdoc "d2" "Two" "Second body" None "src" "1000";
      mkdoc "d3" "Three" "Third body" None "src" "1000" ] in
  let st :=
    initial_state Missing {| store_docs := documents; store_next := 0 |} in
  let run := @main Store R H P 10 10 config st in
  Js.gt (estimatedCostUsd (estimateBatchCost documents)) (Js.Fin 2) = true
  /\ fst run
     = Ok (Completed {| total := 3; translated := 1; skipped := 2;
                        errors := 0 |})
  /\ creations (calls (snd run))
     = [ {| req_title := "One"; req_text := "First body";
            req_emoji := None;
            req_collectionId := "dst"; req_parentDocumentId := None |} ].
Proof.
  vm_compute. repeat split; reflexivity.
Qed.

(** ** What the services leave alone *)

Section Frame.
Context {W : Type} `{!Remote W} `{!Js.Runtime}.

Section Preserves.
Variable R : State W -> State W -> Prop.
Hypothesis R_refl : forall st, R st st.
Hypothesis R_trans : forall st1 st2 st3, R st1 st2 -> R st2 st3 -> R st1 st3.

Lemma preserves_ret {A} (a : A) : preserves R (ret a).
Proof. intros st r st' [= _ <-]. apply R_refl. Qed.

Lemma preserves_throw {A} (e : Error) : preserves R (@throw W A e).
Proof. intros st r st' [= _ <-]. apply R_refl. Qed.

Lemma preserves_hang {A} : preserves R (@hang W A).
Proof. intros st r st' [= _ <-]. apply R_refl. Qed.

Lemma preserves_gets {A} (f : State W -> A) : preserves R (gets f).
Proof. intros st r st' [= _ <-]. apply R_refl. Qed.

Lemma preserves_bind {A B} (m : M W A) (k : A -> M W B) :
  preserves R m -> (forall a, preserves R (k a)) -> preserves R (bind m k).
Proof.
  intros Hm Hk st r st'. unfold bind.
  destruct (m st) as [[a | e |] st1] eqn:Hms.
  - intros Hks. eapply R_trans; [eapply Hm | eapply Hk]; eauto.
  - intros [= _ <-]. eapply Hm; eauto.
  - intros [= _ <-]. eapply Hm; eauto.
Qed.

Lemma preserves_try_catch {A} (m : M W A) (k : Error -> M W A) :
  preserves R m -> (forall e, preserves R (k e)) ->
  preserves R (try_catch m k).
Proof.
  intros Hm Hk st r st'. unfold try_catch.
  destruct (m st) as [[a | e |] st1] eqn:Hms.
  - intros [= _ <-]. eapply Hm; eauto.
  - intros Hks. eapply R_trans; [eapply Hm | eapply Hk]; eauto.
  - intros [= _ <-]. eapply Hm; eauto.
Qed.

Lemma preserves_promise_all2 {A B} (m1 : M W A) (m2 : M W B) :
  preserves R m1 -> preserves R m2 -> preserves R (promise_all2 m1 m2).
Proof.
  intros H1 H2 st r st'. unfold promise_all2.
  destruct (m1 st) as [r1 st1] eqn:E1. destruct (m2 st1) as [r2 st2] eqn:E2.
  intros Hr.
  assert (st' = st2) as ->
    by (destruct r1 as [a | e |], r2 as [b | e' |]; congruence).
  eapply R_trans; [eapply H1 | eapply H2]; eauto.
Qed.

Lemma preserves_request {A} (c : Call) (op : W -> Result A * W) :
  (forall st l w, R st (set_world l w st)) -> preserves R (request c op).
Proof.
  intros Hw st r st'. unfold request.
  destruct (op (world st)) as [r' w]. intros [= _ <-]. apply Hw.
Qed.

Lemma preserves_modify (f : State W -> State W) :
  (forall st, R st (f st)) -> preserves R (modify f).
Proof. intros Hf st r st' [= _ <-]. apply Hf. Qed.

End Preserves.

Lemma ledger_kept_refl (T : string -> Prop) (st : State W) :
  ledger_kept T st st.
Proof. repeat split; auto. Qed.

Lemma ledger_kept_trans (T : string -> Prop) (st1 st2 st3 : State W) :
  ledger_kept T st1 st2 -> ledger_kept T st2 st3 -> ledger_kept T st1 st3.
Proof.
  intros (Hh1 & Hs1 & Ht1 & Hf1) (Hh2 & Hs2 & Ht2 & Hf2).
  split; [congruence |]. split; [congruence |]. split.
  - intros k Hk. rewrite Ht2, Ht1; auto.
  - destruct Hf2 as [Hf2 | (r & Hr & Hrk)].
    + rewrite Hf2. exact Hf1.
    + right. exists r. split; [exact Hr |].
      intros k Hk. rewrite Hrk, Ht1; auto.
Qed.

Lemma ledger_kept_weaken (T T' : string -> Prop) (st st' : State W) :
  (forall k, T k -> T' k) -> ledger_kept T st st' -> ledger_kept T' st st'.
Proof.
  intros Hsub (Hh & Hs & Ht & Hf). split; [exact Hh |]. split; [exact Hs |].
  split; [intros k Hk; apply Ht; auto |].
  destruct Hf as [Hf | (r & Hr & Hrk)]; [left; exact Hf |].
  right. exists r. split; [exact Hr |]. intros k Hk. apply Hrk. auto.
Qed.

Lemma ledger_kept_world (T : string -> Prop) (st : State W) (l : list Call)
    (w : W) :
  ledger_kept T st (set_world l w st).
Proof. repeat split; auto. Qed.

Lemma ledger_kept_mappings (T : string -> Prop) (st : State W)
    (f : gmap string FolderMapping -> gmap string FolderMapping) :
  ledger_kept T st (set_folderMappings f st).
Proof. repeat split; auto. Qed.

End Frame.

(** Composition of [preserves] facts for [ledger_kept]. *)
Ltac keep_side :=
  solve [ intros;
          first [ apply ledger_kept_refl
                | eapply ledger_kept_trans; eassumption
                | apply ledger_kept_world
                | apply ledger_kept_mappings ] ].

Ltac keep_ledger :=
  repeat
    (match goal with
     | |- preserves _ (ret _) => apply preserves_ret
     | |- preserves _ (throw _) => apply preserves_throw
     | |- preserves _ hang => apply preserves_hang
     | |- preserves _ (gets _) => apply preserves_gets
     | |- preserves _ (request _ _) => apply preserves_request
     | |- preserves _ (modify _) => apply preserves_modify
     | |- preserves _ (bind _ _) => apply preserves_bind
     | |- preserves _ (try_catch _ _) => apply preserves_try_catch
     | |- preserves _ (promise_all2 _ _) => apply preserves_promise_all2
     | |- forall _, preserves _ _ => intros ?
     | |- preserves _ (if ?b then _ else _) => destruct b
     | |- preserves _ (match ?x with _ => _ end) => destruct x
     end;
     try keep_side).

Section FrameServices.
Context {W : Type} `{!Remote W} `{!Js.Runtime}.

Lemma translateTitle_kept (T : string -> Prop) dry title forceTranslate :
  preserves (ledger_kept T)
    (@translateTitle W _ _ dry title forceTranslate).
Proof. unfold translateTitle. keep_ledger. Qed.

Lemma translateToEnglish_kept (T : string -> Prop) dry content title force :
  preserves (ledger_kept T)
    (@translateToEnglish W _ _ dry content title force).
Proof. unfold translateToEnglish. keep_ledger. Qed.

Lemma findFolderByName_kept (T : string -> Prop) name collection parentId :
  preserves (ledger_kept T) (@findFolderByName W _ name collection parentId).
Proof. unfold findFolderByName, getDocumentsByCollection. keep_ledger. Qed.

Lemma createDocument_kept (T : string -> Prop) req :
  preserves (ledger_kept T) (@createDocument W _ req).
Proof. unfold createDocument. keep_ledger. Qed.

Lemma getDocumentInfo_kept (T : string -> Prop) documentId :
  preserves (ledger_kept T) (@getDocumentInfo W _ documentId).
Proof. unfold getDocumentInfo. keep_ledger. Qed.

Lemma addTranslation_kept (T : string -> Prop) originalDoc translatedDoc :
  T (id originalDoc) ->
  preserves (ledger_kept T) (@addTranslation W _ originalDoc translatedDoc).
Proof.
  intros HT st r st'. rewrite addTranslation_run.
  destruct (now_remote (world st)) as [stamp w1]. cbv zeta.
  match goal with
  | |- context [writeFileSync_remote ?tr ?w] =>
      destruct (writeFileSync_remote tr w) as [[[] | e |] w2]
  end; intros [= _ <-];
    (split; [reflexivity |]); (split; [reflexivity |]);
    (split;
     [ intros k Hk; cbn; apply set_property_other; intros ->; exact (Hk HT) |]);
    [right | left; reflexivity | left; reflexivity].
  eexists. split; [reflexivity |].
  intros k Hk. apply set_property_other. intros ->. exact (Hk HT).
Qed.

Lemma createFolder_kept (T : string -> Prop) dry target force sourceDoc name
    cur :
  T (id sourceDoc) ->
  preserves (ledger_kept T)
    (@createFolder W _ _ dry target force sourceDoc name cur).
Proof.
  intros HT. unfold createFolder. keep_ledger;
    auto using translateToEnglish_kept, createDocument_kept,
      addTranslation_kept.
Qed.

Lemma resolveFolder_kept (T : string -> Prop) dry target force cur sourceDoc :
  T (id sourceDoc) ->
  preserves (ledger_kept T)
    (@resolveFolder W _ _ dry target force cur sourceDoc).
Proof.
  intros HT. unfold resolveFolder. keep_ledger;
    auto using translateTitle_kept, findFolderByName_kept, createFolder_kept.
Qed.

End FrameServices.

Section FrameResolver.
Context {W : Type} `{!Remote W} `{!Js.Runtime}.

Lemma hierarchy_of_kept (docs : list OutlineDocument) (T : string -> Prop)
    (st st' : State W) :
  ledger_kept T st st' -> hierarchy_of docs st -> hierarchy_of docs st'.
Proof.
  intros (Hh & Hs & _) [Hsh Hl]. unfold hierarchy_of.
  rewrite Hh, Hs. split; assumption.
Qed.

Lemma resolveFolders_kept dry target force (folderPath : list nat) :
  forall (cur : option string) (st : State W) r st',
    resolveFolders dry target force folderPath cur st = (r, st') ->
    ledger_kept
      (fun k => exists b, b ∈ folderPath /\ node_id (heap st) b = Some k)
      st st'.
Proof.
  induction folderPath as [| a rest IH]; intros cur st r st'.
  - intros [= _ <-]. apply ledger_kept_refl.
  - cbn [resolveFolders]. unfold bind at 1, gets at 1.
    destruct (heap st !! a) as [folderNode |] eqn:Ha.
    + unfold bind.
      destruct (resolveFolder dry target force cur (document folderNode) st)
        as [[next | e |] st1] eqn:Hstep.
      * intros Hrest.
        assert (H1 : ledger_kept
                  (fun k => exists b, b ∈ a :: rest
                                      /\ node_id (heap st) b = Some k) st st1).
        { eapply (resolveFolder_kept _ dry target force cur
                    (document folderNode)); [| exact Hstep].
          exists a. split; [left |]. unfold node_id. rewrite Ha. reflexivity. }
        eapply ledger_kept_trans; [exact H1 |].
        eapply ledger_kept_weaken; [| eapply IH; exact Hrest].
        intros k (b & Hb & Hk). exists b. split; [right; exact Hb |].
        destruct H1 as (Hh & _). rewrite <- Hh. exact Hk.
      * intros [= _ <-].
        eapply (resolveFolder_kept _ dry target force cur
                  (document folderNode)); [| exact Hstep].
        exists a. split; [left |]. unfold node_id. rewrite Ha. reflexivity.
      * intros [= _ <-].
        eapply (resolveFolder_kept _ dry target force cur
                  (document folderNode)); [| exact Hstep].
        exists a. split; [left |]. unfold node_id. rewrite Ha. reflexivity.
    + intros Hrest. eapply ledger_kept_weaken; [| eapply IH; exact Hrest].
      intros k (b & Hb & Hk). exists b. split; [right; exact Hb | exact Hk].
Qed.

Lemma ensureFolderStructure_kept (docs : list OutlineDocument) fuel dry
    documentId target force (st : State W) r st' :
  hierarchy_of docs st ->
  ensureFolderStructure fuel dry documentId target force st = (r, st') ->
  ledger_kept (fun k => k <> documentId) st st'.
Proof.
  intros [Hsh Hl]. unfold ensureFolderStructure, bind, getDocumentPath.
  destruct (getDocumentPath_on fuel (heap st) (sourceHierarchy st) documentId)
    as [path |] eqn:Hpath; [| intros [= _ <-]; apply ledger_kept_refl].
  case_bool_decide; [intros [= _ <-]; apply ledger_kept_refl |].
  intros Hrun. apply resolveFolders_kept in Hrun.
  eapply ledger_kept_weaken; [| exact Hrun]. cbn beta.
  intros k (b & Hb & Hk) ->.
  rewrite Hsh in Hpath, Hl.
  destruct (getDocumentPath_ancestors docs (heap st) Hl _ _ _ Hpath)
    as (_ & _ & _ & Hanc & _).
  exact (Hanc b Hb Hk).
Qed.

Context `{!Pricing}.

Lemma placeDocument_kept (docs : list OutlineDocument) fuel config isFirstDoc
    doc (st : State W) r st' :
  hierarchy_of docs st ->
  placeDocument fuel config isFirstDoc doc st = (r, st') ->
  ledger_kept (fun k => k <> id doc) st st'.
Proof.
  intros Hh. unfold placeDocument, bind at 1, gets at 1.
  destruct (_ && _); [intros [= _ <-]; apply ledger_kept_refl |].
  unfold bind at 1.
  destruct (getDocumentInfo (id doc) st) as [[fullDoc | e |] st1] eqn:Hinfo;
    pose proof (getDocumentInfo_kept (fun k => k <> id doc) _ _ _ _ Hinfo)
      as H1;
    [| intros [= _ <-]; exact H1 | intros [= _ <-]; exact H1].
  destruct (_ || _); [intros [= _ <-]; exact H1 |].
  unfold bind.
  destruct (ensureFolderStructure _ _ _ _ _ st1) as [[p | e |] st2] eqn:Hens;
    intros [= _ <-]; (eapply ledger_kept_trans; [exact H1 |]);
    (eapply ensureFolderStructure_kept; [| exact Hens]);
    eapply hierarchy_of_kept; eauto.
Qed.

Lemma translateAndCreate_kept config isFirstDoc fullDoc parentDocumentId :
  preserves (ledger_kept (fun _ => False))
    (@translateAndCreate W _ _ config isFirstDoc fullDoc parentDocumentId).
Proof.
  unfold translateAndCreate. keep_ledger;
    auto using translateToEnglish_kept, translateTitle_kept,
      createDocument_kept.
Qed.

End FrameResolver.

(** ** Failure isolation in the processing loop *)

Lemma buildHierarchy_hierarchy_of {W} (docs : list OutlineDocument)
    (st : State W) :
  heap st = [] -> sourceHierarchy st = ∅ ->
  hierarchy_of docs (buildHierarchy docs st).2.
Proof.
  intros Hh Hs. unfold buildHierarchy. rewrite Hh, Hs.
  destruct (buildHierarchy_on docs [] ∅) as [[roots h] sh] eqn:Hb.
  apply buildHierarchy_linked in Hb as [-> Hl]. split; [reflexivity | exact Hl].
Qed.

Section Isolation.
Context {W : Type} `{!Remote W} `{!Js.Runtime} `{!Pricing}.


End Isolation.


(** ** The destination-search fallback *)

Lemma find_Some {A} (p : A -> bool) (l : list A) (x : A) :
  Js.find p l = Some x ->
  exists i, l !! i = Some x /\ p x = true
            /\ forall j y, j < i -> l !! j = Some y -> p y = false.
Proof.
  induction l as [| a l IH]; simpl; [discriminate |].
  destruct (p a) eqn:Hpa.
  - intros [= ->]. exists 0. split; [reflexivity |]. split; [exact Hpa |].
    intros j y Hj. lia.
  - intros Hfind. destruct (IH Hfind) as (i & Hi & Hpx & Hfirst).
    exists (S i). split; [exact Hi |]. split; [exact Hpx |].
    intros [| j] y Hj Hy.
    + injection Hy as <-. exact Hpa.
    + apply (Hfirst j y); [lia | exact Hy].
Qed.

Lemma find_None {A} (p : A -> bool) (l : list A) :
  Js.find p l = None <-> forall x, x ∈ l -> p x = false.
Proof.
  induction l as [| a l IH]; simpl.
  - split; [| reflexivity]. intros _ x Hx. inversion Hx.
  - destruct (p a) eqn:Hpa.
    + split; [discriminate |]. intros Hall.
      rewrite (Hall a) in Hpa; [discriminate | left].
    + rewrite IH. split.
      * intros Hall x Hx. inversion Hx; subst; [exact Hpa | auto].
      * intros Hall x Hx. apply Hall. right. exact Hx.
Qed.

Section SearchProperties.
Context {W : Type} `{!Remote W} `{!Js.Runtime}.

Lemma folder_matches_true folderName parentId doc :
  folder_matches folderName parentId doc = true
  <-> title doc = folderName /\ parentDocumentId doc = parentId.
Proof.
  unfold folder_matches.
  rewrite andb_true_iff, !bool_decide_eq_true. reflexivity.
Qed.

Lemma findFolderByName_run (folderName collection : string)
    (parentId : option string) (st : State W) :
  findFolderByName folderName collection parentId st =
  let st' w := set_world (calls st ++ [CallList collection]) w st in
  match getDocumentsByCollection_remote collection (world st) with
  | (Ok documents, w) =>
      (Ok (Js.find (folder_matches folderName parentId) documents), st' w)
  | (Throw _, w) => (Ok None, st' w)
  | (Hang, w) => (Hang, st' w)
  end.
Proof.
  unfold findFolderByName, try_catch, bind, getDocumentsByCollection, request,
    ret.
  destruct (getDocumentsByCollection_remote collection (world st))
    as [[documents | e |] w]; reflexivity.
Qed.

Lemma find_skip {A} (p : A -> bool) (before after : list A) (x : A) :
  (forall y, y ∈ before -> p y = false) -> p x = true ->
  Js.find p (before ++ x :: after) = Some x.
Proof.
  intros Hbefore Hx. induction before as [| a before IH]; simpl.
  - rewrite Hx. reflexivity.
  - rewrite (Hbefore a) by left. apply IH.
    intros y Hy. apply Hbefore. right. exact Hy.
Qed.

(** C7.  When neither the cache nor the ledger resolves an ancestor (the
    ledger has no entry for it and its identifier is not the name of a
    member of [Object.prototype]), the resolver lists the destination
    collection and adopts the first listed document whose title equals the
    translated title and whose parent id equals the current parent,
    without creating anything; when no listed document has both, and also
    when the listing throws, it goes on to create the folder. *)
Theorem destination_search_fallback :
  forall (dry : bool) (targetCollection : string) (forceTranslate : bool)
         (currentParentId : option string) (sourceDoc : OutlineDocument)
         (st st1 : State W) (translatedFolderName : string),
    folderMappings st !! id sourceDoc = None ->
    translations st !! id sourceDoc = None ->
    Js.inherited (id sourceDoc) = false ->
    translateTitle dry (title sourceDoc) forceTranslate st
      = (Ok translatedFolderName, st1) ->
    let st2 w := set_world (calls st1 ++ [CallList targetCollection]) w st1 in
    let run :=
      resolveFolder dry targetCollection forceTranslate currentParentId
        sourceDoc st in
    let create :=
      createFolder dry targetCollection forceTranslate sourceDoc
        translatedFolderName currentParentId in
    let same (doc : OutlineDocument) :=
      title doc = translatedFolderName
      /\ parentDocumentId doc = currentParentId in
    match getDocumentsByCollection_remote targetCollection (world st1) with
    | (Ok documents, w) =>
        (forall before folder after,
           documents = before ++ folder :: after ->
           same folder ->
           (forall doc, doc ∈ before -> ~ same doc) ->
           run = (Ok (Some (id folder)),
                  set_folderMappings
                    (<[id sourceDoc :=
                         mkFolderMapping sourceDoc (Some (id folder))
                           (Some translatedFolderName)]>) (st2 w)))
        /\ ((forall doc, doc ∈ documents -> ~ same doc) ->
            run = create (st2 w))
    | (Throw _, w) => run = create (st2 w)
    | (Hang, w) => run = (Hang, st2 w)
    end.
Proof.
  intros dry targetCollection forceTranslate currentParentId sourceDoc st st1
    translatedFolderName Hmap Hled Hord Htitle st2 run create same.
  assert (Hrun : run =
    match findFolderByName translatedFolderName targetCollection
            currentParentId st1 with
    | (Ok (Some folder), st') =>
        (Ok (Some (id folder)),
         set_folderMappings
           (<[id sourceDoc :=
                mkFolderMapping sourceDoc (Some (id folder))
                  (Some translatedFolderName)]>)
           st')
    | (Ok None, st') => create st'
    | (Throw e, st') => (Throw e, st')
    | (Hang, st') => (Hang, st')
    end).
  { unfold run, resolveFolder, bind, gets, ret, isDocumentTranslated.
    cbn [folderMappings translations]. rewrite Hmap.
    assert (has_property (translations st) (id sourceDoc) = false) as ->
      by (apply has_property_false; auto).
    rewrite Htitle.
    destruct (findFolderByName _ _ _ st1) as [[[folder |] | e |] st'];
      reflexivity. }
  rewrite findFolderByName_run in Hrun.
  destruct (getDocumentsByCollection_remote targetCollection (world st1))
    as [[documents | e |] w]; cbn zeta in Hrun; [| exact Hrun | exact Hrun].
  assert (Hno : forall doc, ~ same doc ->
            folder_matches translatedFolderName currentParentId doc = false).
  { intros doc Hdoc.
    destruct (folder_matches _ _ doc) eqn:Hm; [| reflexivity].
    apply folder_matches_true in Hm. destruct (Hdoc Hm). }
  split.
  - intros before folder after -> Hsame Hbefore.
    rewrite (find_skip _ before after folder) in Hrun; [exact Hrun | |].
    + intros y Hy. apply Hno, Hbefore, Hy.
    + apply folder_matches_true, Hsame.
  - intros Hnone.
    assert (Hfind : Js.find
              (folder_matches translatedFolderName currentParentId) documents
              = None).
    { apply find_None. intros x Hx. apply Hno, Hnone, Hx. }
    rewrite Hfind in Hrun. exact Hrun.
Qed.

End SearchProperties.

Lemma destination_search_fallback_witness :
  let R := server_remote example_server in
  let H := example_runtime in
  let sourceDoc := mkdoc "A" "Lore" "" None "src" "1000" in
  let elsewhere := mkdoc "x0" "Lore" "" (Some "p") "dst" "900" in
  let folder := mkdoc "x1" "Lore" "" None "dst" "900" in
  let later := mkdoc "x2" "Lore" "" None "dst" "900" in
  let w := {| store_docs := [elsewhere; folder; later]; store_next := 3 |} in
  let st := initial_state Missing w in
  @resolveFolder Store R H false "dst" false None sourceDoc st
  = (Ok (Some "x1"),
     set_folderMappings
       (<["A" := mkFolderMapping sourceDoc (Some "x1") (Some "Lore")]>)
       (set_world [CallList "dst"] w st)).
Proof.
  intros R H sourceDoc elsewhere folder later w st.
  pose proof (@destination_search_fallback Store R H false "dst" false None
                sourceDoc st st "Lore" eq_refl eq_refl eq_refl eq_refl)
    as [Hadopt _].
  apply (Hadopt [elsewhere] folder [later]).
  - reflexivity.
  - split; reflexivity.
  - intros doc Hdoc. apply list_elem_of_singleton in Hdoc as ->.
    intros [_ Hparent]. discriminate.
Defined.

(** When the listing of the destination throws, the folder is created all
    the same. *)
Example destination_search_failure :
  let R := server_remote (with_list_failure example_server) in
  let H := example_runtime in
  let sourceDoc := mkdoc "A" "Lore" "" None "src" "1000" in
  let run :=
    @resolveFolder Store R H false "dst" false None sourceDoc
      (initial_state Missing empty_store) in
  run.1 = Ok (Some "n")
  /\ calls run.2
     = [ CallList "dst";
         CallCreate {| req_title := "Lore"; req_text := ""; req_emoji := None;
                       req_collectionId := "dst";
                       req_parentDocumentId := None |};
         CallWriteFile {[ "A" := ledger_entry sourceDoc
                                   (mkdoc "n" "Lore" "" None "dst" "5000")
                                   "5000" ]} ].
Proof. vm_compute. repeat split; reflexivity. Qed.

(** ** Folder resolution against a reliable server *)

Local Arguments creations : simpl never.

Lemma creations_app (l1 l2 : list Call) :
  creations (l1 ++ l2) = creations l1 ++ creations l2.
Proof. apply omap_app. Qed.

Section ReliableRuns.
Context `{RT : !Js.Runtime}.
Variable fresh : nat -> string.
Variable answer : ChatRequest -> string.
Variable time : string.
Variables dry force : bool.
Variable target : string.

Let srv := reliable_server fresh answer time.
Let remote : Remote Store := reliable_remote fresh answer time.
#[local] Existing Instance remote.

Hypothesis answer_nonempty :
  forall c, Js.truthy_string (answer (ContentPrompt c)) = true.

Lemma translateTitle_reliable (title : string) (st : State Store) :
  exists st',
    translateTitle dry title force st
      = (Ok (translated_title answer dry force title), st')
    /\ components st' = components st.
Proof.
  unfold translateTitle, translated_title.
  destruct (dry && negb force); [eexists; split; reflexivity |].
  destruct (Js.isAlreadyInEnglish title); [eexists; split; reflexivity |].
  unfold try_catch, bind, request. cbn.
  destruct (Js.truthy_string (Js.trim (answer (TitlePrompt title))));
    eexists; (split; [reflexivity |]); unfold components; cbn;
    rewrite creations_app, app_nil_r; reflexivity.
Qed.

Lemma translateToEnglish_reliable (content title : string)
    (st : State Store) :
  exists v st',
    translateToEnglish dry content title force st = (Ok v, st')
    /\ components st' = components st.
Proof.
  unfold translateToEnglish.
  destruct (dry && negb force); [do 2 eexists; split; reflexivity |].
  destruct (Js.isAlreadyInEnglish content);
    [do 2 eexists; split; reflexivity |].
  unfold try_catch, bind, request. cbn. rewrite answer_nonempty.
  do 2 eexists. split; [reflexivity |]. unfold components. cbn.
  rewrite creations_app, app_nil_r. reflexivity.
Qed.

Lemma findFolderByName_reliable (name : string) (cur : option string)
    (st : State Store) :
  exists st',
    findFolderByName name target cur st
      = (Ok (Js.find (folder_matches name cur)
               (filter (fun d => collectionId d = target)
                  (store_docs (world st)))), st')
    /\ components st' = components st.
Proof.
  rewrite findFolderByName_run. cbn. eexists. split; [reflexivity |].
  unfold components. cbn. rewrite creations_app, app_nil_r. reflexivity.
Qed.

Lemma createFolder_reliable (sourceDoc : OutlineDocument) (name : string)
    (cur : option string) (st : State Store) :
  Js.inherited (id sourceDoc) = false ->
  exists content st',
    let req := folder_request target sourceDoc name content cur in
    let d := created_document srv (store_next (world st)) req in
    let tr := <[id sourceDoc := ledger_entry sourceDoc d time]>
                (translations st) in
    createFolder dry target force sourceDoc name cur st
      = (Ok (Some (fresh (store_next (world st)))), st')
    /\ components st'
       = (tr, Stored tr, heap st, sourceHierarchy st,
          <[id sourceDoc :=
              mkFolderMapping sourceDoc (Some (id d)) (Some name)]>
            (folderMappings st),
          {| store_docs := store_docs (world st) ++ [d];
             store_next := S (store_next (world st)) |},
          creations (calls st) ++ [req]).
Proof.
  intros Hord. unfold createFolder.
  assert (Hc : exists content st1,
            (if Js.truthy_string (text sourceDoc)
                && negb (bool_decide (Js.trim (text sourceDoc) = ""))
             then translateToEnglish dry (text sourceDoc) (title sourceDoc)
                    force
             else ret "") st = (Ok content, st1)
            /\ components st1 = components st).
  { destruct (_ && _); [apply translateToEnglish_reliable |].
    do 2 eexists. split; reflexivity. }
  destruct Hc as (content & st1 & Hrun & Hcomp).
  exists content. unfold bind at 1. rewrite Hrun.
  unfold components in Hcomp.
  injection Hcomp as Htr Hfile Hheap Hsh Hfm Hw Hcalls.
  unfold bind, createDocument, request, modify, ret.
  cbn -[addTranslation]. rewrite addTranslation_run. cbn.
  rewrite !(set_property_ordinary _ _ _ Hord).
  eexists. split.
  - rewrite Hw. reflexivity.
  - unfold components. cbn. rewrite ?Htr, ?Hfile, ?Hheap, ?Hsh, ?Hfm, ?Hw.
    rewrite !creations_app, Hcalls. cbn. rewrite app_nil_r.
    reflexivity.
Qed.

End ReliableRuns.

(** *** Keys and the identifiers they stand for *)

Lemma index_of_Some (k : Key) (ks : list Key) (j : nat) :
  index_of k ks = Some j -> ks !! j = Some k.
Proof.
  revert j. induction ks as [| k' ks IH]; intros j; simpl; [discriminate |].
  destruct (decide (k = k')) as [-> | Hne].
  - intros [= <-]. reflexivity.
  - destruct (index_of k ks) as [j' |]; [| discriminate].
    intros [= <-]. simpl. apply IH. reflexivity.
Qed.

Lemma index_of_None (k : Key) (ks : list Key) :
  index_of k ks = None <-> k ∉ ks.
Proof.
  induction ks as [| k' ks IH]; simpl.
  - split; [intros _ H; inversion H | reflexivity].
  - destruct (decide (k = k')) as [-> | Hne].
    + split; [discriminate | intros H; exfalso; apply H; left].
    + destruct (index_of k ks) as [j |] eqn:Hj.
      * split; [discriminate |]. intros Hnot. exfalso.
        apply not_elem_of_cons in Hnot as [_ Hnot].
        apply IH in Hnot. discriminate.
      * split; [| reflexivity]. intros _. apply not_elem_of_cons.
        split; [exact Hne | apply IH; reflexivity].
Qed.

Lemma index_of_lookup (k : Key) (ks : list Key) (j : nat) :
  NoDup ks -> ks !! j = Some k -> index_of k ks = Some j.
Proof.
  intros Hnd Hj. destruct (index_of k ks) as [j' |] eqn:Hi.
  - apply index_of_Some in Hi. f_equal.
    eapply NoDup_lookup; eauto.
  - apply index_of_None in Hi. exfalso. apply Hi.
    apply list_elem_of_lookup. eauto.
Qed.

Lemma index_of_app_l (k : Key) (ks l : list Key) :
  k ∈ ks -> index_of k (ks ++ l) = index_of k ks.
Proof.
  induction ks as [| k' ks IH]; intros Hin; [inversion Hin |].
  simpl. destruct (decide (k = k')) as [-> | Hne]; [reflexivity |].
  rewrite IH; [reflexivity |].
  apply elem_of_cons in Hin as [-> | Hin]; [contradiction | exact Hin].
Qed.

Lemma index_of_app_new (k : Key) (ks : list Key) :
  k ∉ ks -> index_of k (ks ++ [k]) = Some (length ks).
Proof.
  induction ks as [| k' ks IH]; intros Hnot; simpl.
  - rewrite decide_True by reflexivity. reflexivity.
  - apply not_elem_of_cons in Hnot as [Hne Hnot].
    rewrite decide_False by exact Hne. rewrite IH by exact Hnot. reflexivity.
Qed.

Section KeyResolution.
Variable fresh : nat -> string.
Variable ledger0 : TranslationRecord.
Variable stored0 : list OutlineDocument.
Variable n0 : nat.

Hypothesis fresh_inj : forall n m, fresh n = fresh m -> n = m.
Hypothesis fresh_truthy : forall n, Js.truthy_string (fresh n) = true.
Hypothesis old_truthy :
  forall x, old_id ledger0 stored0 x -> Js.truthy_string x = true.
Hypothesis fresh_new :
  forall n, n0 <= n -> ~ old_id ledger0 stored0 (fresh n).

Local Abbreviation closed := (closed_key ledger0 stored0).
Local Abbreviation res := (resolve fresh n0).

Lemma closed_app (ks l : list Key) (k : Key) :
  closed ks k -> closed (ks ++ l) k.
Proof.
  intros [-> | [(c & -> & Hc) | [Hin Hnew]]].
  - left. reflexivity.
  - right. left. eauto.
  - right. right. split; [apply elem_of_app; left; exact Hin | exact Hnew].
Qed.

Lemma resolve_app (ks l : list Key) (k : Key) :
  closed ks k -> res (ks ++ l) k = res ks k.
Proof.
  intros [-> | [(c & -> & Hc) | [Hin (t & pk & ->)]]]; try reflexivity.
  simpl. rewrite index_of_app_l by exact Hin. reflexivity.
Qed.

Lemma resolve_member (ks : list Key) (k : Key) :
  closed ks k -> k <> Root -> is_Some (res ks k).
Proof.
  intros [-> | [(c & -> & Hc) | [Hin (t & pk & ->)]]] Hne.
  - contradiction.
  - simpl. eauto.
  - simpl. destruct (index_of (New t pk) ks) as [j |] eqn:Hj; [simpl; eauto |].
    apply index_of_None in Hj. contradiction.
Qed.

Lemma resolve_inj (ks : list Key) (k1 k2 : Key) :
  closed ks k1 -> closed ks k2 -> res ks k1 = res ks k2 -> k1 = k2.
Proof.
  intros [-> | [(c1 & -> & Hc1) | [Hin1 (t1 & pk1 & ->)]]]
         [-> | [(c2 & -> & Hc2) | [Hin2 (t2 & pk2 & ->)]]]; simpl;
    try reflexivity; try discriminate.
  - destruct (index_of (New t2 pk2) ks) eqn:Hj; [discriminate |].
    apply index_of_None in Hj. contradiction.
  - congruence.
  - destruct (index_of (New t2 pk2) ks) as [j |] eqn:Hj; simpl;
      [| discriminate].
    intros [= ->]. exfalso. apply (fresh_new (n0 + j)); [lia | exact Hc1].
  - destruct (index_of (New t1 pk1) ks) eqn:Hj; [discriminate |].
    apply index_of_None in Hj. contradiction.
  - destruct (index_of (New t1 pk1) ks) as [j |] eqn:Hj; simpl;
      [| discriminate].
    intros [= <-]. exfalso. apply (fresh_new (n0 + j)); [lia | exact Hc2].
  - destruct (index_of (New t1 pk1) ks) as [j1 |] eqn:Hj1;
      destruct (index_of (New t2 pk2) ks) as [j2 |] eqn:Hj2; simpl;
      try discriminate.
    + intros [= Heq]. apply fresh_inj in Heq.
      assert (j1 = j2) by lia. subst j2.
      apply index_of_Some in Hj1, Hj2. congruence.
    + intros _. apply index_of_None in Hj1. contradiction.
Qed.

Lemma resolve_truthy (ks : list Key) (k : Key) :
  closed ks k ->
  (if Js.truthy_ostring (res ks k) then res ks k else None) = res ks k.
Proof.
  intros [-> | [(c & -> & Hc) | [Hin (t & pk & ->)]]]; simpl.
  - reflexivity.
  - rewrite (old_truthy _ Hc). reflexivity.
  - destruct (index_of (New t pk) ks); simpl; [| reflexivity].
    rewrite fresh_truthy. reflexivity.
Qed.

End KeyResolution.

Lemma find_app {A} (p : A -> bool) (l1 l2 : list A) :
  Js.find p (l1 ++ l2)
  = match Js.find p l1 with
    | Some x => Some x
    | None => Js.find p l2
    end.
Proof.
  induction l1 as [| a l1 IH]; simpl; [reflexivity |].
  destruct (p a); [reflexivity | exact IH].
Qed.

Lemma filter_all {A} (P : A -> Prop) `{!forall x, Decision (P x)}
    (l : list A) :
  (forall x, x ∈ l -> P x) -> filter P l = l.
Proof.
  induction l as [| a l IH]; intros Hall; [reflexivity |].
  rewrite filter_cons_True by (apply Hall; left).
  f_equal. apply IH. intros x Hx. apply Hall. right. exact Hx.
Qed.

Lemma find_first {A} (p : A -> bool) (l : list A) (j : nat) (x : A) :
  l !! j = Some x -> p x = true ->
  (forall j' y, j' < j -> l !! j' = Some y -> p y = false) ->
  Js.find p l = Some x.
Proof.
  revert j. induction l as [| a l IH]; intros j Hj Hp Hfirst; [discriminate |].
  simpl. destruct j as [| j].
  - injection Hj as ->. rewrite Hp. reflexivity.
  - rewrite (Hfirst 0 a) by (simpl; auto with lia).
    apply (IH j); [exact Hj | exact Hp |].
    intros j' y Hlt Hy. apply (Hfirst (S j') y); [lia | exact Hy].
Qed.

(** *** One folder *)

Section ResolutionStep.
Context `{RT : !Js.Runtime}.
Variable fresh : nat -> string.
Variable answer : ChatRequest -> string.
Variable time : string.
Variables dry force : bool.
Variable target : string.
Variable fuel : nat.
Variable h0 : list DocumentNode.
Variable sh0 : gmap string nat.
Variable ledger0 : TranslationRecord.
Variable stored0 : list OutlineDocument.
Variable n0 : nat.
Variable created0 : nat.

Hypothesis answer_nonempty :
  forall c, Js.truthy_string (answer (ContentPrompt c)) = true.
Hypothesis fresh_inj : forall n m, fresh n = fresh m -> n = m.
Hypothesis fresh_truthy : forall n, Js.truthy_string (fresh n) = true.
Hypothesis old_truthy :
  forall x, old_id ledger0 stored0 x -> Js.truthy_string x = true.
Hypothesis fresh_new :
  forall n, n0 <= n -> ~ old_id ledger0 stored0 (fresh n).
Hypothesis fresh_unused :
  forall n d, n0 <= n -> d ∈ stored0 -> parentDocumentId d <> Some (fresh n).

Local Abbreviation T := (translated_title answer dry force).
Local Abbreviation D0 := (listed_of target stored0).
Local Abbreviation K := (key_of T ledger0 D0 fuel h0 sh0).
Local Abbreviation closed := (closed_key ledger0 stored0).
Local Abbreviation res := (resolve fresh n0).
Local Abbreviation Inv :=
  (resolution_invariant fresh T target fuel h0 sh0 ledger0 stored0 n0
     created0).

Let remote : Remote Store := reliable_remote fresh answer time.
#[local] Existing Instance remote.

Lemma listed_stored (d : OutlineDocument) : d ∈ D0 -> d ∈ stored0.
Proof. unfold listed_of. intros Hd. apply list_elem_of_filter in Hd as [_ Hd]. exact Hd. Qed.

Lemma created_key st ks created (j : nat) (d : OutlineDocument) :
  Inv st ks created -> created !! j = Some d ->
  exists t pk,
    ks !! j = Some (New t pk) /\ closed ks pk
    /\ id d = fresh (n0 + j) /\ title d = t
    /\ parentDocumentId d = res ks pk /\ collectionId d = target.
Proof.
  intros HI Hd.
  destruct (ks !! j) as [k |] eqn:Hk.
  - destruct (inv_created _ _ _ _ _ _ _ _ _ _ _ _ _ HI j k d Hk Hd)
      as (t & pk & -> & Hrest).
    exists t, pk. split; [reflexivity | exact Hrest].
  - apply lookup_ge_None in Hk. apply lookup_lt_Some in Hd.
    rewrite (inv_length _ _ _ _ _ _ _ _ _ _ _ _ _ HI) in Hd. lia.
Qed.

Lemma listed_store st ks created :
  Inv st ks created ->
  filter (fun d => collectionId d = target) (store_docs (world st))
  = D0 ++ created.
Proof.
  intros HI. rewrite (inv_docs _ _ _ _ _ _ _ _ _ _ _ _ _ HI), filter_app.
  f_equal. apply filter_all. intros d Hd.
  apply list_elem_of_lookup in Hd as [j Hj].
  destruct (created_key _ _ _ _ _ HI Hj) as (t & pk & _ & _ & _ & _ & _ & Hc).
  exact Hc.
Qed.

Lemma find_listed_new ks (t t' : string) (pk' : Key) :
  closed ks (New t' pk') ->
  Js.find (folder_matches t (res ks (New t' pk'))) D0 = None.
Proof.
  intros Hcl. apply find_None. intros d Hd.
  destruct (folder_matches _ _ d) eqn:Hm; [| reflexivity]. exfalso.
  apply folder_matches_true in Hm as [_ Hp].
  destruct (resolve_member fresh ledger0 stored0 n0 ks _ Hcl) as [x Hx];
    [discriminate |].
  pose proof Hx as Hx'. simpl in Hx'.
  destruct (index_of (New t' pk') ks) as [j |]; [| discriminate].
  simpl in Hx'. injection Hx' as <-.
  apply (fresh_unused (n0 + j) d); [lia | apply listed_stored, Hd |].
  rewrite Hp, Hx. reflexivity.
Qed.

Lemma find_created st ks created (t : string) (pk : Key) :
  Inv st ks created -> closed ks pk ->
  Js.find (folder_matches t (res ks pk)) created
  = index_of (New t pk) ks ≫= (fun j => created !! j).
Proof.
  intros HI Hcl.
  assert (Hmatch : forall j d, created !! j = Some d ->
            folder_matches t (res ks pk) d = true ->
            ks !! j = Some (New t pk)).
  { intros j d Hd Hm. apply folder_matches_true in Hm as [Ht Hp].
    destruct (created_key _ _ _ _ _ HI Hd)
      as (t' & pk' & Hk & Hcl' & _ & Ht' & Hp' & _).
    rewrite Hk. do 2 f_equal; [congruence |].
    eapply resolve_inj; eauto. congruence. }
  destruct (index_of (New t pk) ks) as [j |] eqn:Hj; simpl.
  - pose proof (index_of_Some _ _ _ Hj) as Hk.
    destruct (created !! j) as [d |] eqn:Hd.
    2: { apply lookup_ge_None in Hd. apply lookup_lt_Some in Hk.
         rewrite (inv_length _ _ _ _ _ _ _ _ _ _ _ _ _ HI) in Hd. lia. }
    destruct (created_key _ _ _ _ _ HI Hd)
      as (t' & pk' & Hk' & _ & _ & Ht' & Hp' & _).
    assert (New t' pk' = New t pk) as [= -> ->] by congruence.
    apply (find_first _ _ j); [exact Hd | |].
    + apply folder_matches_true. auto.
    + intros j' d' Hlt Hd'.
      destruct (folder_matches t (res ks pk) d') eqn:Hm; [| reflexivity].
      exfalso. pose proof (Hmatch _ _ Hd' Hm) as Hk''.
      pose proof (NoDup_lookup _ _ _ _
                    (inv_nodup _ _ _ _ _ _ _ _ _ _ _ _ _ HI) Hk'' Hk). lia.
  - apply find_None. intros d Hd.
    destruct (folder_matches t (res ks pk) d) eqn:Hm; [| reflexivity].
    exfalso. apply list_elem_of_lookup in Hd as [j' Hd].
    pose proof (Hmatch _ _ Hd Hm) as Hk.
    apply index_of_None in Hj. apply Hj. apply list_elem_of_lookup. eauto.
Qed.


Lemma bind_gets {W A B} (f : State W -> A) (k : A -> M W B) (st : State W) :
  bind (gets f) k st = k (f st) st.
Proof. reflexivity. Qed.

Lemma bind_ok {W A B} (m : M W A) (k : A -> M W B) (st st' : State W)
    (a : A) :
  m st = (Ok a, st') -> bind m k st = k a st'.
Proof. unfold bind. intros ->. reflexivity. Qed.

(** Adopting an existing destination folder for the source folder [i]. *)
Lemma inv_adopt st st2 ks created (i : string) (m : FolderMapping) :
  Inv st ks created ->
  components st2 = components st ->
  folderMappings st !! i = None ->
  K i <> Root -> closed ks (K i) -> res ks (K i) = targetId m ->
  (forall a pa, sh0 !! i = Some a -> child_of h0 a pa ->
     exists ip, node_id h0 pa = Some ip
                /\ is_Some (folderMappings st !! ip)) ->
  Inv (set_folderMappings (<[i := m]>) st2) ks created.
Proof.
  intros HI Hc Hfm Hne Hcl Hres Hpar. unfold components in Hc.
  injection Hc as Htr Hfile Hheap Hsh Hfmeq Hw Hcalls.
  destruct HI as [inv_heap0 inv_index0 inv_docs0 inv_next0 inv_length0
    inv_calls0 inv_nodup0 inv_created0 inv_mapped0 inv_ledger0 inv_keys0
    inv_parent0].
  constructor; cbn; rewrite ?Htr, ?Hheap, ?Hsh, ?Hfmeq, ?Hw,
    ?Hcalls; try assumption.
  - intros j mj Hj. destruct (decide (i = j)) as [<- | Hij].
    + rewrite lookup_insert_eq in Hj. injection Hj as <-. auto.
    + rewrite lookup_insert_ne in Hj by exact Hij. auto.
  - intros j Hj. destruct (decide (i = j)) as [<- | Hij].
    + rewrite lookup_insert_eq in Hj. discriminate.
    + rewrite lookup_insert_ne in Hj by exact Hij. auto.
  - intros k Hk. destruct (inv_keys0 k Hk) as (j & Hj & Hkj).
    exists j. split; [| exact Hkj].
    destruct (decide (i = j)) as [<- | Hij].
    + rewrite lookup_insert_eq. eauto.
    + rewrite lookup_insert_ne by exact Hij. exact Hj.
  - intros j a pa Hj Ha Hch.
    assert (Hex : exists ip, node_id h0 pa = Some ip
                             /\ is_Some (folderMappings st !! ip)).
    { destruct (decide (i = j)) as [<- | Hij]; [eapply Hpar; eauto |].
      rewrite lookup_insert_ne in Hj by exact Hij. eapply inv_parent0; eauto. }
    destruct Hex as (ip & Hip & Hm). exists ip. split; [exact Hip |].
    destruct (decide (i = ip)) as [<- | Hne'].
    + rewrite lookup_insert_eq. eauto.
    + rewrite lookup_insert_ne by exact Hne'. exact Hm.
Qed.

(** Creating a destination folder for the source folder [i]. *)
Lemma inv_create st st' ks created (i : string) (m : FolderMapping)
    (e : TranslatedDocument) (f : File) (d : OutlineDocument)
    (req : OutlineDocumentCreateRequest) (t : string) (pk : Key) :
  Inv st ks created ->
  components st'
    = (<[i := e]> (translations st), f, heap st, sourceHierarchy st,
       <[i := m]> (folderMappings st),
       {| store_docs := store_docs (world st) ++ [d];
          store_next := S (store_next (world st)) |},
       creations (calls st) ++ [req]) ->
  folderMappings st !! i = None ->
  K i = New t pk -> closed ks pk -> New t pk ∉ ks ->
  id d = fresh (store_next (world st)) -> title d = t ->
  parentDocumentId d = res ks pk -> collectionId d = target ->
  targetId m = Some (id d) ->
  (forall a pa, sh0 !! i = Some a -> child_of h0 a pa ->
     exists ip, node_id h0 pa = Some ip
                /\ is_Some (folderMappings st !! ip)) ->
  Inv st' (ks ++ [New t pk]) (created ++ [d]).
Proof.
  intros HI Hc Hfm HK Hcl Hnew Hid Ht Hp Hcoll Htarget Hpar.
  unfold components in Hc.
  injection Hc as Htr Hfile Hheap Hsh Hfmeq Hw Hcalls.
  pose proof (inv_next _ _ _ _ _ _ _ _ _ _ _ _ _ HI) as Hnext.
  pose proof (inv_length _ _ _ _ _ _ _ _ _ _ _ _ _ HI) as Hlen.
  destruct HI as [inv_heap0 inv_index0 inv_docs0 inv_next0 inv_length0
    inv_calls0 inv_nodup0 inv_created0 inv_mapped0 inv_ledger0 inv_keys0
    inv_parent0].
  constructor; rewrite ?Htr, ?Hheap, ?Hsh, ?Hfmeq, ?Hw, ?Hcalls;
    cbn; try assumption.
  - rewrite inv_docs0, app_assoc. reflexivity.
  - rewrite inv_next0, length_app. simpl. lia.
  - rewrite !length_app. simpl. lia.
  - rewrite !length_app. simpl. lia.
  - apply NoDup_app. split; [exact inv_nodup0 |].
    split; [| apply NoDup_singleton].
    intros k Hk Hk'. apply list_elem_of_singleton in Hk' as ->. contradiction.
  - intros j k dj Hk Hd.
    destruct (decide (j < length ks)) as [Hlt | Hge].
    + rewrite lookup_app_l in Hk by exact Hlt.
      rewrite lookup_app_l in Hd by lia.
      destruct (inv_created0 j k dj Hk Hd)
        as (tj & pkj & -> & Hclj & Hidj & Htj & Hpj & Hcj).
      exists tj, pkj. split; [reflexivity |].
      split; [apply closed_app, Hclj |].
      rewrite (resolve_app fresh ledger0 stored0 n0 ks [New t pk] pkj Hclj).
      auto.
    + rewrite lookup_app_r in Hk by lia. rewrite lookup_app_r in Hd by lia.
      rewrite Hlen in Hd.
      destruct (j - length ks) as [| j'] eqn:Hj; simpl in Hk, Hd;
        [| destruct j'; discriminate].
      injection Hk as <-. injection Hd as <-.
      exists t, pk. split; [reflexivity |]. split; [apply closed_app, Hcl |].
      rewrite (resolve_app fresh ledger0 stored0 n0 ks [New t pk] pk Hcl).
      split; [rewrite Hid, Hnext; f_equal; lia | auto].
  - intros j mj Hj. destruct (decide (i = j)) as [<- | Hij].
    + rewrite lookup_insert_eq in Hj. injection Hj as <-.
      cbn zeta. rewrite HK. split; [discriminate |]. split.
      * right. right. split; [apply elem_of_app; right; left | eauto].
      * simpl. rewrite index_of_app_new by exact Hnew. simpl.
        rewrite Htarget, Hid, Hnext. reflexivity.
    + rewrite lookup_insert_ne in Hj by exact Hij.
      destruct (inv_mapped0 j mj Hj) as (Hne & Hclj & Hres).
      split; [exact Hne |]. split; [apply closed_app, Hclj |].
      rewrite (resolve_app fresh ledger0 stored0 n0 ks [New t pk] _ Hclj).
      exact Hres.
  - intros j Hj. destruct (decide (i = j)) as [<- | Hij].
    + rewrite lookup_insert_eq in Hj. discriminate.
    + rewrite lookup_insert_ne in Hj by exact Hij.
      rewrite lookup_insert_ne by exact Hij. auto.
  - intros k Hk. apply elem_of_app in Hk as [Hk | Hk].
    + destruct (inv_keys0 k Hk) as (j & Hj & Hkj).
      exists j. split; [| exact Hkj].
      destruct (decide (i = j)) as [<- | Hij].
      * rewrite lookup_insert_eq. eauto.
      * rewrite lookup_insert_ne by exact Hij. exact Hj.
    + apply list_elem_of_singleton in Hk as ->. exists i.
      rewrite lookup_insert_eq. split; [eauto | exact HK].
  - intros j a pa Hj Ha Hch.
    assert (Hex : exists ip, node_id h0 pa = Some ip
                             /\ is_Some (folderMappings st !! ip)).
    { destruct (decide (i = j)) as [<- | Hij]; [eapply Hpar; eauto |].
      rewrite lookup_insert_ne in Hj by exact Hij. eapply inv_parent0; eauto. }
    destruct Hex as (ip & Hip & Hm). exists ip. split; [exact Hip |].
    destruct (decide (i = ip)) as [<- | Hne'].
    + rewrite lookup_insert_eq. eauto.
    + rewrite lookup_insert_ne by exact Hne'. exact Hm.
Qed.


Lemma inv_components st st' ks created :
  Inv st ks created -> components st' = components st -> Inv st' ks created.
Proof.
  intros HI Hc. unfold components in Hc.
  injection Hc as Htr Hfile Hheap Hsh Hfmeq Hw Hcalls.
  destruct HI as [inv_heap0 inv_index0 inv_docs0 inv_next0 inv_length0
    inv_calls0 inv_nodup0 inv_created0 inv_mapped0 inv_ledger0 inv_keys0
    inv_parent0].
  constructor; rewrite ?Htr, ?Hheap, ?Hsh, ?Hfmeq, ?Hw, ?Hcalls;
    assumption.
Qed.

(** The loop body of [ensureFolderStructure] on the folder [s], whose
    parent is placed at [pk]: it returns the destination identifier of the
    place of [s] and keeps the invariant, creating at most one folder. *)
Lemma resolveFolder_step st ks created (pk : Key) (s : OutlineDocument) :
  Inv st ks created ->
  Js.inherited (id s) = false ->
  closed ks pk ->
  K (id s) = key_step T ledger0 D0 pk s ->
  (forall a pa, sh0 !! id s = Some a -> child_of h0 a pa ->
     exists ip, node_id h0 pa = Some ip
                /\ is_Some (folderMappings st !! ip)) ->
  exists st' ks' created',
    resolveFolder dry target force (res ks pk) s st
      = (Ok (res ks' (K (id s))), st')
    /\ Inv st' ks' created'
    /\ closed ks' (K (id s)) /\ K (id s) <> Root
    /\ (exists l, ks' = ks ++ l)
    /\ (forall j, is_Some (folderMappings st' !! j)
                  <-> j = id s \/ is_Some (folderMappings st !! j)).
Proof.
  intros HI Hord Hcl HK Hpar. unfold resolveFolder. rewrite bind_gets.
  destruct (folderMappings st !! id s) as [m |] eqn:Hfm.
  { destruct (inv_mapped _ _ _ _ _ _ _ _ _ _ _ _ _ HI _ _ Hfm)
      as (Hne & Hclk & Hres).
    exists st, ks, created. rewrite Hres.
    split; [reflexivity |]. split; [exact HI |]. split; [exact Hclk |].
    split; [exact Hne |]. split; [exists []; rewrite app_nil_r; reflexivity |].
    intros j. split; [auto |]. intros [-> | Hj]; [eauto | exact Hj]. }
  assert (Hdom : forall (st2 : State Store) m j,
            folderMappings st2 = folderMappings st ->
            is_Some (folderMappings (set_folderMappings (<[id s := m]>) st2)
                       !! j)
            <-> j = id s \/ is_Some (folderMappings st !! j)).
  { intros st2 m j Heq. cbn. rewrite Heq.
    destruct (decide (id s = j)) as [<- | Hne].
    - rewrite lookup_insert_eq. split; eauto.
    - rewrite lookup_insert_ne by exact Hne.
      split; [auto |]. intros [-> | Hj]; [contradiction | exact Hj]. }
  rewrite bind_gets.
  unfold isDocumentTranslated, getTranslatedDocument, has_property,
    get_property.
  rewrite (inv_ledger _ _ _ _ _ _ _ _ _ _ _ _ _ HI _ Hfm), Hord.
  unfold key_step in HK.
  destruct (ledger0 !! id s) as [e |] eqn:HL.
  { rewrite bool_decide_eq_true_2 by eauto. cbn [orb].
    exists (set_folderMappings
              (<[id s := mkFolderMapping s (Some (translatedId e))
                           (Some (translatedTitle e))]>) st), ks, created.
    assert (Hclk : closed ks (K (id s))).
    { rewrite HK. right. left. exists (translatedId e).
      split; [reflexivity |]. left. eauto. }
    rewrite HK at 1. split; [reflexivity |].
    split; [| split; [exact Hclk |]].
    - apply (inv_adopt st st); auto; rewrite HK; [discriminate | reflexivity].
    - split; [rewrite HK; discriminate |].
      split; [exists []; rewrite app_nil_r; reflexivity |].
      intros j. apply Hdom. reflexivity. }
  rewrite bool_decide_eq_false_2 by (intros [x Hx]; discriminate).
  cbn [orb].
  destruct (translateTitle_reliable fresh answer time dry force (title s) st)
    as (st1 & Hrun1 & Hc1).
  rewrite (bind_ok _ _ _ _ _ Hrun1).
  pose proof (inv_components _ _ _ _ HI Hc1) as HI1.
  destruct (findFolderByName_reliable fresh answer time target
              (T (title s)) (res ks pk) st1) as (st2 & Hrun2 & Hc2).
  rewrite (bind_ok _ _ _ _ _ Hrun2).
  pose proof (inv_components _ _ _ _ HI1 Hc2) as HI2.
  assert (Hc02 : components st2 = components st) by congruence.
  rewrite (listed_store _ _ _ HI1), find_app.
  assert (Hcase :
    (exists d, Js.find (folder_matches (T (title s)) (res ks pk)) D0 = Some d
               /\ d ∈ D0 /\ K (id s) = Old (id d))
    \/ (Js.find (folder_matches (T (title s)) (res ks pk)) D0 = None
        /\ K (id s) = New (T (title s)) pk)).
  { destruct pk as [| c | t' pk'].
    - cbn in HK |- *.
      destruct (Js.find (folder_matches (T (title s)) None) D0)
        as [d |] eqn:Hfind; [left | right; auto].
      exists d. split; [reflexivity |]. split; [| exact HK].
      apply find_Some in Hfind as (j & Hj & _).
      apply list_elem_of_lookup. eauto.
    - cbn in HK |- *.
      destruct (Js.find (folder_matches (T (title s)) (Some c)) D0)
        as [d |] eqn:Hfind; [left | right; auto].
      exists d. split; [reflexivity |]. split; [| exact HK].
      apply find_Some in Hfind as (j & Hj & _).
      apply list_elem_of_lookup. eauto.
    - right. split; [| exact HK].
      destruct Hcl as [Hcl | [(c & Hcl & _) | Hcl]]; try discriminate.
      apply find_listed_new. right. right. exact Hcl. }
  destruct Hcase as [(d & Hfind & Hd & HKd) | [Hfind HKn]]; rewrite Hfind.
  { exists (set_folderMappings
              (<[id s := mkFolderMapping s (Some (id d))
                           (Some (T (title s)))]>) st2),
           ks, created.
    assert (Hclk : closed ks (K (id s))).
    { rewrite HKd. right. left. exists (id d). split; [reflexivity |].
      right. exists d. split; [apply listed_stored, Hd | reflexivity]. }
    rewrite HKd at 1. split; [reflexivity |].
    split; [| split; [exact Hclk |]].
    - apply (inv_adopt st st2); auto; rewrite HKd;
        [discriminate | reflexivity].
    - split; [rewrite HKd; discriminate |].
      split; [exists []; rewrite app_nil_r; reflexivity |].
      intros j. apply Hdom. unfold components in Hc02. congruence. }
  rewrite (find_created _ _ _ (T (title s)) pk HI Hcl).
  destruct (index_of (New (T (title s)) pk) ks) as [j |] eqn:Hidx; cbn [mbind option_bind].
  { pose proof (index_of_Some _ _ _ Hidx) as Hk.
    destruct (created !! j) as [d |] eqn:Hdj.
    2: { apply lookup_ge_None in Hdj. apply lookup_lt_Some in Hk.
         rewrite (inv_length _ _ _ _ _ _ _ _ _ _ _ _ _ HI) in Hdj. lia. }
    destruct (created_key _ _ _ _ _ HI Hdj)
      as (t' & pk' & _ & _ & Hidd & _ & _ & _).
    exists (set_folderMappings
              (<[id s := mkFolderMapping s (Some (id d))
                           (Some (T (title s)))]>) st2),
           ks, created.
    assert (Hclk : closed ks (K (id s))).
    { rewrite HKn. right. right.
      split; [apply list_elem_of_lookup; eauto | eauto]. }
    assert (Hresk : res ks (K (id s)) = Some (id d)).
    { rewrite HKn. simpl. rewrite Hidx. simpl. rewrite Hidd. reflexivity. }
    rewrite Hresk. split; [reflexivity |].
    split; [| split; [exact Hclk |]].
    - apply (inv_adopt st st2); auto. rewrite HKn. discriminate.
    - split; [rewrite HKn; discriminate |].
      split; [exists []; rewrite app_nil_r; reflexivity |].
      intros j'. apply Hdom. unfold components in Hc02. congruence. }
  destruct (createFolder_reliable fresh answer time dry force target
              answer_nonempty s (T (title s)) (res ks pk) st2 Hord)
    as (content & st3 & Hrun3 & Hc3).
  cbv zeta in Hrun3, Hc3.
  pose proof Hc02 as Hc02'. unfold components in Hc02'.
  injection Hc02' as Htr Hfile Hheap Hsh Hfmeq Hw Hcalls.
  rewrite Htr, Hheap, Hsh, Hfmeq, Hw, Hcalls in Hc3. rewrite Hw in Hrun3.
  apply index_of_None in Hidx.
  exists st3, (ks ++ [New (T (title s)) pk]),
    (created
     ++ [created_document (reliable_server fresh answer time)
           (store_next (world st))
           (folder_request target s (T (title s)) content (res ks pk))]).
  assert (HI3 := inv_create st st3 ks created (id s) _ _ _ _ _
                   (T (title s)) pk HI Hc3 Hfm HKn Hcl Hidx).
  assert (Hresk : res (ks ++ [New (T (title s)) pk]) (K (id s))
                  = Some (fresh (store_next (world st)))).
  { rewrite HKn. simpl. rewrite index_of_app_new by exact Hidx. simpl.
    rewrite (inv_next _ _ _ _ _ _ _ _ _ _ _ _ _ HI). reflexivity. }
  rewrite Hresk. split; [exact Hrun3 |]. split.
  { apply HI3; try reflexivity; [| exact Hpar].
    cbn. apply (resolve_truthy fresh ledger0 stored0 n0); auto. }
  split.
  { rewrite HKn. right. right. split; [apply elem_of_app; right; left | eauto]. }
  split; [rewrite HKn; discriminate |]. split; [eauto |].
  intros j'. unfold components in Hc3.
  injection Hc3 as _ _ _ _ Hfm3 _ _. rewrite Hfm3.
  destruct (decide (id s = j')) as [<- | Hne].
  - rewrite lookup_insert_eq. split; eauto.
  - rewrite lookup_insert_ne by exact Hne.
    split; [auto |]. intros [-> | Hj]; [contradiction | exact Hj].
Qed.

End ResolutionStep.

(** *** One document, then a list of documents *)

Lemma chain_from_middle (h : list DocumentNode) (prev : option nat)
    (l1 l2 : list nat) (b : nat) :
  chain_from h prev (l1 ++ b :: l2) ->
  parent_of h b = from_option Some prev (last l1).
Proof.
  revert prev. induction l1 as [| a l1 IH]; intros prev; simpl.
  - intros [Hb _]. exact Hb.
  - intros [_ Hc]. rewrite (IH _ Hc).
    destruct l1 as [| a' l1]; [reflexivity |].
    change (last (a :: a' :: l1)) with (last (a' :: l1)).
    destruct (last (a' :: l1)) eqn:E; [reflexivity |].
    apply last_None in E. discriminate.
Qed.

Lemma path_documents_snoc (h : list DocumentNode) (l : list nat) (b : nat)
    (n : DocumentNode) :
  h !! b = Some n ->
  path_documents h (l ++ [b]) = path_documents h l ++ [document n].
Proof.
  intros Hb. unfold path_documents. rewrite omap_app. simpl.
  rewrite Hb. reflexivity.
Qed.

Section ResolutionWalk.
Context `{RT : !Js.Runtime}.
Variable fresh : nat -> string.
Variable answer : ChatRequest -> string.
Variable time : string.
Variables dry force : bool.
Variable target : string.
Variable fuel : nat.
Variable docs : list OutlineDocument.
Variable h0 : list DocumentNode.
Variable ledger0 : TranslationRecord.
Variable stored0 : list OutlineDocument.
Variable n0 : nat.
Variable created0 : nat.

Let sh0 := index_docs 0 docs ∅.

Hypothesis Hlinked : linked_heap docs sh0 h0.
Hypothesis ordinary_ids :
  forall doc, doc ∈ docs -> Js.inherited (id doc) = false.
Hypothesis answer_nonempty :
  forall c, Js.truthy_string (answer (ContentPrompt c)) = true.
Hypothesis fresh_inj : forall n m, fresh n = fresh m -> n = m.
Hypothesis fresh_truthy : forall n, Js.truthy_string (fresh n) = true.
Hypothesis old_truthy :
  forall x, old_id ledger0 stored0 x -> Js.truthy_string x = true.
Hypothesis fresh_new :
  forall n, n0 <= n -> ~ old_id ledger0 stored0 (fresh n).
Hypothesis fresh_unused :
  forall n d, n0 <= n -> d ∈ stored0 -> parentDocumentId d <> Some (fresh n).

Local Abbreviation T := (translated_title answer dry force).
Local Abbreviation D0 := (listed_of target stored0).
Local Abbreviation K := (key_of T ledger0 D0 fuel h0 sh0).
Local Abbreviation closed := (closed_key ledger0 stored0).
Local Abbreviation res := (resolve fresh n0).
Local Abbreviation Inv :=
  (resolution_invariant fresh T target fuel h0 sh0 ledger0 stored0 n0
     created0).

Let remote : Remote Store := reliable_remote fresh answer time.
#[local] Existing Instance remote.

Lemma resolveFolders_walk (i : string) (p : list nat) :
  getDocumentPath_on fuel h0 sh0 i = Some p ->
  forall (rest pre : list nat) st ks created,
    pre ++ rest = Js.drop_last p ->
    Inv st ks created ->
    closed ks (path_key T ledger0 D0 (path_documents h0 pre)) ->
    (forall b, last pre = Some b ->
       exists ib, node_id h0 b = Some ib
                  /\ is_Some (folderMappings st !! ib)) ->
    exists st' ks' created' r,
      resolveFolders dry target force rest
        (res ks (path_key T ledger0 D0 (path_documents h0 pre))) st
        = (Ok r, st')
      /\ Inv st' ks' created'
      /\ (exists l, ks' = ks ++ l)
      /\ (forall j, is_Some (folderMappings st' !! j)
                    <-> j ∈ omap (node_id h0) rest
                        \/ is_Some (folderMappings st !! j)).
Proof.
  intros Hp.
  destruct (getDocumentPath_ancestors docs h0 Hlinked _ _ _ Hp)
    as (Hcan & Hnd & Hprefix & _ & Hshape).
  pose proof (path_loop_chain _ _ _ _ Hp) as [Hchain _].
  induction rest as [| b rest IH]; intros pre st ks created Hsplit HI Hcl Hprev.
  { exists st, ks, created, (res ks (path_key T ledger0 D0
                                       (path_documents h0 pre))).
    split; [reflexivity |]. split; [exact HI |].
    split; [exists []; rewrite app_nil_r; reflexivity |].
    intros j. split; [auto |]. intros [Hj | Hj]; [inversion Hj | exact Hj]. }
  destruct Hshape as [-> | (a & Ha & Hpa)].
  { rewrite drop_last_nil in Hsplit. destruct pre; discriminate. }
  assert (Hpb : p !! length pre = Some b).
  { rewrite Hpa, <- Hsplit, <- app_assoc.
    rewrite lookup_app_r by lia. rewrite Nat.sub_diag. reflexivity. }
  assert (Htake : take (S (length pre)) p = pre ++ [b]).
  { rewrite Hpa, <- Hsplit, <- !app_assoc.
    rewrite take_app_ge by lia.
    replace (S (length pre) - length pre) with 1 by lia. reflexivity. }
  destruct (Hcan b) as (n & Hn & Hdn);
    [apply list_elem_of_lookup; eauto |].
  assert (Hid : node_id h0 b = Some (id (document n)))
    by (unfold node_id; rewrite Hn; reflexivity).
  pose proof (Hprefix _ _ _ Hpb Hid) as Hpath. rewrite Htake in Hpath.
  change (index_docs 0 docs ∅) with sh0 in Hpath, Hdn, Ha.
  assert (HK : K (id (document n))
               = key_step T ledger0 D0
                   (path_key T ledger0 D0 (path_documents h0 pre))
                   (document n)).
  { unfold key_of. rewrite Hpath. cbv [default from_option Datatypes.id].
    rewrite (path_documents_snoc _ _ _ _ Hn).
    unfold path_key. rewrite foldl_app. reflexivity. }
  assert (Hparent : forall a' pa,
            sh0 !! id (document n) = Some a' -> child_of h0 a' pa ->
            exists ip, node_id h0 pa = Some ip
                       /\ is_Some (folderMappings st !! ip)).
  { intros a' pa Ha' Hch. assert (a' = b) by congruence. subst a'.
    apply Hprev. unfold child_of in Hch.
    rewrite Hpa, <- Hsplit, <- app_assoc in Hchain.
    rewrite (chain_from_middle _ _ _ _ _ Hchain) in Hch.
    destruct (last pre); [exact Hch | discriminate]. }
  assert (Hord : Js.inherited (id (document n)) = false).
  { apply ordinary_ids. destruct Hlinked as (_ & Hwrap & _).
    apply list_elem_of_lookup. exists b. apply Hwrap, Hn. }
  destruct (resolveFolder_step fresh answer time dry force target fuel h0 sh0
              ledger0 stored0 n0 created0 answer_nonempty fresh_inj
              fresh_truthy old_truthy fresh_new fresh_unused
              st ks created _ (document n) HI Hord Hcl HK Hparent)
    as (st1 & ks1 & created1 & Hrun1 & HI1 & Hcl1 & Hne1 & [l1 Hl1] & Hdom1).
  destruct (IH (pre ++ [b]) st1 ks1 created1) as
    (st2 & ks2 & created2 & r & Hrun2 & HI2 & [l2 Hl2] & Hdom2).
  - rewrite <- app_assoc. exact Hsplit.
  - exact HI1.
  - rewrite (path_documents_snoc _ _ _ _ Hn).
    unfold path_key. rewrite foldl_app. cbn [foldl].
    fold (path_key T ledger0 D0 (path_documents h0 pre)).
    rewrite <- HK. exact Hcl1.
  - intros b' Hb'. rewrite last_snoc in Hb'. injection Hb' as <-.
    exists (id (document n)). split; [exact Hid |]. apply Hdom1. left.
    reflexivity.
  - exists st2, ks2, created2, r. split; [| split; [exact HI2 | split]].
    + cbn [resolveFolders]. rewrite bind_gets.
      rewrite (inv_heap _ _ _ _ _ _ _ _ _ _ _ _ _ HI), Hn.
      rewrite (bind_ok _ _ _ _ _ Hrun1).
      rewrite (path_documents_snoc _ _ _ _ Hn) in Hrun2.
      unfold path_key in Hrun2. rewrite foldl_app in Hrun2.
      cbn [foldl] in Hrun2.
      fold (path_key T ledger0 D0 (path_documents h0 pre)) in Hrun2.
      rewrite <- HK in Hrun2. exact Hrun2.
    + exists (l1 ++ l2). rewrite Hl2, Hl1, app_assoc. reflexivity.
    + intros j. rewrite Hdom2, Hdom1.
      assert (Hom : omap (node_id h0) (b :: rest)
                    = id (document n) :: omap (node_id h0) rest)
        by (simpl; rewrite Hid; reflexivity).
      rewrite Hom, elem_of_cons. tauto.
Qed.


Lemma ensureFolderStructure_run (i : string) st ks created :
  Inv st ks created ->
  is_Some (getDocumentPath_on fuel h0 sh0 i) ->
  exists st' ks' created' r,
    ensureFolderStructure fuel dry i target force st = (Ok r, st')
    /\ Inv st' ks' created'
    /\ (exists l, ks' = ks ++ l)
    /\ (forall j, is_Some (folderMappings st' !! j)
                  <-> j ∈ ancestor_ids fuel h0 sh0 i
                      \/ is_Some (folderMappings st !! j)).
Proof.
  intros HI [p Hp]. unfold ensureFolderStructure, ancestor_ids.
  assert (Hget : getDocumentPath fuel i st = (Ok p, st)).
  { unfold getDocumentPath.
    rewrite (inv_heap _ _ _ _ _ _ _ _ _ _ _ _ _ HI),
      (inv_index _ _ _ _ _ _ _ _ _ _ _ _ _ HI), Hp. reflexivity. }
  rewrite (bind_ok _ _ _ _ _ Hget), Hp. cbv [default from_option Datatypes.id].
  case_bool_decide as Hlen.
  - exists st, ks, created, None. split; [reflexivity |].
    split; [exact HI |]. split; [exists []; rewrite app_nil_r; reflexivity |].
    apply nil_length_inv in Hlen. rewrite Hlen.
    intros j. split; [auto |]. intros [Hj | Hj]; [inversion Hj | exact Hj].
  - destruct (resolveFolders_walk i p Hp (Js.drop_last p) [] st ks created)
      as (st' & ks' & created' & r & Hrun & HI' & Hl & Hdom).
    + reflexivity.
    + exact HI.
    + left. reflexivity.
    + intros b Hb. discriminate.
    + exists st', ks', created', r. auto.
Qed.

Lemma ensureFolderStructures_run (ls : list string) :
  (forall i, i ∈ ls -> is_Some (getDocumentPath_on fuel h0 sh0 i)) ->
  forall st ks created,
    Inv st ks created ->
    exists st' ks' created' rs,
      ensureFolderStructures fuel dry target force ls st = (Ok rs, st')
      /\ Inv st' ks' created'
      /\ (forall j, is_Some (folderMappings st' !! j)
                    <-> (exists i, i ∈ ls /\ j ∈ ancestor_ids fuel h0 sh0 i)
                        \/ is_Some (folderMappings st !! j)).
Proof.
  induction ls as [| i ls IH]; intros Hterm st ks created HI.
  - exists st, ks, created, []. split; [reflexivity |]. split; [exact HI |].
    intros j. split; [auto |].
    intros [(i & Hi & _) | Hj]; [inversion Hi | exact Hj].
  - destruct (ensureFolderStructure_run i st ks created HI)
      as (st1 & ks1 & created1 & r & Hrun1 & HI1 & _ & Hdom1);
      [apply Hterm; left |].
    destruct (IH (fun i' Hi' => Hterm i' (proj2 (elem_of_cons _ _ _) (or_intror Hi')))
                st1 ks1 created1 HI1)
      as (st2 & ks2 & created2 & rs & Hrun2 & HI2 & Hdom2).
    exists st2, ks2, created2, (r :: rs). split; [| split; [exact HI2 |]].
    + cbn [ensureFolderStructures].
      rewrite (bind_ok _ _ _ _ _ Hrun1), (bind_ok _ _ _ _ _ Hrun2).
      reflexivity.
    + intros j. rewrite Hdom2, Hdom1. split.
      * intros [(i' & Hi' & Hj) | [Hj | Hj]]; [| | auto].
        -- left. exists i'. split; [right; exact Hi' | exact Hj].
        -- left. exists i. split; [left | exact Hj].
      * intros [(i' & Hi' & Hj) | Hj]; [| auto].
        apply elem_of_cons in Hi' as [-> | Hi']; [auto |].
        left. exists i'. auto.
Qed.


(** *** What the invariant says of a final state *)

Lemma key_step_New (pk : Key) (s : OutlineDocument) (t : string) (pk' : Key) :
  key_step T ledger0 D0 pk s = New t pk' -> t = T (title s) /\ pk' = pk.
Proof.
  unfold key_step. destruct (ledger0 !! id s); [discriminate |].
  destruct pk as [| c | t0 pk0].
  - destruct (Js.find _ D0); [discriminate |]. intros [= <- <-]. auto.
  - destruct (Js.find _ D0); [discriminate |]. intros [= <- <-]. auto.
  - intros [= <- <-]. auto.
Qed.

Lemma inv_target_key st ks created (j j' : string) (m m' : FolderMapping) :
  Inv st ks created ->
  folderMappings st !! j = Some m -> folderMappings st !! j' = Some m' ->
  targetId m = targetId m' <-> K j = K j'.
Proof.
  intros HI Hj Hj'.
  destruct (inv_mapped _ _ _ _ _ _ _ _ _ _ _ _ _ HI _ _ Hj)
    as (_ & Hcl & Hres).
  destruct (inv_mapped _ _ _ _ _ _ _ _ _ _ _ _ _ HI _ _ Hj')
    as (_ & Hcl' & Hres').
  split.
  - intros Heq. eapply (resolve_inj fresh ledger0 stored0 n0); eauto.
    cbv zeta in *. congruence.
  - intros Heq. cbv zeta in *. rewrite Heq in Hres. congruence.
Qed.

Lemma inv_old_target st ks created (j x : string) (m : FolderMapping) :
  Inv st ks created -> folderMappings st !! j = Some m ->
  targetId m = Some x ->
  old_id ledger0 stored0 x <-> K j = Old x.
Proof.
  intros HI Hj Hx.
  destruct (inv_mapped _ _ _ _ _ _ _ _ _ _ _ _ _ HI _ _ Hj)
    as (Hne & Hcl & Hres).
  cbv zeta in *. rewrite Hx in Hres.
  destruct Hcl as [Hr | [(c & Hc & Hold) | [Hin (t & pk & Hnew)]]].
  - contradiction.
  - rewrite Hc in Hres |- *. injection Hres as ->. split; auto.
  - rewrite Hnew in Hres |- *. simpl in Hres.
    destruct (index_of (New t pk) ks) as [idx |]; [| discriminate].
    injection Hres as Hres. split; [| discriminate].
    intros Hold. exfalso. rewrite <- Hres in Hold.
    apply (fresh_new (n0 + idx)); [lia | exact Hold].
Qed.

Lemma inv_keys_iff st ks created (k : Key) :
  Inv st ks created ->
  k ∈ ks <-> exists j, is_Some (folderMappings st !! j) /\ K j = k
                       /\ exists t pk, k = New t pk.
Proof.
  intros HI. split.
  - intros Hk.
    destruct (inv_keys _ _ _ _ _ _ _ _ _ _ _ _ _ HI k Hk) as (j & Hj & HK).
    exists j. split; [exact Hj |]. split; [exact HK |].
    apply list_elem_of_lookup in Hk as [idx Hidx].
    destruct (created !! idx) as [d |] eqn:Hd.
    + destruct (inv_created _ _ _ _ _ _ _ _ _ _ _ _ _ HI _ _ _ Hidx Hd)
        as (t & pk & -> & _). eauto.
    + apply lookup_ge_None in Hd. apply lookup_lt_Some in Hidx.
      rewrite (inv_length _ _ _ _ _ _ _ _ _ _ _ _ _ HI) in Hd. lia.
  - intros (j & [m Hj] & HK & t & pk & ->).
    destruct (inv_mapped _ _ _ _ _ _ _ _ _ _ _ _ _ HI _ _ Hj)
      as (_ & Hcl & _).
    cbv zeta in Hcl. rewrite HK in Hcl.
    destruct Hcl as [Hr | [(c & Hc & _) | [Hin _]]];
      [discriminate | discriminate | exact Hin].
Qed.

Lemma inv_mirrors st ks created :
  Inv st ks created -> mirrors_source T ledger0 stored0 st.
Proof.
  intros HI j m Hj.
  rewrite (inv_heap _ _ _ _ _ _ _ _ _ _ _ _ _ HI),
    (inv_index _ _ _ _ _ _ _ _ _ _ _ _ _ HI).
  destruct (inv_mapped _ _ _ _ _ _ _ _ _ _ _ _ _ HI _ _ Hj)
    as (Hne & Hcl & Hres).
  cbv zeta in *.
  destruct Hcl as [Hr | [(c & Hc & Hold) | [Hin (t & pk & Hnew)]]].
  { contradiction. }
  { left. rewrite Hc in Hres. exists c. auto. }
  right. rewrite Hnew in Hres. simpl in Hres.
  destruct (index_of (New t pk) ks) as [idx |] eqn:Hidx.
  2: { apply index_of_None in Hidx. rewrite Hnew in Hin. contradiction. }
  simpl in Hres. symmetry in Hres. apply index_of_Some in Hidx.
  destruct (created !! idx) as [d |] eqn:Hd.
  2: { apply lookup_ge_None in Hd. apply lookup_lt_Some in Hidx.
       rewrite (inv_length _ _ _ _ _ _ _ _ _ _ _ _ _ HI) in Hd. lia. }
  destruct (inv_created _ _ _ _ _ _ _ _ _ _ _ _ _ HI _ _ _ Hidx Hd)
    as (t' & pk' & Heq & _ & Hid & Ht & Hp & _).
  injection Heq as <- <-.
  exists d. split.
  { rewrite (inv_docs _ _ _ _ _ _ _ _ _ _ _ _ _ HI).
    apply elem_of_app. right. apply list_elem_of_lookup. eauto. }
  split; [congruence |].
  (* the path of [j] *)
  destruct (getDocumentPath_on fuel h0 sh0 j) as [p |] eqn:Hp0.
  2: { exfalso. apply Hne. unfold key_of. rewrite Hp0. reflexivity. }
  destruct (getDocumentPath_ancestors docs h0 Hlinked _ _ _ Hp0)
    as (Hcan & _ & Hprefix & _ & Hshape).
  pose proof (path_loop_chain _ _ _ _ Hp0) as [Hchain _].
  destruct Hshape as [-> | (a & Ha & Hpa)].
  { exfalso. apply Hne. unfold key_of. rewrite Hp0. reflexivity. }
  change (index_docs 0 docs ∅) with sh0 in Ha.
  remember (Js.drop_last p) as q eqn:Hq0. clear Hq0.
  destruct (canonical_index docs h0 Hlinked _ _ Ha) as [(n & Hn & _) Hida].
  assert (Hjn : id (document n) = j).
  { unfold node_id in Hida. rewrite Hn in Hida. injection Hida as Hida.
    exact Hida. }
  assert (HK : K j = key_step T ledger0 D0
                       (path_key T ledger0 D0 (path_documents h0 q))
                       (document n)).
  { unfold key_of. rewrite Hp0. cbv [default from_option Datatypes.id].
    rewrite Hpa at 1. rewrite (path_documents_snoc _ _ _ _ Hn).
    unfold path_key. rewrite foldl_app. reflexivity. }
  rewrite Hnew in HK. symmetry in HK. apply key_step_New in HK as [Htt Hpk].
  split.
  { unfold source_title. rewrite Ha, Hn. cbn. congruence. }
  rewrite Hp, Hpk. unfold source_parent. rewrite Ha.
  rewrite Hpa in Hchain.
  pose proof (chain_from_middle _ _ _ [] _ Hchain) as Hpar.
  rewrite Hpar.
  destruct (last q) as [b |] eqn:Hlast; cbv [from_option].
  2: { apply last_None in Hlast. rewrite Hlast. reflexivity. }
  destruct (inv_parent _ _ _ _ _ _ _ _ _ _ _ _ _ HI j a b)
    as (ip & Hip & [mp Hmp]); [eauto | exact Ha | |].
  { unfold child_of. rewrite Hpar. reflexivity. }
  rewrite Hip. cbn. rewrite Hmp. cbn.
  destruct (inv_mapped _ _ _ _ _ _ _ _ _ _ _ _ _ HI _ _ Hmp)
    as (_ & _ & Hresp).
  cbv zeta in Hresp. rewrite <- Hresp. f_equal.
  (* the path of the parent is the path of [j] without its last node *)
  apply last_Some in Hlast as [q' Hq].
  assert (Hpb : p !! length q' = Some b).
  { rewrite Hpa, Hq, <- app_assoc. rewrite lookup_app_r by lia.
    rewrite Nat.sub_diag. reflexivity. }
  pose proof (Hprefix _ _ _ Hpb Hip) as Hpp.
  change (index_docs 0 docs ∅) with sh0 in Hpp.
  unfold key_of. rewrite Hpp. cbv [default from_option Datatypes.id].
  do 2 f_equal. rewrite Hpa, Hq, <- app_assoc.
  rewrite take_app_ge by lia.
  replace (S (length q') - length q') with 1 by lia. reflexivity.
Qed.


(** The place of a mapped folder is one step from the place of its source
    parent, which is mapped too. *)
Lemma mapped_key st ks created (j : string) (m : FolderMapping) :
  Inv st ks created -> folderMappings st !! j = Some m ->
  exists a n,
    sh0 !! j = Some a /\ h0 !! a = Some n /\ id (document n) = j
    /\ K j = key_step T ledger0 D0
               match source_parent h0 sh0 j with
               | Some ip => K ip
               | None => Root
               end (document n)
    /\ forall ip, source_parent h0 sh0 j = Some ip ->
         is_Some (folderMappings st !! ip).
Proof.
  intros HI Hj.
  destruct (inv_mapped _ _ _ _ _ _ _ _ _ _ _ _ _ HI _ _ Hj) as (Hne & _ & _).
  cbv zeta in Hne.
  destruct (getDocumentPath_on fuel h0 sh0 j) as [p |] eqn:Hp0.
  2: { exfalso. apply Hne. unfold key_of. rewrite Hp0. reflexivity. }
  destruct (getDocumentPath_ancestors docs h0 Hlinked _ _ _ Hp0)
    as (Hcan & _ & Hprefix & _ & Hshape).
  pose proof (path_loop_chain _ _ _ _ Hp0) as [Hchain _].
  destruct Hshape as [-> | (a & Ha & Hpa)].
  { exfalso. apply Hne. unfold key_of. rewrite Hp0. reflexivity. }
  change (index_docs 0 docs ∅) with sh0 in Ha.
  remember (Js.drop_last p) as q eqn:Hq0. clear Hq0.
  destruct (canonical_index docs h0 Hlinked _ _ Ha) as [(n & Hn & _) Hida].
  assert (Hjn : id (document n) = j).
  { unfold node_id in Hida. rewrite Hn in Hida. injection Hida as Hida.
    exact Hida. }
  assert (HK : K j = key_step T ledger0 D0
                       (path_key T ledger0 D0 (path_documents h0 q))
                       (document n)).
  { unfold key_of. rewrite Hp0. cbv [default from_option Datatypes.id].
    rewrite Hpa at 1. rewrite (path_documents_snoc _ _ _ _ Hn).
    unfold path_key. rewrite foldl_app. reflexivity. }
  exists a, n. split; [exact Ha |]. split; [exact Hn |].
  split; [exact Hjn |].
  unfold source_parent. rewrite Ha. rewrite Hpa in Hchain.
  pose proof (chain_from_middle _ _ _ [] _ Hchain) as Hpar.
  rewrite Hpar.
  destruct (last q) as [b |] eqn:Hlast; cbv [from_option].
  2: { apply last_None in Hlast. rewrite Hlast in HK.
       split; [exact HK | discriminate]. }
  destruct (inv_parent _ _ _ _ _ _ _ _ _ _ _ _ _ HI j a b)
    as (ip & Hip & Hmp); [eauto | exact Ha | |].
  { unfold child_of. rewrite Hpar. reflexivity. }
  rewrite Hip. split; [| intros ip' [= <-]; exact Hmp].
  rewrite HK. f_equal.
  apply last_Some in Hlast as [q' Hq].
  assert (Hpb : p !! length q' = Some b).
  { rewrite Hpa, Hq, <- app_assoc. rewrite lookup_app_r by lia.
    rewrite Nat.sub_diag. reflexivity. }
  pose proof (Hprefix _ _ _ Hpb Hip) as Hpp.
  change (index_docs 0 docs ∅) with sh0 in Hpp.
  unfold key_of. rewrite Hpp. cbv [default from_option Datatypes.id].
  do 2 f_equal. rewrite Hpa, Hq, <- app_assoc.
  rewrite take_app_ge by lia.
  replace (S (length q') - length q') with 1 by lia. reflexivity.
Qed.

Lemma inv_follows_ledger st ks created :
  Inv st ks created -> follows_ledger ledger0 st.
Proof.
  intros HI j m e Hj He.
  destruct (mapped_key _ _ _ _ _ HI Hj) as (a & n & _ & _ & Hjn & HK & _).
  destruct (inv_mapped _ _ _ _ _ _ _ _ _ _ _ _ _ HI _ _ Hj)
    as (_ & _ & Hres).
  cbv zeta in Hres. rewrite <- Hres, HK. unfold key_step.
  rewrite Hjn, He. reflexivity.
Qed.

Lemma inv_parent_target st ks created (j : string) (m : FolderMapping) :
  Inv st ks created -> folderMappings st !! j = Some m ->
  parent_target st j
  = res ks match source_parent h0 sh0 j with
           | Some ip => K ip
           | None => Root
           end
  /\ closed ks match source_parent h0 sh0 j with
               | Some ip => K ip
               | None => Root
               end.
Proof.
  intros HI Hj. unfold parent_target.
  rewrite (inv_heap _ _ _ _ _ _ _ _ _ _ _ _ _ HI),
    (inv_index _ _ _ _ _ _ _ _ _ _ _ _ _ HI).
  destruct (mapped_key _ _ _ _ _ HI Hj) as (_ & _ & _ & _ & _ & _ & Hpar).
  destruct (source_parent h0 sh0 j) as [ip |].
  - destruct (Hpar ip eq_refl) as [mp Hmp]. rewrite Hmp. cbn.
    destruct (inv_mapped _ _ _ _ _ _ _ _ _ _ _ _ _ HI _ _ Hmp)
      as (_ & Hcl & Hres).
    cbv zeta in *. split; [symmetry; exact Hres | exact Hcl].
  - split; [reflexivity | left; reflexivity].
Qed.

Lemma inv_adopts_existing st ks created :
  Inv st ks created -> adopts_existing T ledger0 stored0 target st.
Proof.
  intros HI j m t Hj Hled Ht Hcur twin [d (Hd & Hcoll & Htitle & Hparent)].
  destruct (mapped_key _ _ _ _ _ HI Hj) as (a & n & Ha & Hn & Hjn & HK & _).
  destruct (inv_parent_target _ _ _ _ _ HI Hj) as [Hpt Hclp].
  destruct (inv_mapped _ _ _ _ _ _ _ _ _ _ _ _ _ HI _ _ Hj)
    as (_ & _ & Hres).
  cbv zeta in Hres.
  rewrite (inv_heap _ _ _ _ _ _ _ _ _ _ _ _ _ HI),
    (inv_index _ _ _ _ _ _ _ _ _ _ _ _ _ HI) in Ht.
  unfold source_title in Ht. rewrite Ha, Hn in Ht. cbn in Ht.
  injection Ht as <-.
  set (pk := match source_parent h0 sh0 j with
             | Some ip => K ip
             | None => Root
             end) in *.
  assert (Hplace : current_of pk = parent_target st j
                   /\ forall t' pk', pk <> New t' pk').
  { destruct Hclp as [Hr | [(c & Hc & Hold) | [Hin (t' & pk' & Hnew)]]].
    - rewrite Hr in Hpt |- *. split; [symmetry; exact Hpt | discriminate].
    - rewrite Hc in Hpt |- *. split; [symmetry; exact Hpt | discriminate].
    - exfalso. rewrite Hnew in Hpt. simpl in Hpt.
      destruct (index_of (New t' pk') ks) as [idx |] eqn:Hidx.
      2: { apply index_of_None in Hidx. rewrite Hnew in Hin. contradiction. }
      simpl in Hpt. destruct Hcur as [Hcur | (x & Hcur & Hold)];
        rewrite Hcur in Hpt; [discriminate |].
      injection Hpt as ->. apply (fresh_new (n0 + idx)); [lia | exact Hold]. }
  destruct Hplace as [Hcurrent Hold].
  assert (Hfind : exists d',
            Js.find (folder_matches (T (title (document n)))
                       (parent_target st j)) D0 = Some d').
  { destruct (Js.find _ D0) as [d' |] eqn:Hfind; [eauto |]. exfalso.
    rewrite find_None in Hfind.
    assert (Hin : d ∈ D0)
      by (unfold listed_of; apply list_elem_of_filter; auto).
    specialize (Hfind d Hin).
    assert (folder_matches (T (title (document n))) (parent_target st j) d
            = true) by (apply folder_matches_true; auto).
    congruence. }
  destruct Hfind as [d' Hfind].
  assert (HKd : K j = Old (id d')).
  { rewrite HK. unfold key_step. rewrite Hjn, Hled.
    rewrite <- Hcurrent in Hfind.
    destruct pk as [| c | t' pk'].
    - rewrite Hfind. reflexivity.
    - rewrite Hfind. reflexivity.
    - destruct (Hold t' pk' eq_refl). }
  apply find_Some in Hfind as (idx & Hidx & Hmatch & _).
  apply folder_matches_true in Hmatch as [Ht' Hp'].
  assert (Hin' : d' ∈ D0) by (apply list_elem_of_lookup; eauto).
  unfold listed_of in Hin'. apply list_elem_of_filter in Hin' as [Hc' Hs'].
  exists d'. split; [repeat split; assumption |].
  rewrite <- Hres, HKd. reflexivity.
Qed.

Lemma inv_shares_siblings st ks created :
  Inv st ks created -> shares_siblings T ledger0 st.
Proof.
  intros HI j j' m m' t t' Hj Hj' Hled Hled' Hpar Ht Ht' Htt.
  rewrite (inv_heap _ _ _ _ _ _ _ _ _ _ _ _ _ HI),
    (inv_index _ _ _ _ _ _ _ _ _ _ _ _ _ HI) in Hpar, Ht, Ht'.
  destruct (mapped_key _ _ _ _ _ HI Hj) as (a & n & Ha & Hn & Hjn & HK & _).
  destruct (mapped_key _ _ _ _ _ HI Hj')
    as (a' & n' & Ha' & Hn' & Hjn' & HK' & _).
  unfold source_title in Ht, Ht'. rewrite Ha, Hn in Ht. rewrite Ha', Hn' in Ht'.
  cbn in Ht, Ht'. injection Ht as <-. injection Ht' as <-.
  apply (inv_target_key _ _ _ _ _ _ _ HI Hj Hj').
  rewrite HK, HK', <- Hpar. unfold key_step.
  rewrite Hjn, Hjn', Hled, Hled', Htt. reflexivity.
Qed.

Lemma inv_creates_destinations st ks created :
  Inv st ks created -> creates_destinations ledger0 stored0 created0 st.
Proof.
  intros HI. exists created.
  split; [exact (inv_docs _ _ _ _ _ _ _ _ _ _ _ _ _ HI) |].
  split.
  { rewrite (inv_calls _ _ _ _ _ _ _ _ _ _ _ _ _ HI),
      (inv_length _ _ _ _ _ _ _ _ _ _ _ _ _ HI). reflexivity. }
  assert (Hid : forall idx d, created !! idx = Some d ->
            id d = fresh (n0 + idx)).
  { intros idx d Hd.
    destruct (created_key fresh answer dry force target fuel h0 sh0 ledger0
                stored0 n0 created0 _ _ _ _ _ HI Hd)
      as (t & pk & _ & _ & Hidd & _). exact Hidd. }
  split.
  { apply NoDup_alt. intros idx idx' x Hidx Hidx'.
    rewrite list_lookup_fmap in Hidx, Hidx'.
    destruct (created !! idx) as [d |] eqn:Hd; [| discriminate].
    destruct (created !! idx') as [d' |] eqn:Hd'; [| discriminate].
    cbn in Hidx, Hidx'. injection Hidx as <-. injection Hidx' as Heq.
    rewrite (Hid _ _ Hd), (Hid _ _ Hd') in Heq.
    apply fresh_inj in Heq. lia. }
  intros d Hd. apply list_elem_of_lookup in Hd as [idx Hidx].
  pose proof (Hid _ _ Hidx) as Hidd. split.
  { rewrite Hidd. apply fresh_new. lia. }
  destruct (created_key fresh answer dry force target fuel h0 sh0 ledger0
              stored0 n0 created0 _ _ _ _ _ HI Hidx)
    as (t & pk & Hk & _).
  destruct (inv_keys _ _ _ _ _ _ _ _ _ _ _ _ _ HI (New t pk))
    as (i & [m Hm] & HKi); [apply list_elem_of_lookup; eauto |].
  exists i, m. split; [exact Hm |].
  destruct (inv_mapped _ _ _ _ _ _ _ _ _ _ _ _ _ HI _ _ Hm)
    as (_ & _ & Hres).
  cbv zeta in Hres. rewrite <- Hres, HKi. simpl.
  rewrite (index_of_lookup _ _ _ (inv_nodup _ _ _ _ _ _ _ _ _ _ _ _ _ HI) Hk).
  simpl. rewrite Hidd. reflexivity.
Qed.

Lemma keys_bound st ks created :
  Inv st ks created -> length ks <= size (dom (folderMappings st)).
Proof.
  intros HI.
  assert (Hsel : forall l, NoDup l -> (forall k, k ∈ l -> k ∈ ks) ->
            exists js : list string,
              NoDup js /\ length js = length l
              /\ Forall2 (fun j k => K j = k
                                     /\ is_Some (folderMappings st !! j))
                   js l).
  { induction l as [| k l IH]; intros Hnd Hsub.
    - exists []. split; [constructor |]. split; [reflexivity | constructor].
    - apply NoDup_cons in Hnd as [Hk Hnd].
      destruct IH as (js & Hndj & Hlen & Hall);
        [exact Hnd | intros k' Hk'; apply Hsub; right; exact Hk' |].
      destruct (inv_keys _ _ _ _ _ _ _ _ _ _ _ _ _ HI k) as (j & Hj & HKj);
        [apply Hsub; left |].
      exists (j :: js). split; [| split; [simpl; lia | constructor; auto]].
      apply NoDup_cons. split; [| exact Hndj].
      intros Hin. apply Hk.
      apply list_elem_of_lookup in Hin as [idx Hidx].
      destruct (Forall2_lookup_l _ _ _ _ _ Hall Hidx) as (k' & Hk' & HK' & _).
      apply list_elem_of_lookup. exists idx. congruence. }
  destruct (Hsel ks (inv_nodup _ _ _ _ _ _ _ _ _ _ _ _ _ HI) (fun k H => H))
    as (js & Hnd & Hlen & Hall).
  rewrite <- Hlen, <- (size_list_to_set (C := gset string) js Hnd).
  apply subseteq_size. intros j Hj. apply elem_of_list_to_set in Hj.
  apply list_elem_of_lookup in Hj as [idx Hidx].
  destruct (Forall2_lookup_l _ _ _ _ _ Hall Hidx) as (k' & _ & _ & Hm).
  apply elem_of_dom. exact Hm.
Qed.

Lemma runs_agree st1 ks1 created1 st2 ks2 created2 :
  Inv st1 ks1 created1 -> Inv st2 ks2 created2 ->
  (forall j, is_Some (folderMappings st1 !! j)
             <-> is_Some (folderMappings st2 !! j)) ->
  (forall j j' m1 m1' m2 m2',
     folderMappings st1 !! j = Some m1 ->
     folderMappings st1 !! j' = Some m1' ->
     folderMappings st2 !! j = Some m2 ->
     folderMappings st2 !! j' = Some m2' ->
     targetId m1 = targetId m1' <-> targetId m2 = targetId m2')
  /\ (forall j m1 m2 x,
        folderMappings st1 !! j = Some m1 ->
        folderMappings st2 !! j = Some m2 ->
        old_id ledger0 stored0 x ->
        targetId m1 = Some x \/ targetId m2 = Some x ->
        targetId m1 = targetId m2)
  /\ length (creations (calls st1)) = length (creations (calls st2)).
Proof.
  intros HI1 HI2 Hdom. split; [| split].
  - intros j j' m1 m1' m2 m2' H1 H1' H2 H2'.
    rewrite (inv_target_key _ _ _ _ _ _ _ HI1 H1 H1').
    rewrite (inv_target_key _ _ _ _ _ _ _ HI2 H2 H2'). reflexivity.
  - intros j m1 m2 x H1 H2 Hold Hx.
    destruct (inv_mapped _ _ _ _ _ _ _ _ _ _ _ _ _ HI1 _ _ H1)
      as (_ & _ & Hres1).
    destruct (inv_mapped _ _ _ _ _ _ _ _ _ _ _ _ _ HI2 _ _ H2)
      as (_ & _ & Hres2).
    cbv zeta in *. destruct Hx as [Hx | Hx].
    + apply (inv_old_target _ _ _ _ _ _ HI1 H1 Hx) in Hold.
      rewrite Hold in Hres2. simpl in Hres2. congruence.
    + apply (inv_old_target _ _ _ _ _ _ HI2 H2 Hx) in Hold.
      rewrite Hold in Hres1. simpl in Hres1. congruence.
  - rewrite (inv_calls _ _ _ _ _ _ _ _ _ _ _ _ _ HI1),
      (inv_calls _ _ _ _ _ _ _ _ _ _ _ _ _ HI2).
    f_equal. apply Permutation_length. apply NoDup_Permutation.
    + exact (inv_nodup _ _ _ _ _ _ _ _ _ _ _ _ _ HI1).
    + exact (inv_nodup _ _ _ _ _ _ _ _ _ _ _ _ _ HI2).
    + intros k. rewrite (inv_keys_iff _ _ _ k HI1), (inv_keys_iff _ _ _ k HI2).
      split; intros (j & Hj & Hrest); exists j; (split; [apply Hdom, Hj | auto]).
Qed.

End ResolutionWalk.


Lemma ticks_inj (n m : nat) : ticks n = ticks m -> n = m.
Proof.
  revert m. induction n as [| n IH]; intros [| m]; simpl; try discriminate.
  - reflexivity.
  - intros [= H]. f_equal. apply IH. exact H.
Qed.


(** The scenario of the specification: resolving [C] creates the folders
    for [A] then [B]; resolving [D] afterwards creates nothing. *)
Example lore_resolution :
  let RT := example_runtime in
  let R := server_remote example_server in
  let run :=
    @ensureFolderStructures Store R RT 10 false "dst" false ["C"; "D"]
      (built_state lore_documents_with_D) in
  run.1 = Ok [Some "n'"; Some "n'"]
  /\ creations (calls run.2)
     = [ {| req_title := "Lore"; req_text := ""; req_emoji := None;
            req_collectionId := "dst"; req_parentDocumentId := None |};
         {| req_title := "Characters"; req_text := ""; req_emoji := None;
            req_collectionId := "dst"; req_parentDocumentId := Some "n" |} ].
Proof. vm_compute. split; reflexivity. Qed.


(** An ancestor whose identifier the ledger inherits is taken as resolved
    by the ledger, to no folder at all: nothing is created for
    [constructor], whose mapping has no target, and its child folder is
    created at the top of the destination. *)
Example inherited_ancestor_resolution :
  let RT := example_runtime in
  let R := server_remote example_server in
  let docs :=
    [ mkdoc "constructor" "Lore" "" None "src" "1000";
      mkdoc "B" "Characters" "" (Some "constructor") "src" "1000";
      mkdoc "C" "Arthur" "Once" (Some "B") "src" "1000" ] in
  let run :=
    @ensureFolderStructure Store R RT 10 false "C" "dst" false
      (built_state docs) in
  run.1 = Ok (Some "n")
  /\ targetId <$> folderMappings run.2 !! "constructor" = Some None
  /\ creations (calls run.2)
     = [ {| req_title := "Characters"; req_text := ""; req_emoji := None;
            req_collectionId := "dst"; req_parentDocumentId := None |} ].
Proof. vm_compute. repeat split; reflexivity. Qed.

(* ===================================================================== *)
(** * Further properties of the services *)
(* ===================================================================== *)

(** ** Running a computation *)

Lemma bind_Ok_inv {W A B} (m : M W A) (k : A -> M W B) (st st' : State W)
    (b : B) :
  bind m k st = (Ok b, st') ->
  exists a st1, m st = (Ok a, st1) /\ k a st1 = (Ok b, st').
Proof.
  unfold bind. destruct (m st) as [[a | e |] st1]; try discriminate. eauto.
Qed.

Lemma try_catch_Ok_inv {W A} (m : M W A) (h : Error -> M W A)
    (st st' : State W) (a : A) :
  try_catch m h st = (Ok a, st') ->
  m st = (Ok a, st') \/ exists e st1, m st = (Throw e, st1)
                                      /\ h e st1 = (Ok a, st').
Proof.
  unfold try_catch. destruct (m st) as [[x | e |] st1]; try discriminate;
    eauto.
Qed.

(** ** The two gates of [main] *)

Lemma checkSpendingLimit_confirmCostWithUser (estimate : CostEstimate)
    (maxSpending : option Js.number) :
  checkSpendingLimit (estimatedCostUsd estimate) maxSpending
  = confirmCostWithUser estimate maxSpending.
Proof.
  unfold checkSpendingLimit, confirmCostWithUser.
  destruct maxSpending as [m |]; [| reflexivity]. simpl.
  destruct (Js.truthy_number m); reflexivity.
Qed.

Section SecondGate.
Context {W : Type} `{!Remote W} `{!Js.Runtime} `{!Pricing}.

(** X1.  [checkSpendingLimit] gives the verdict [confirmCostWithUser] gave on
    the same estimate and ceiling, so the second gate of [main] never
    fires: no invocation ends with the spending-limit cancellation. *)
Theorem spending_limit_cancellation_unreachable :
  (forall (estimate : CostEstimate) (maxSpending : option Js.number),
     checkSpendingLimit (estimatedCostUsd estimate) maxSpending
     = confirmCostWithUser estimate maxSpending)
  /\ (forall (fuel stack : nat) (config : Config) (st : State W),
        (main fuel stack config st).1 <> Ok CancelledBySpendingLimit).
Proof.
  split; [apply checkSpendingLimit_confirmCostWithUser |].
  intros fuel stack config st Hend.
  destruct (main fuel stack config st) as [r st'] eqn:Hmain.
  simpl in Hend. subst r. unfold main in Hmain.
  apply try_catch_Ok_inv in Hmain as [Hbody | (e & st1 & _ & Hh)];
    [| discriminate].
  apply bind_Ok_inv in Hbody as ([] & st1 & _ & Hbody).
  apply bind_Ok_inv in Hbody as ([] & st2 & _ & Hbody).
  apply bind_Ok_inv in Hbody as (documents & st3 & _ & Hbody).
  destruct (bool_decide (length documents = 0)); [discriminate |].
  apply bind_Ok_inv in Hbody as (rootNodes & st4 & _ & Hbody).
  apply bind_Ok_inv in Hbody as ([] & st5 & _ & Hbody).
  apply bind_Ok_inv in Hbody as (tr & st6 & _ & Hbody).
  destruct (bool_decide (length (filter _ documents) = 0)); [discriminate |].
  rewrite checkSpendingLimit_confirmCostWithUser in Hbody.
  destruct (confirmCostWithUser _ _); simpl in Hbody; [| discriminate].
  apply bind_Ok_inv in Hbody as (stats & st7 & _ & Hbody). discriminate.
Qed.

End SecondGate.

(** ** [shouldProceedWithCost] against [confirmCostWithUser] *)

(** X2.  For a ceiling that is absent, [NaN], zero, positive or
    [+Infinity], [shouldProceedWithCost] gives the verdict of
    [confirmCostWithUser]; under a negative ceiling they part on an
    estimate of zero, which [shouldProceedWithCost] lets through before it
    looks at the ceiling. *)
Theorem shouldProceedWithCost_confirmCostWithUser :
  (forall (estimate : CostEstimate) (maxSpending : option Js.number),
     (forall q, maxSpending = Some (Js.Fin q) -> (0 <= q)%Q) ->
     maxSpending <> Some Js.NegInf ->
     shouldProceedWithCost estimate maxSpending
     = confirmCostWithUser estimate maxSpending)
  /\ (forall (estimate : CostEstimate) (cost ceiling : Q),
        estimatedCostUsd estimate = Js.Fin cost ->
        (cost == 0)%Q -> (ceiling < 0)%Q ->
        shouldProceedWithCost estimate (Some (Js.Fin ceiling)) = true
        /\ confirmCostWithUser estimate (Some (Js.Fin ceiling)) = false).
Proof.
  split.
  - intros estimate maxSpending Hpos Hinf.
    unfold shouldProceedWithCost, confirmCostWithUser.
    destruct (JsLib.strict_eq _ _) eqn:Hz; [| reflexivity].
    destruct maxSpending as [m |]; [| reflexivity].
    destruct (estimatedCostUsd estimate) as [| | cost |]; try discriminate.
    simpl in Hz. apply Qeq_bool_iff in Hz.
    destruct m as [| | q |]; try reflexivity; [congruence |].
    destruct (Js.truthy_number (Js.Fin q)); [| reflexivity].
    cbn [andb]. specialize (Hpos q eq_refl).
    replace (Js.gt (Js.Fin cost) (Js.Fin q)) with false; [reflexivity |].
    symmetry. apply gt_Fin_false. rewrite Hz. exact Hpos.
  - intros estimate cost ceiling Hcost Hz Hneg.
    unfold shouldProceedWithCost, confirmCostWithUser. rewrite Hcost.
    split.
    + simpl. apply Qeq_bool_iff in Hz. rewrite Hz. reflexivity.
    + assert (Ht : Js.truthy_number (Js.Fin ceiling) = true).
      { simpl. apply negb_true_iff. apply not_true_iff_false.
        intros Hq. apply Qeq_bool_iff in Hq. rewrite Hq in Hneg.
        exact (Qlt_irrefl _ Hneg). }
      rewrite Ht. cbn [andb].
      replace (Js.gt (Js.Fin cost) (Js.Fin ceiling)) with true; [reflexivity |].
      symmetry. apply gt_Fin. rewrite Hz. exact Hneg.
Qed.

Lemma shouldProceedWithCost_confirmCostWithUser_witness :
  shouldProceedWithCost
    {| totalDocuments := 2; estimatedCostUsd := Js.Fin 3 |}
    (Some (Js.Fin (5 # 2)))
  = confirmCostWithUser
      {| totalDocuments := 2; estimatedCostUsd := Js.Fin 3 |}
      (Some (Js.Fin (5 # 2)))
  /\ shouldProceedWithCost
       {| totalDocuments := 0; estimatedCostUsd := Js.Fin 0 |}
       (Some (Js.Fin (-1))) = true.
Proof.
  split.
  - apply (proj1 shouldProceedWithCost_confirmCostWithUser).
    + intros q [= <-]. discriminate.
    + discriminate.
  - apply (proj2 shouldProceedWithCost_confirmCostWithUser _ 0%Q (-1)%Q);
      reflexivity.
Defined.

(** ** The token estimate *)

Lemma ceil_quarter (n : nat) :
  JsLib.ceil (inject_Z (Z.of_nat n) / CHARS_PER_TOKEN) = (n + 3) / 4.
Proof.
  unfold JsLib.ceil, CHARS_PER_TOKEN, Qceiling.
  assert (Hq : (- (inject_Z (Z.of_nat n) / 4)
                == inject_Z (- Z.of_nat n) / inject_Z 4)%Q).
  { unfold Qeq. simpl. lia. }
  rewrite (Qfloor_comp _ _ Hq), <- Zdiv_Qdiv.
  apply Nat2Z.inj. rewrite Nat2Z.inj_div. 
  pose proof (Z.div_mod (- Z.of_nat n) 4 ltac:(lia)).
  pose proof (Z.mod_pos_bound (- Z.of_nat n) 4 ltac:(lia)).
  pose proof (Z.div_mod (Z.of_nat (n + 3)) 4 ltac:(lia)).
  pose proof (Z.mod_pos_bound (Z.of_nat (n + 3)) 4 ltac:(lia)).
  change (Z.of_nat 4) with 4%Z. lia.
Qed.

Lemma totalTokens_fold (documents : list OutlineDocument) (sum : nat) :
  foldl (fun sum doc =>
           sum + estimateInputTokens doc + estimateOutputTokens doc)
    sum documents
  = sum + totalTokens documents.
Proof.
  unfold totalTokens. revert sum.
  induction documents as [| doc documents IH]; intros sum; simpl; [lia |].
  rewrite IH, (IH (_ + _)). lia.
Qed.

(** X3.  The token estimate of a batch is the sum of the estimates of its
    parts, and it is 150 tokens for each document plus half a token for
    each UTF-16 code unit of text and title, up to the rounding of one and
    a half tokens a document. *)
Theorem totalTokens_estimate :
  forall documents more : list OutlineDocument,
    totalTokens (documents ++ more) = totalTokens documents + totalTokens more
    /\ 300 * length documents + total_characters documents
       <= 2 * totalTokens documents
       <= 303 * length documents + total_characters documents.
Proof.
  intros documents more. split.
  - unfold totalTokens at 1. rewrite foldl_app, !totalTokens_fold. lia.
  - clear more. induction documents as [| doc documents IH].
    + cbv. lia.
    + assert (Hcons : totalTokens (doc :: documents)
                      = estimateInputTokens doc + estimateOutputTokens doc
                        + totalTokens documents).
      { unfold totalTokens at 1. cbn [foldl]. apply totalTokens_fold. }
      rewrite Hcons. unfold total_characters in *.
      cbn [fmap list_fmap sum_list sum_list_with length].
      unfold Datatypes.id in *.
      unfold estimateInputTokens, estimateOutputTokens,
        SYSTEM_PROMPT_TOKENS, TRANSLATION_OVERHEAD_TOKENS.
      rewrite ceil_quarter.
      pose proof (Nat.div_mod_eq (contentLength doc + 3) 4).
      pose proof (Nat.mod_upper_bound (contentLength doc + 3) 4 ltac:(lia)).
      lia.
Qed.

(** ** Round trips of the ledger *)

Section LedgerRoundTrip.
Context {W : Type} `{!Remote W} `{!Js.Runtime}.

(** X4.  When the file can be written, for an identifier that is not the
    name of a member of [Object.prototype]: after [addTranslation] the
    document is reported as translated, its entry names the translated
    document, and the file holds the ledger as it is in memory; a
    [removeTranslation] of the same identifier then leaves the ledger
    without that entry, again as the file holds it, which is the ledger
    before the two calls when the document had no entry. *)
Theorem ledger_round_trip :
  (forall tr w, exists w', writeFileSync_remote tr w = (Ok tt, w')) ->
  forall (st : State W) (originalDoc translatedDoc : OutlineDocument),
  Js.inherited (id originalDoc) = false ->
  exists (st1 st2 : State W) (entry : TranslatedDocument),
    addTranslation originalDoc translatedDoc st = (Ok tt, st1)
    /\ isDocumentTranslated (translations st1) (id originalDoc) = true
    /\ getTranslatedDocument (translations st1) (id originalDoc)
       = Some (Entry entry)
    /\ translatedId entry = id translatedDoc
    /\ originalUpdatedAt entry = updatedAt originalDoc
    /\ loadTranslations (file st1) = translations st1
    /\ removeTranslation (id originalDoc) st1 = (Ok tt, st2)
    /\ isDocumentTranslated (translations st2) (id originalDoc) = false
    /\ getTranslatedDocument (translations st2) (id originalDoc) = None
    /\ translations st2 = delete (id originalDoc) (translations st)
    /\ loadTranslations (file st2) = translations st2
    /\ (translations st !! id originalDoc = None ->
        translations st2 = translations st).
Proof.
  intros Hwrite st originalDoc translatedDoc Hord.
  pose proof (addTranslation_run originalDoc translatedDoc st) as Hadd.
  destruct (now_remote (world st)) as [stamp w1]. cbv zeta in Hadd.
  set (entry := ledger_entry originalDoc translatedDoc stamp) in *.
  rewrite !(set_property_ordinary _ _ _ Hord) in Hadd.
  set (tr := <[id originalDoc := entry]> (translations st)) in *.
  destruct (Hwrite tr w1) as [w2 Hw]. rewrite Hw in Hadd.
  match type of Hadd with _ = (_, ?s) => set (st1 := s) in * end.
  assert (Htr1 : translations st1 = tr) by reflexivity.
  assert (Hl1 : translations st1 !! id originalDoc = Some entry).
  { rewrite Htr1. apply lookup_insert_eq. }
  pose proof (removeTranslation_run (id originalDoc) st1) as Hrem.
  rewrite (has_property_own _ _ _ Hl1) in Hrem. cbv zeta in Hrem.
  match type of Hrem with
  | context [writeFileSync_remote ?r ?w] =>
      destruct (Hwrite r w) as [w3 Hw3]; rewrite Hw3 in Hrem
  end.
  match type of Hrem with _ = (_, ?s) => set (st2 := s) in * end.
  assert (Htr2 : translations st2 = delete (id originalDoc) (translations st)).
  { change (translations st2) with (delete (id originalDoc) tr).
    unfold tr. apply delete_insert_eq. }
  assert (Hl2 : translations st2 !! id originalDoc = None)
    by (rewrite Htr2; apply lookup_delete_eq).
  exists st1, st2, entry.
  split; [exact Hadd |].
  split; [eapply has_property_own, Hl1 |].
  split; [apply get_property_own, Hl1 |].
  split; [reflexivity |]. split; [reflexivity |].
  split; [reflexivity |]. split; [exact Hrem |].
  split; [apply has_property_false; auto |].
  split; [apply get_property_None; assumption |].
  split; [exact Htr2 |]. split; [reflexivity |].
  intros Hnone. rewrite Htr2. apply delete_id. exact Hnone.
Qed.

End LedgerRoundTrip.

Lemma ledger_round_trip_witness :
  let R := server_remote example_server in
  let st := initial_state Missing empty_store in
  let d := mkdoc "d1" "The title" "This is the body" None "src" "1000" in
  let t := mkdoc "n" "The title" "This is the body" None "dst" "5000" in
  exists (st1 st2 : State Store) (entry : TranslatedDocument),
    @addTranslation Store R d t st = (Ok tt, st1)
    /\ translations st1 !! "d1" = Some entry
    /\ translatedId entry = "n"
    /\ @removeTranslation Store R "d1" st1 = (Ok tt, st2)
    /\ translations st2 = ∅.
Proof.
  intros R st d t.
  destruct (@ledger_round_trip Store R
              (fun tr w => ex_intro _ w eq_refl) st d t eq_refl)
    as (st1 & st2 & entry & Hadd & _ & Hget & Hid & _ & _ & Hrem & _ & _ & _
        & _ & Hback).
  exists st1, st2, entry.
  split; [exact Hadd |]. split.
  { unfold getTranslatedDocument, get_property in Hget.
    change (id d) with "d1" in Hget.
    destruct (translations st1 !! "d1") as [e |];
      [injection Hget as ->; reflexivity | discriminate]. }
  split; [exact Hid |].
  split; [exact Hrem |]. apply Hback. reflexivity.
Defined.

(** ** The statistics of the ledger *)

From Stdlib Require Import Sorted.

Section LedgerStatistics.
Context `{!Js.Runtime}.

Lemma insert_by_date_perm (a : TranslatedDocument)
    (l : list TranslatedDocument) :
  insert_by_date a l ≡ₚ a :: l.
Proof.
  induction l as [| b l IH]; [reflexivity |]. cbn [insert_by_date].
  destruct (sorts_after a b); [| reflexivity].
  rewrite IH. apply perm_swap.
Qed.

Lemma sort_by_date_perm (l : list TranslatedDocument) :
  foldr insert_by_date [] l ≡ₚ l.
Proof.
  induction l as [| a l IH]; [reflexivity |]. cbn [foldr].
  rewrite insert_by_date_perm, IH. reflexivity.
Qed.

Lemma sorts_after_false (a b : TranslatedDocument) :
  valid_time a -> valid_time b -> sorts_after a b = false -> not_after a b.
Proof.
  intros [ta Ha] [tb Hb] Hs ta' tb' Ha' Hb'. unfold sorts_after in Hs.
  rewrite Ha, Hb in Hs. apply gt_Fin_false in Hs. congruence.
Qed.

Lemma sorts_after_true (a b : TranslatedDocument) :
  sorts_after a b = true -> not_after b a.
Proof.
  intros Hs tb ta Hb Ha. unfold sorts_after in Hs. rewrite Ha, Hb in Hs.
  apply gt_Fin in Hs. apply Qlt_le_weak, Hs.
Qed.

Lemma not_after_trans (a b c : TranslatedDocument) :
  valid_time b -> not_after a b -> not_after b c -> not_after a c.
Proof.
  intros [tb Hb] Hab Hbc ta tc Ha Hc.
  eapply Qle_trans; [apply (Hab ta tb) | apply (Hbc tb tc)]; assumption.
Qed.

Lemma insert_by_date_sorted (a : TranslatedDocument)
    (l : list TranslatedDocument) :
  valid_time a -> Forall valid_time l ->
  StronglySorted not_after l -> StronglySorted not_after (insert_by_date a l).
Proof.
  intros Ha Hvalid Hsorted. induction Hsorted as [| b l Hs IH Hb].
  - repeat constructor.
  - apply Forall_cons in Hvalid as [Hvb Hvl]. cbn [insert_by_date].
    destruct (sorts_after a b) eqn:Hab.
    + constructor; [apply IH, Hvl |].
      rewrite insert_by_date_perm. constructor; [| exact Hb].
      apply sorts_after_true, Hab.
    + pose proof (sorts_after_false _ _ Ha Hvb Hab) as Hle.
      constructor; [constructor; assumption |].
      constructor; [exact Hle |].
      eapply Forall_impl; [exact Hb |]. intros c Hbc.
      eapply not_after_trans; eauto.
Qed.

Lemma sort_by_date_sorted (l : list TranslatedDocument) :
  Forall valid_time l -> StronglySorted not_after (foldr insert_by_date [] l).
Proof.
  induction l as [| a l IH]; intros Hvalid; [constructor |].
  apply Forall_cons in Hvalid as [Ha Hl]. cbn [foldr].
  apply insert_by_date_sorted; [exact Ha | | apply IH, Hl].
  rewrite sort_by_date_perm. exact Hl.
Qed.

Lemma sorted_last (l : list TranslatedDocument) (y : TranslatedDocument) :
  StronglySorted not_after l -> last l = Some y ->
  Forall valid_time l -> Forall (fun e => not_after e y) l.
Proof.
  intros Hsorted. induction Hsorted as [| a l Hs IH Ha]; intros Hlast Hvalid;
    [constructor |].
  apply Forall_cons in Hvalid as [Hva Hvl].
  destruct l as [| b l'].
  - injection Hlast as <-. constructor; [| constructor].
    intros t t' Ht Ht'. rewrite Ht in Ht'. injection Ht' as <-.
    apply Qle_refl.
  - change (last (a :: b :: l')) with (last (b :: l')) in Hlast.
    constructor; [| apply IH; assumption].
    rewrite Forall_forall in Ha. apply Ha.
    eapply last_Some_elem_of. exact Hlast.
Qed.

Lemma sort_by_date_valid (l : list TranslatedDocument) :
  Forall valid_time l -> sort_by_date l = Some (foldr insert_by_date [] l).
Proof.
  intros Hvalid. unfold sort_by_date.
  replace (forallb _ l) with true; [reflexivity |].
  symmetry. apply forallb_forall. intros e He.
  apply list_elem_of_In in He.
  rewrite Forall_forall in Hvalid. destruct (Hvalid e He) as [t ->].
  reflexivity.
Qed.

(** X25.  On an empty ledger [getStats] reports no translation and no
    date.  On a ledger whose recorded times are valid dates it reports the
    number of entries, and as oldest and newest translation the recorded
    time of an entry that none was recorded before, and of one that none
    was recorded after. *)
Theorem getStats_reports_the_extremes :
  getStats [] = Some {| totalTranslations := 0; oldestTranslation := None;
                        newestTranslation := None |}
  /\ forall values : list TranslatedDocument,
       values <> [] ->
       Forall valid_time values ->
       exists oldest newest : TranslatedDocument,
         oldest ∈ values /\ newest ∈ values
         /\ (forall entry, entry ∈ values ->
               not_after oldest entry /\ not_after entry newest)
         /\ getStats values
            = Some {| totalTranslations := length values;
                      oldestTranslation :=
                        translatedAt_or_null (Some oldest);
                      newestTranslation :=
                        translatedAt_or_null (Some newest) |}
         /\ forall ledger : TranslationRecord,
              values ≡ₚ (map_to_list ledger).*2 ->
              length values = size ledger.
Proof.
  split; [reflexivity |]. intros values Hne Hvalid.
  pose proof (sort_by_date_perm values) as Hperm.
  pose proof (sort_by_date_sorted values Hvalid) as Hsorted.
  unfold getStats. rewrite (sort_by_date_valid _ Hvalid).
  rewrite bool_decide_eq_false_2
    by (destruct values; [congruence | discriminate]).
  cbn [mbind option_bind].
  set (sorted := foldr insert_by_date [] values) in *.
  assert (Hvs : Forall valid_time sorted) by (rewrite Hperm; exact Hvalid).
  destruct sorted as [| oldest rest] eqn:Hs.
  { apply Permutation_nil_l in Hperm. congruence. }
  destruct (last (oldest :: rest)) as [newest |] eqn:Hlast.
  2: { apply last_None in Hlast. discriminate. }
  exists oldest, newest.
  assert (Hin : forall e, e ∈ values <-> e ∈ oldest :: rest).
  { intros e. rewrite Hperm. reflexivity. }
  split; [apply Hin; left |].
  split; [apply Hin; eapply last_Some_elem_of; exact Hlast |].
  split; [| split].
  - intros entry He. apply Hin in He. split.
    + apply StronglySorted_inv in Hsorted as [_ Hall].
      apply elem_of_cons in He as [-> | He].
      * intros t t' Ht Ht'. rewrite Ht in Ht'. injection Ht' as <-.
        apply Qle_refl.
      * rewrite Forall_forall in Hall. apply Hall, He.
    + pose proof (sorted_last _ _ Hsorted Hlast Hvs) as Hall.
      rewrite Forall_forall in Hall. apply Hall, He.
  - rewrite last_lookup in Hlast. cbn [length] in *.
    replace (S (length rest) - 1) with (pred (S (length rest))) by lia.
    rewrite Hlast. reflexivity.
  - intros ledger Hvalues. apply Permutation_length in Hvalues.
    rewrite Hvalues, length_fmap. apply length_map_to_list.
Qed.

End LedgerStatistics.

Lemma getStats_reports_the_extremes_witness :
  let H := example_runtime in
  let values := [mkentry "a" "x" "3000"; mkentry "b" "y" "1000";
                 mkentry "c" "z" "2000"] in
  exists oldest newest : TranslatedDocument,
    oldest ∈ values /\ newest ∈ values
    /\ getStats values
       = Some {| totalTranslations := 3;
                 oldestTranslation := translatedAt_or_null (Some oldest);
                 newestTranslation := translatedAt_or_null (Some newest) |}.
Proof.
  intros H values.
  destruct (proj2 (@getStats_reports_the_extremes H) values)
    as (oldest & newest & Hold & Hnew & _ & Hrun & _).
  - discriminate.
  - repeat constructor; eexists; reflexivity.
  - exists oldest, newest. split; [exact Hold |]. split; [exact Hnew |].
    exact Hrun.
Defined.

(** Three entries recorded at 3000, 1000 and 2000. *)
Example getStats_of_three_entries :
  let H := example_runtime in
  getStats [mkentry "a" "x" "3000"; mkentry "b" "y" "1000";
            mkentry "c" "z" "2000"]
  = Some {| totalTranslations := 3; oldestTranslation := Some "1000";
            newestTranslation := Some "3000" |}.
Proof. vm_compute. reflexivity. Qed.

(** ** The forest [buildHierarchy] links *)

Section Forest.
Variable docs : list OutlineDocument.
Hypothesis Hnd : NoDup (map id docs).
Let dm := index_docs 0 docs ∅.

(** The address the second pass links the [k]-th node under. *)
Let pidx (k : nat) : option nat :=
  doc ← docs !! k;
  if Js.truthy_ostring (parentDocumentId doc)
  then dm !! default "" (parentDocumentId doc) else None.

Let node_at (m k : nat) (doc : OutlineDocument) : DocumentNode :=
  {| document := doc;
     children := filter (fun j => pidx j = Some k) (seq 0 m);
     parent := if decide (k < m) then pidx k else None |}.

Lemma dm_position (k : nat) (doc : OutlineDocument) :
  docs !! k = Some doc -> dm !! id doc = Some k.
Proof.
  intros Hk.
  destruct (proj1 (dm_known docs (id doc))) as [a Ha].
  { exists doc. split; [apply list_elem_of_lookup; eauto | reflexivity]. }
  fold dm in Ha. rewrite Ha. f_equal.
  destruct (dm_lookup _ _ _ Ha) as (doc' & Ha' & Hid).
  apply (NoDup_lookup _ a k (id doc) Hnd);
    change (map id docs) with (id <$> docs);
    rewrite list_lookup_fmap; [rewrite Ha' | rewrite Hk]; simpl; congruence.
Qed.

Lemma pidx_bound (k pa : nat) : pidx k = Some pa -> pa < length docs.
Proof.
  unfold pidx. destruct (docs !! k) as [doc |]; [| discriminate]. simpl.
  destruct (Js.truthy_ostring _); [| discriminate].
  intros Hp. destruct (dm_lookup _ _ _ Hp) as (dp & Hdp & _).
  eapply lookup_lt_Some; eauto.
Qed.

Lemma second_pass_step_position (h : list DocumentNode) (roots : list nat)
    (m : nat) (doc : OutlineDocument) :
  docs !! m = Some doc ->
  second_pass_step dm (h, roots) doc
  = match pidx m with
    | Some pa =>
        (update_node m (set_parent pa) (update_node pa (push_child m) h),
         roots)
    | None => (h, roots ++ [m])
    end.
Proof.
  intros Hm. unfold second_pass_step, pidx.
  rewrite (dm_position _ _ Hm), Hm. simpl.
  destruct (Js.truthy_ostring (parentDocumentId doc)); [| reflexivity].
  destruct (dm !! _); reflexivity.
Qed.

Lemma node_at_S (m k : nat) (doc : OutlineDocument) :
  node_at (S m) k doc
  = {| document := doc;
       children := children (node_at m k doc)
                   ++ (if decide (pidx m = Some k) then [m] else []);
       parent := if decide (k = m) then pidx m
                 else parent (node_at m k doc) |}.
Proof.
  unfold node_at. cbn [children parent]. f_equal.
  - rewrite seq_S, filter_app. reflexivity.
  - repeat case_decide; subst; try reflexivity; lia.
Qed.

Lemma second_pass_forest (rest : list OutlineDocument) :
  forall (m : nat) (h : list DocumentNode) (roots : list nat),
    drop m docs = rest ->
    m <= length docs ->
    length h = length docs ->
    (forall k doc, docs !! k = Some doc -> h !! k = Some (node_at m k doc)) ->
    roots = filter (fun j => pidx j = None) (seq 0 m) ->
    let '(h', roots') := foldl (second_pass_step dm) (h, roots) rest in
    length h' = length docs
    /\ (forall k doc, docs !! k = Some doc ->
          h' !! k = Some (node_at (length docs) k doc))
    /\ roots' = filter (fun j => pidx j = None) (seq 0 (length docs)).
Proof.
  induction rest as [| doc rest IH];
    intros m h roots Hdrop Hle Hlen Hnodes Hroots.
  - assert (m = length docs) as ->.
    { apply (f_equal length) in Hdrop. rewrite length_drop in Hdrop.
      simpl in Hdrop. lia. }
    cbn [foldl]. auto.
  - assert (Hm : docs !! m = Some doc).
    { rewrite <- (Nat.add_0_r m), <- lookup_drop, Hdrop. reflexivity. }
    pose proof (lookup_lt_Some _ _ _ Hm) as Hlt.
    cbn [foldl]. rewrite (second_pass_step_position _ _ _ _ Hm).
    assert (Hrest : drop (S m) docs = rest).
    { rewrite (drop_S _ _ _ Hm) in Hdrop. congruence. }
    destruct (pidx m) as [pa |] eqn:Hp.
    + apply (IH (S m)); [exact Hrest | lia | | |].
      * rewrite !update_node_length. exact Hlen.
      * intros k d Hk. rewrite !update_node_lookup, (Hnodes k d Hk).
        rewrite node_at_S, Hp.
        destruct (decide (m = k)) as [Hmk | Hmk];
          destruct (decide (pa = k)) as [Hpk | Hpk]; simpl;
          repeat case_decide; simplify_eq; try lia;
          try rewrite app_nil_r; try reflexivity.
        all: unfold node_at, push_child, set_parent;
          cbn [document children parent]; repeat case_decide; try lia;
          try rewrite app_nil_r; reflexivity.
      * rewrite seq_S, filter_app. cbn [Nat.add].
        rewrite filter_cons, filter_nil, Hp.
        rewrite decide_False by discriminate. rewrite app_nil_r.
        exact Hroots.
    + apply (IH (S m)); [exact Hrest | lia | exact Hlen | |].
      * intros k d Hk. rewrite (Hnodes k d Hk), node_at_S, Hp.
        rewrite decide_False by discriminate. rewrite app_nil_r.
        f_equal. unfold node_at. cbn [children parent].
        f_equal. repeat case_decide; subst; try reflexivity; lia.
      * rewrite seq_S, filter_app. cbn [Nat.add].
        rewrite filter_cons, filter_nil.
        rewrite decide_True by exact Hp. rewrite Hroots. reflexivity.
Qed.

Lemma buildHierarchy_forest :
  let '(roots, h, sh) := buildHierarchy_on docs [] ∅ in
  sh = dm
  /\ length h = length docs
  /\ (forall k doc, docs !! k = Some doc ->
        h !! k = Some (node_at (length docs) k doc))
  /\ roots = filter (fun j => pidx j = None) (seq 0 (length docs)).
Proof.
  rewrite buildHierarchy_on_fresh. cbn zeta. fold dm.
  pose proof (second_pass_forest docs 0 (map fresh_node docs) []) as H.
  destruct (foldl _ _ docs) as [h roots]. simpl.
  split; [reflexivity |]. apply H; try reflexivity; try lia.
  - apply length_map.
  - intros k doc Hk. rewrite list_lookup_fmap, Hk. reflexivity.
Qed.

Lemma pidx_declared (k pa : nat) (doc : OutlineDocument) :
  docs !! k = Some doc ->
  pidx k = Some pa
  <-> exists dp, docs !! pa = Some dp
                 /\ parentDocumentId doc = Some (id dp)
                 /\ Js.truthy_string (id dp) = true.
Proof.
  intros Hk. unfold pidx. rewrite Hk. simpl. split.
  - destruct (parentDocumentId doc) as [p |]; simpl; [| discriminate].
    destruct (Js.truthy_string p) eqn:Ht; [| discriminate].
    intros Hp. destruct (dm_lookup _ _ _ Hp) as (dp & Hdp & <-). eauto.
  - intros (dp & Hdp & -> & Ht). simpl. rewrite Ht.
    apply dm_position, Hdp.
Qed.

Lemma forest_shape :
  let '(roots, h, sh) := buildHierarchy_on docs [] ∅ in
  sh = dm
  /\ length h = length docs
  /\ (forall k doc, docs !! k = Some doc -> document <$> h !! k = Some doc)
  /\ (forall k, parent_of h k = pidx k)
  /\ (forall k pa, parent_of h k = Some pa -> pa < length docs)
  /\ (forall k node,
        h !! k = Some node ->
        children node
        = filter (fun j => parent_of h j = Some k) (seq 0 (length docs)))
  /\ roots = filter (fun j => parent_of h j = None) (seq 0 (length docs)).
Proof.
  pose proof buildHierarchy_forest as H.
  destruct (buildHierarchy_on docs [] ∅) as [[roots h] sh].
  destruct H as (Hsh & Hlen & Hnodes & Hroots).
  assert (Hparent : forall k, parent_of h k = pidx k).
  { intros k. unfold parent_of. destruct (docs !! k) as [doc |] eqn:Hk.
    - rewrite (Hnodes k doc Hk). simpl.
      rewrite decide_True by (eapply lookup_lt_Some; eauto). reflexivity.
    - rewrite (proj2 (lookup_ge_None h k)).
      + unfold pidx. rewrite Hk. reflexivity.
      + rewrite Hlen. apply lookup_ge_None. exact Hk. }
  split; [exact Hsh |]. split; [exact Hlen |]. split.
  { intros k doc Hk. rewrite (Hnodes k doc Hk). reflexivity. }
  split; [exact Hparent |]. split.
  { intros k pa. rewrite Hparent. apply pidx_bound. }
  split.
  - intros k node Hn.
    destruct (docs !! k) as [doc |] eqn:Hk.
    + rewrite (Hnodes k doc Hk) in Hn. injection Hn as <-. simpl.
      apply list_filter_iff. intros j. rewrite Hparent. reflexivity.
    + apply lookup_ge_None in Hk. apply lookup_lt_Some in Hn. lia.
  - rewrite Hroots. apply list_filter_iff. intros j.
    rewrite Hparent. reflexivity.
Qed.

(** X5.  For documents with distinct identifiers, [buildHierarchy] makes
    the [k]-th node of the heap the node of the [k]-th document, indexed
    under its identifier; the node has a parent exactly when the document
    declares a non-empty parent identifier that some document of the input
    carries, and the parent is then that document's node; the children of
    a node are the nodes that have it as parent, in input order; and the
    roots returned are the nodes without parent, in input order. *)
Theorem buildHierarchy_links :
  let '(roots, h, sh) := buildHierarchy_on docs [] ∅ in
  length h = length docs
  /\ (forall k doc,
        docs !! k = Some doc ->
        sh !! id doc = Some k /\ document <$> h !! k = Some doc)
  /\ (forall k doc pa,
        docs !! k = Some doc ->
        parent_of h k = Some pa
        <-> exists dp, docs !! pa = Some dp
                       /\ parentDocumentId doc = Some (id dp)
                       /\ Js.truthy_string (id dp) = true)
  /\ (forall k node,
        h !! k = Some node ->
        children node
        = filter (fun j => parent_of h j = Some k) (seq 0 (length docs)))
  /\ roots = filter (fun j => parent_of h j = None) (seq 0 (length docs)).
Proof.
  pose proof forest_shape as H.
  destruct (buildHierarchy_on docs [] ∅) as [[roots h] sh].
  destruct H as (-> & Hlen & Hdoc & Hparent & _ & Hchildren & Hroots).
  split; [exact Hlen |]. split.
  { intros k doc Hk. split; [apply dm_position, Hk | apply Hdoc, Hk]. }
  split; [| split; assumption].
  intros k doc pa Hk. rewrite Hparent. apply pidx_declared, Hk.
Qed.

End Forest.

Lemma buildHierarchy_links_witness :
  let '(roots, h, sh) := buildHierarchy_on lore_documents_with_D [] ∅ in
  length h = 4
  /\ roots = filter (fun j => parent_of h j = None) (seq 0 4).
Proof.
  pose proof (buildHierarchy_links lore_documents_with_D) as H.
  destruct (buildHierarchy_on lore_documents_with_D [] ∅) as [[roots h] sh].
  destruct H as (Hlen & _ & _ & _ & Hroots).
  - apply (bool_decide_unpack _). vm_compute. reflexivity.
  - split; [exact Hlen | exact Hroots].
Defined.

(** ** The cache of the folder resolver *)

(** Composition of [preserves] facts, the side conditions left to [tac]. *)
Ltac preserve_by tac :=
  repeat
    (match goal with
     | |- preserves _ (ret _) => apply preserves_ret
     | |- preserves _ (throw _) => apply preserves_throw
     | |- preserves _ hang => apply preserves_hang
     | |- preserves _ (gets _) => apply preserves_gets
     | |- preserves _ (request _ _) => apply preserves_request
     | |- preserves _ (modify _) => apply preserves_modify
     | |- preserves _ (bind _ _) => apply preserves_bind
     | |- preserves _ (try_catch _ _) => apply preserves_try_catch
     | |- preserves _ (promise_all2 _ _) => apply preserves_promise_all2
     | |- forall _, preserves _ _ => intros ?
     | |- preserves _ (if ?b then _ else _) => destruct b
     | |- preserves _ (match ?x with _ => _ end) => destruct x
     end;
     try solve [tac]).

Section WorldOnly.
Context {W : Type} `{!Remote W} `{!Js.Runtime}.

Lemma world_only_refl (st : State W) : world_only st st.
Proof. exists (calls st), (world st). destruct st. reflexivity. Qed.

Lemma world_only_trans (st1 st2 st3 : State W) :
  world_only st1 st2 -> world_only st2 st3 -> world_only st1 st3.
Proof. intros (c & w & ->) (c' & w' & ->). exists c', w'. reflexivity. Qed.

Lemma world_only_set (st : State W) (c : list Call) (w : W) :
  world_only st (set_world c w st).
Proof. exists c, w. reflexivity. Qed.

Local Ltac world_side :=
  intros;
  first [ apply world_only_refl
        | eapply world_only_trans; eassumption
        | apply world_only_set ].

Lemma translateTitle_world dry title forceTranslate :
  preserves world_only (@translateTitle W _ _ dry title forceTranslate).
Proof. unfold translateTitle. preserve_by world_side. Qed.

Lemma translateToEnglish_world dry content title force :
  preserves world_only (@translateToEnglish W _ _ dry content title force).
Proof. unfold translateToEnglish. preserve_by world_side. Qed.

Lemma findFolderByName_world name collection parentId :
  preserves world_only (@findFolderByName W _ name collection parentId).
Proof.
  unfold findFolderByName, getDocumentsByCollection. preserve_by world_side.
Qed.

Lemma createDocument_world req : preserves world_only (@createDocument W _ req).
Proof. unfold createDocument. preserve_by world_side. Qed.

Lemma getDocumentInfo_world documentId :
  preserves world_only (@getDocumentInfo W _ documentId).
Proof. unfold getDocumentInfo. preserve_by world_side. Qed.

End WorldOnly.

Section Cache.
Context {W : Type} `{!Remote W} `{!Js.Runtime}.

Lemma extends_refl (st : State W) : extends st st.
Proof. repeat split; reflexivity. Qed.

Lemma extends_trans (st1 st2 st3 : State W) :
  extends st1 st2 -> extends st2 st3 -> extends st1 st3.
Proof.
  intros (Hh1 & Hs1 & Hm1 & Ht1) (Hh2 & Hs2 & Hm2 & Ht2).
  split; [congruence |]. split; [congruence |].
  split; etrans; eassumption.
Qed.

Lemma world_only_extends (st st' : State W) :
  world_only st st' -> extends st st'.
Proof. intros (c & w & ->). repeat split; reflexivity. Qed.

Lemma extends_insert_mapping (st : State W) (i : string) (m : FolderMapping) :
  folderMappings st !! i = None ->
  extends st (set_folderMappings (<[i := m]>) st).
Proof.
  intros Hnone. split; [reflexivity |]. split; [reflexivity |].
  split; [| reflexivity]. cbn. apply insert_subseteq, Hnone.
Qed.

Lemma extends_grows (st st' : State W) : extends st st' -> grows st st'.
Proof.
  intros (Hh & Hs & Hm & Ht). split; [exact Hh |]. split; [exact Hs |].
  split.
  - intros i m Hi. eapply lookup_weaken; eauto.
  - intros i [e Hi]. exists e. eapply lookup_weaken; eauto.
Qed.

Lemma grows_refl (st : State W) : grows st st.
Proof. apply extends_grows, extends_refl. Qed.

Lemma grows_trans (st1 st2 st3 : State W) :
  grows st1 st2 -> grows st2 st3 -> grows st1 st3.
Proof.
  intros (Hh1 & Hs1 & Hm1 & Ht1) (Hh2 & Hs2 & Hm2 & Ht2).
  split; [congruence |]. split; [congruence |]. split; auto.
Qed.

Lemma world_only_grows (st st' : State W) : world_only st st' -> grows st st'.
Proof. intros Hw. apply extends_grows, world_only_extends, Hw. Qed.

(** [addTranslation] assigns to the ledger entry of the original document
    and changes nothing else of the ledger, the cache and the hierarchy. *)
Lemma addTranslation_entry (originalDoc translatedDoc : OutlineDocument)
    (st : State W) r st' :
  addTranslation originalDoc translatedDoc st = (r, st') ->
  heap st' = heap st
  /\ sourceHierarchy st' = sourceHierarchy st
  /\ folderMappings st' = folderMappings st
  /\ exists entry,
       translations st'
       = set_property (id originalDoc) entry (translations st).
Proof.
  rewrite addTranslation_run.
  destruct (now_remote (world st)) as [stamp w1]. cbv zeta.
  match goal with
  | |- context [writeFileSync_remote ?tr ?w] =>
      destruct (writeFileSync_remote tr w) as [[[] | e |] w2]
  end; intros [= _ <-]; repeat split; eexists; reflexivity.
Qed.

Lemma addTranslation_grows (originalDoc translatedDoc : OutlineDocument)
    (st : State W) r st' :
  addTranslation originalDoc translatedDoc st = (r, st') -> grows st st'.
Proof.
  intros Hadd.
  destruct (addTranslation_entry _ _ _ _ _ Hadd)
    as (Hh & Hs & Hm & entry & Ht).
  split; [exact Hh |]. split; [exact Hs |]. split.
  - intros i m Hi. rewrite Hm. exact Hi.
  - intros i Hi. rewrite Ht. apply set_property_kept, Hi.
Qed.

Lemma addTranslation_extends (originalDoc translatedDoc : OutlineDocument)
    (st : State W) r st' :
  translations st !! id originalDoc = None ->
  addTranslation originalDoc translatedDoc st = (r, st') ->
  extends st st' /\ folderMappings st' = folderMappings st.
Proof.
  intros Hnone Hadd.
  destruct (addTranslation_entry _ _ _ _ _ Hadd)
    as (Hh & Hs & Hm & entry & Ht).
  split; [| exact Hm].
  split; [exact Hh |]. split; [exact Hs |]. split.
  - rewrite Hm. reflexivity.
  - rewrite Ht. apply set_property_extends, Hnone.
Qed.

Lemma createFolder_resolved dry target force sourceDoc name cur
    (st : State W) r st' :
  folderMappings st !! id sourceDoc = None ->
  translations st !! id sourceDoc = None ->
  createFolder dry target force sourceDoc name cur st = (r, st') ->
  resolved sourceDoc st r st'.
Proof.
  intros Hnone Hledger. unfold createFolder, bind at 1.
  match goal with
  | |- context [(if ?b then ?m1 else ?m2) st] =>
      destruct ((if b then m1 else m2) st) as [[content | e |] st1] eqn:H1;
      assert (Hw1 : world_only st st1)
        by (destruct b;
            [eapply translateToEnglish_world; exact H1
            | injection H1 as _ <-; apply world_only_refl])
  end.
  2, 3: intros [= <- <-]; split;
    [apply world_only_extends, Hw1 | intros next; discriminate].
  unfold bind at 1.
  match goal with
  | |- context [createDocument ?req st1] =>
      destruct (createDocument req st1) as [[newFolder | e |] st2] eqn:H2;
      pose proof (createDocument_world _ _ _ _ H2) as Hw2
  end.
  2, 3: intros [= <- <-]; split;
    [apply world_only_extends; eapply world_only_trans; eauto
    | intros next; discriminate].
  assert (Hg2 : extends st st2)
    by (apply world_only_extends; eapply world_only_trans; eauto).
  assert (Hn2 : folderMappings st2 !! id sourceDoc = None
                /\ translations st2 !! id sourceDoc = None).
  { destruct Hw1 as (c1 & w1 & ->), Hw2 as (c2 & w2 & ->). auto. }
  destruct Hn2 as [Hn2 Hl2].
  unfold bind at 1.
  destruct (addTranslation sourceDoc newFolder st2) as [[[] | e |] st3] eqn:H3;
    destruct (addTranslation_extends _ _ _ _ _ Hl2 H3) as [Hg3 Hm3].
  2, 3: intros [= <- <-]; split;
    [eapply extends_trans; eauto | intros next; discriminate].
  unfold bind, modify, ret. intros [= <- <-]. split.
  - eapply extends_trans; [exact Hg2 |]. eapply extends_trans; [exact Hg3 |].
    apply extends_insert_mapping. rewrite Hm3. exact Hn2.
  - intros next [= <-]. eexists. split; [apply lookup_insert_eq |].
    reflexivity.
Qed.

Lemma resolveFolder_resolved dry target force cur sourceDoc
    (st : State W) r st' :
  resolveFolder dry target force cur sourceDoc st = (r, st') ->
  resolved sourceDoc st r st'.
Proof.
  unfold resolveFolder. rewrite bind_gets.
  destruct (folderMappings st !! id sourceDoc) as [m |] eqn:Hm.
  { intros [= <- <-]. split; [apply extends_refl |].
    intros next [= <-]. eauto. }
  rewrite bind_gets.
  destruct (if isDocumentTranslated _ _ then _ else _) as [e |] eqn:Hled.
  { unfold bind, modify, ret. intros [= <- <-]. split.
    - apply extends_insert_mapping, Hm.
    - intros next [= <-]. eexists. split; [apply lookup_insert_eq |].
      reflexivity. }
  assert (Hledger : translations st !! id sourceDoc = None).
  { unfold isDocumentTranslated, getTranslatedDocument in Hled.
    destruct (translations st !! id sourceDoc) as [e |] eqn:He;
      [| reflexivity].
    rewrite (has_property_own _ _ _ He), (get_property_own _ _ _ He) in Hled.
    discriminate. }
  unfold bind at 1.
  destruct (translateTitle dry (title sourceDoc) force st)
    as [[name | e |] st1] eqn:H1;
    pose proof (translateTitle_world _ _ _ _ _ _ H1) as Hw1.
  2, 3: intros [= <- <-]; split;
    [apply world_only_extends, Hw1 | intros next; discriminate].
  unfold bind at 1.
  destruct (findFolderByName name target cur st1)
    as [[existingFolder | e |] st2] eqn:H2;
    pose proof (findFolderByName_world _ _ _ _ _ _ H2) as Hw2.
  2, 3: intros [= <- <-]; split;
    [apply world_only_extends; eapply world_only_trans; eauto
    | intros next; discriminate].
  assert (Hg2 : extends st st2)
    by (apply world_only_extends; eapply world_only_trans; eauto).
  assert (Hn2 : folderMappings st2 !! id sourceDoc = None
                /\ translations st2 !! id sourceDoc = None).
  { destruct Hw1 as (c1 & w1 & ->), Hw2 as (c2 & w2 & ->). auto. }
  destruct Hn2 as [Hn2 Hl2].
  destruct existingFolder as [folder |].
  - unfold bind, modify, ret. intros [= <- <-]. split.
    + eapply extends_trans; [exact Hg2 |]. apply extends_insert_mapping, Hn2.
    + intros next [= <-]. eexists. split; [apply lookup_insert_eq |].
      reflexivity.
  - intros Hcreate.
    destruct (createFolder_resolved _ _ _ _ _ _ _ _ _ Hn2 Hl2 Hcreate)
      as [Hg Hr].
    split; [eapply extends_trans; eauto |].
    exact Hr.
Qed.

End Cache.

Lemma preserves_weaken {W A} (R R' : State W -> State W -> Prop) (m : M W A) :
  (forall st st', R st st' -> R' st st') -> preserves R m -> preserves R' m.
Proof. intros Hsub Hm st r st' Hrun. eapply Hsub, Hm, Hrun. Qed.

Section CachedPaths.
Context {W : Type} `{!Remote W} `{!Js.Runtime}.

Lemma resolveFolders_cached dry target force (folderPath : list nat) :
  forall (cur : option string) (st : State W),
    all_cached (folderMappings st) (heap st) folderPath ->
    resolveFolders dry target force folderPath cur st
    = (Ok (cached_parent (folderMappings st) (heap st) folderPath cur), st).
Proof.
  induction folderPath as [| a rest IH]; intros cur st Hall; [reflexivity |].
  cbn [resolveFolders cached_parent foldl]. rewrite bind_gets.
  destruct (heap st !! a) as [folderNode |] eqn:Ha.
  - destruct (Hall a folderNode) as [m Hm]; [left | exact Ha |].
    unfold bind at 1, resolveFolder. rewrite bind_gets, Hm. cbn [ret].
    apply IH. intros b n Hb. apply Hall. right. exact Hb.
  - apply IH. intros b n Hb. apply Hall. right. exact Hb.
Qed.

Lemma resolveFolders_resolved dry target force (folderPath : list nat) :
  forall (cur : option string) (st : State W) r st',
    resolveFolders dry target force folderPath cur st = (r, st') ->
    extends st st'
    /\ forall res, r = Ok res ->
         all_cached (folderMappings st') (heap st') folderPath
         /\ res = cached_parent (folderMappings st') (heap st') folderPath cur.
Proof.
  induction folderPath as [| a rest IH]; intros cur st r st'.
  { intros [= <- <-]. split; [apply extends_refl |].
    intros res [= <-]. split; [| reflexivity].
    intros a n Ha. inversion Ha. }
  cbn [resolveFolders]. rewrite bind_gets.
  destruct (heap st !! a) as [folderNode |] eqn:Ha.
  - unfold bind at 1.
    destruct (resolveFolder dry target force cur (document folderNode) st)
      as [[next | e |] st1] eqn:Hstep;
      destruct (resolveFolder_resolved _ _ _ _ _ _ _ _ Hstep) as [Hg1 Hr1].
    2, 3: intros [= <- <-]; split; [exact Hg1 | intros res; discriminate].
    intros Hrest. destruct (IH _ _ _ _ Hrest) as [Hg2 Hr2].
    split; [eapply extends_trans; eauto |].
    intros res ->. destruct (Hr2 _ eq_refl) as [Hall ->].
    destruct (Hr1 _ eq_refl) as (m & Hm & ->).
    pose proof Hg2 as (Hh2 & _ & Hm2 & _).
    pose proof Hg1 as (Hh1 & _).
    assert (Hm' : folderMappings st' !! id (document folderNode) = Some m)
      by (eapply lookup_weaken; eauto).
    split.
    + intros b n Hb Hn. apply elem_of_cons in Hb as [-> | Hb].
      * rewrite Hh2, Hh1, Ha in Hn. injection Hn as <-. eauto.
      * eapply Hall; eauto.
    + cbn [cached_parent foldl]. rewrite Hh2, Hh1, Ha, Hm'. reflexivity.
  - intros Hrest. destruct (IH _ _ _ _ Hrest) as [Hg Hr].
    split; [exact Hg |]. intros res ->.
    destruct (Hr _ eq_refl) as [Hall ->]. destruct Hg as (Hh & _).
    split.
    + intros b n Hb Hn. apply elem_of_cons in Hb as [-> | Hb].
      * rewrite Hh, Ha in Hn. discriminate.
      * eapply Hall; eauto.
    + cbn [cached_parent foldl]. rewrite Hh, Ha. reflexivity.
Qed.

Lemma ensureFolderStructure_extends fuel dry documentId target force :
  preserves extends
    (@ensureFolderStructure W _ _ fuel dry documentId target force).
Proof.
  intros st r st'. unfold ensureFolderStructure, bind, getDocumentPath.
  destruct (getDocumentPath_on _ _ _ _) as [path |];
    [| intros [= _ <-]; apply extends_refl].
  case_bool_decide; [intros [= _ <-]; apply extends_refl |].
  intros Hrun. apply resolveFolders_resolved in Hrun as [Hg _]. exact Hg.
Qed.

Lemma ensureFolderStructure_grows fuel dry documentId target force :
  preserves grows
    (@ensureFolderStructure W _ _ fuel dry documentId target force).
Proof.
  eapply preserves_weaken;
    [apply extends_grows | apply ensureFolderStructure_extends].
Qed.

(** X6.  Once [ensureFolderStructure] has answered for a document,
    asking again, for the same document and with whatever flags, gives the
    same parent identifier from the cache alone: no request is issued and
    nothing changes. *)
Theorem ensureFolderStructure_repeat :
  forall (fuel : nat) (dry dry' : bool) (documentId target target' : string)
         (force force' : bool) (st st' : State W)
         (parentDocumentId : option string),
    ensureFolderStructure fuel dry documentId target force st
      = (Ok parentDocumentId, st') ->
    ensureFolderStructure fuel dry' documentId target' force' st'
      = (Ok parentDocumentId, st').
Proof.
  intros fuel dry dry' documentId target target' force force' st st' p Hrun.
  pose proof (ensureFolderStructure_extends _ _ _ _ _ _ _ _ Hrun)
    as (Hh & Hs & _).
  revert Hrun. unfold ensureFolderStructure, bind, getDocumentPath.
  rewrite Hh, Hs.
  destruct (getDocumentPath_on fuel (heap st) (sourceHierarchy st) documentId)
    as [path |]; [| discriminate].
  case_bool_decide; [intros [= <- <-]; reflexivity |].
  intros Hrun. apply resolveFolders_resolved in Hrun as [_ Hr].
  destruct (Hr _ eq_refl) as [Hall ->].
  apply resolveFolders_cached. exact Hall.
Qed.

(** X19.  [ensureFolderStructure] rewrites nothing, whatever its
    outcome: the hierarchy is left as it was built, and every cache entry
    and every ledger entry it found is still there, unchanged; entries are
    only added, for the folders it maps or creates. *)
Theorem ensureFolderStructure_rewrites_nothing :
  forall (fuel : nat) (dry : bool) (documentId target : string)
         (force : bool) (st : State W),
    extends st (ensureFolderStructure fuel dry documentId target force st).2.
Proof.
  intros fuel dry documentId target force st.
  destruct (ensureFolderStructure fuel dry documentId target force st)
    as [r st'] eqn:Hrun.
  eapply ensureFolderStructure_extends, Hrun.
Qed.

End CachedPaths.

Lemma ensureFolderStructure_repeat_witness :
  let R := server_remote example_server in
  let H := example_runtime in
  let st := built_state lore_documents in
  exists st' : State Store,
    @ensureFolderStructure Store R H 3 false "C" "dst" false st
      = (Ok (Some "n'"), st')
    /\ @ensureFolderStructure Store R H 3 false "C" "dst" true st'
        = (Ok (Some "n'"), st').
Proof.
  intros R H st.
  destruct (@ensureFolderStructure Store R H 3 false "C" "dst" false st)
    as [r st'] eqn:Hrun.
  assert (Hr : r = Ok (Some "n'")).
  { apply (f_equal fst) in Hrun. vm_compute in Hrun. congruence. }
  subst r. exists st'. split; [reflexivity |].
  exact (@ensureFolderStructure_repeat Store R H 3 false false "C" "dst"
           "dst" false true st st' (Some "n'") Hrun).
Defined.

Section Growth.
Context {W : Type} `{!Remote W} `{!Js.Runtime} `{!Pricing}.

Local Ltac grows_side :=
  intros;
  first [ apply grows_refl
        | eapply grows_trans; eassumption
        | eapply preserves_weaken;
          [ apply world_only_grows
          | first [ apply translateTitle_world
                  | apply translateToEnglish_world
                  | apply createDocument_world
                  | apply getDocumentInfo_world ] ]
        | apply ensureFolderStructure_grows
        | intros ? ? ? Hadd; eapply addTranslation_grows, Hadd ].

Lemma processDocument_grows fuel config i doc stats :
  preserves grows (@processDocument W _ _ fuel config i doc stats).
Proof.
  unfold processDocument, placeDocument, translateAndCreate.
  preserve_by grows_side.
Qed.

(** X7.  The processing loop forgets nothing, whatever fails on the way:
    the hierarchy is left as it was built, a cache entry once made is
    neither changed nor dropped, and an identifier the ledger has an entry
    for keeps having one. *)
Theorem processing_forgets_nothing :
  forall (fuel : nat) (config : Config) (batch : list OutlineDocument)
         (i : nat) (stats : TranslationStats) (st : State W),
    grows st (processDocuments fuel config i batch stats st).2.
Proof.
  intros fuel config batch. induction batch as [| doc rest IH];
    intros i stats st; [apply grows_refl |].
  cbn [processDocuments]. unfold bind.
  destruct (processDocument fuel config i doc stats st)
    as [[stats' | e |] st1] eqn:Hdoc;
    pose proof (processDocument_grows _ _ _ _ _ _ _ _ Hdoc) as Hg;
    [| exact Hg | exact Hg].
  eapply grows_trans; [exact Hg | apply IH].
Qed.

End Growth.

(** ** Documents at the top level *)

Section TopLevel.
Context {W : Type} `{!Remote W} `{!Js.Runtime}.

(** X8.  For an identifier that no document of the hierarchy carries, and
    for a document that declares no parent the input holds,
    [ensureFolderStructure] answers "no parent" at once: no request is
    issued and nothing changes. *)
Theorem ensureFolderStructure_top_level :
  forall (docs : list OutlineDocument) (fuel : nat) (dry : bool)
         (documentId target : string) (force : bool) (st : State W),
    hierarchy_of docs st ->
    0 < fuel ->
    (forall doc p, doc ∈ docs -> id doc = documentId ->
                   ~ declared_parent docs doc p) ->
    ensureFolderStructure fuel dry documentId target force st = (Ok None, st).
Proof.
  intros docs fuel dry documentId target force st [Hsh Hl] Hfuel Hno.
  unfold ensureFolderStructure, bind, getDocumentPath, getDocumentPath_on.
  rewrite Hsh in *.
  destruct (index_docs 0 docs ∅ !! documentId) as [a |] eqn:Ha.
  - assert (Hp : parent_of (heap st) a = None).
    { destruct (canonical_index docs (heap st) Hl _ _ Ha) as [_ Hid].
      unfold parent_of, node_id in *.
      destruct (heap st !! a) as [n |] eqn:Hn; [| reflexivity].
      simpl in *. injection Hid as Hid.
      destruct (parent n) as [pa |] eqn:Hpa; [| reflexivity]. exfalso.
      destruct Hl as (_ & _ & Hpar).
      destruct (Hpar _ _ _ Hn Hpa)
        as (_ & doc & p & Hin & Hdoc & Hp & Ht & Hdm).
      apply (Hno doc p Hin); [congruence |].
      split; [exact Hp |]. split; [exact Ht |]. apply dm_known. eauto. }
    destruct fuel as [| fuel]; [lia |].
    rewrite path_loop_step, Hp, path_loop_None_current. reflexivity.
  - rewrite path_loop_None_current. reflexivity.
Qed.

End TopLevel.

Lemma ensureFolderStructure_top_level_witness :
  let R := server_remote example_server in
  let H := example_runtime in
  let st := built_state lore_documents in
  @ensureFolderStructure Store R H 3 false "A" "dst" false st = (Ok None, st).
Proof.
  intros R H st.
  apply (@ensureFolderStructure_top_level Store R H lore_documents).
  - apply buildHierarchy_hierarchy_of; reflexivity.
  - lia.
  - intros doc p Hin Hid (Hp & _). unfold lore_documents in Hin.
    repeat (apply elem_of_cons in Hin as [-> | Hin]);
      try discriminate. inversion Hin.
Defined.

(** ** [clearMappings] *)

Section Clear.
Context {W : Type} `{!Remote W} `{!Js.Runtime}.

(** X22.  After [clearMappings] the hierarchy knows no document any
    more: every path is empty, and [ensureFolderStructure] answers "no
    parent" for every identifier without a request; the ledger and its
    file are left alone. *)
Theorem clearMappings_forgets_the_hierarchy :
  forall (st : State W),
    let st' := (clearMappings st).2 in
    translations st' = translations st
    /\ file st' = file st
    /\ calls st' = calls st
    /\ forall (fuel : nat) (dry : bool) (documentId target : string)
              (force : bool),
         getDocumentPath fuel documentId st' = (Ok [], st')
         /\ ensureFolderStructure fuel dry documentId target force st'
            = (Ok None, st').
Proof.
  intros st st'. split; [reflexivity |]. split; [reflexivity |].
  split; [reflexivity |]. intros fuel dry documentId target force.
  assert (Hpath : getDocumentPath fuel documentId st' = (Ok [], st')).
  { unfold getDocumentPath, getDocumentPath_on. cbn [sourceHierarchy st'
      clearMappings modify snd set_sourceHierarchy set_folderMappings].
    rewrite lookup_empty, path_loop_None_current. reflexivity. }
  split; [exact Hpath |].
  unfold ensureFolderStructure, bind. rewrite Hpath. reflexivity.
Qed.

End Clear.

(** ** The processing loop of [main] *)

Section DryRun.
Context {W : Type} `{!Remote W} `{!Js.Runtime} `{!Pricing}.

Lemma dry_run_rest (fuel : nat) (config : Config)
    (rest : list OutlineDocument) :
  dryRun config = true ->
  forall (i : nat) (stats : TranslationStats) (st : State W),
    processDocuments fuel config (S i) rest stats st
    = (Ok (skip_more (length rest) stats), st).
Proof.
  intros Hdry. induction rest as [| doc rest IH]; intros i stats st.
  - cbn. destruct stats. unfold skip_more. cbn. rewrite Nat.add_0_r.
    reflexivity.
  - cbn [processDocuments]. unfold bind, processDocument.
    rewrite Hdry, bool_decide_eq_false_2 by lia. cbn. rewrite IH.
    unfold skip_more, incr_skipped. cbn. do 2 f_equal. f_equal. lia.
Qed.

(** X9.  In a dry run only the first document of the batch is processed:
    every later one is counted as skipped, without a request and without a
    change of state. *)
Theorem dry_run_processes_first_only :
  forall (fuel : nat) (config : Config),
    dryRun config = true ->
    (forall (rest : list OutlineDocument) (i : nat)
            (stats : TranslationStats) (st : State W),
        processDocuments fuel config (S i) rest stats st
        = (Ok (skip_more (length rest) stats), st))
    /\ (forall (doc : OutlineDocument) (rest : list OutlineDocument)
               (stats : TranslationStats) (st : State W),
          processDocuments fuel config 0 (doc :: rest) stats st
          = match processDocument fuel config 0 doc stats st with
            | (Ok stats', st') => (Ok (skip_more (length rest) stats'), st')
            | other => other
            end).
Proof.
  intros fuel config Hdry. split.
  - intros rest. apply dry_run_rest, Hdry.
  - intros doc rest stats st. cbn [processDocuments]. unfold bind.
    destruct (processDocument fuel config 0 doc stats st)
      as [[stats' | e |] st']; try reflexivity.
    apply dry_run_rest, Hdry.
Qed.

End DryRun.

Lemma dry_run_processes_first_only_witness :
  let R := server_remote example_server in
  let H := example_runtime in
  let stats := {| total := 3; translated := 1; skipped := 0; errors := 0 |} in
  let st := built_state lore_documents in
  @processDocuments Store R H 3 dry_run_config 1
    [mkdoc "B" "Characters" "" (Some "A") "src" "1000";
     mkdoc "C" "Arthur" "Once" (Some "B") "src" "1000"] stats st
  = (Ok {| total := 3; translated := 1; skipped := 2; errors := 0 |}, st).
Proof.
  intros R H stats st.
  apply (proj1 (@dry_run_processes_first_only Store R H 3 dry_run_config
                  eq_refl)).
Defined.

(** ** The loop comes to an end and accounts for every document *)

Section Steady.
Context {W : Type} `{!Remote W} `{!Js.Runtime}.
Variable I : State W -> Prop.
Hypothesis I_world : forall st c w, I st -> I (set_world c w st).

Lemma steady_ret {A} (a : A) : steady I (ret a).
Proof. intros st Hst. split; [discriminate | exact Hst]. Qed.

Lemma steady_throw {A} (e : Error) : steady I (@throw W A e).
Proof. intros st Hst. split; [discriminate | exact Hst]. Qed.

Lemma steady_gets {A} (f : State W -> A) : steady I (gets f).
Proof. intros st Hst. split; [discriminate | exact Hst]. Qed.

Lemma steady_modify (f : State W -> State W) :
  (forall st, I st -> I (f st)) -> steady I (modify f).
Proof. intros Hf st Hst. split; [discriminate | apply Hf, Hst]. Qed.

Lemma steady_bind {A B} (m : M W A) (k : A -> M W B) :
  steady I m -> (forall a, steady I (k a)) -> steady I (bind m k).
Proof.
  intros Hm Hk st Hst. unfold bind. destruct (Hm st Hst) as [Hr Hi].
  destruct (m st) as [[a | e |] st1]; simpl in *.
  - apply Hk, Hi.
  - split; [discriminate | exact Hi].
  - congruence.
Qed.

Lemma steady_try_catch {A} (m : M W A) (k : Error -> M W A) :
  steady I m -> (forall e, steady I (k e)) -> steady I (try_catch m k).
Proof.
  intros Hm Hk st Hst. unfold try_catch. destruct (Hm st Hst) as [Hr Hi].
  destruct (m st) as [[a | e |] st1]; simpl in *.
  - split; [discriminate | exact Hi].
  - apply Hk, Hi.
  - congruence.
Qed.

Lemma steady_promise_all2 {A B} (m1 : M W A) (m2 : M W B) :
  steady I m1 -> steady I m2 -> steady I (promise_all2 m1 m2).
Proof.
  intros H1 H2 st Hst. unfold promise_all2. destruct (H1 st Hst) as [Hr1 Hi1].
  destruct (m1 st) as [r1 st1]. simpl in *.
  destruct (H2 st1 Hi1) as [Hr2 Hi2]. destruct (m2 st1) as [r2 st2].
  simpl in *. destruct r1 as [a | e |], r2 as [b | e' |]; simpl;
    (split; [congruence | exact Hi2]).
Qed.

Lemma steady_request {A} (c : Call) (op : W -> Result A * W) :
  (forall w, (op w).1 <> Hang) -> steady I (request c op).
Proof.
  intros Hop st Hst. unfold request. specialize (Hop (world st)).
  destruct (op (world st)) as [r w]. split; [exact Hop |].
  apply I_world, Hst.
Qed.

End Steady.

(** Composition of [steady] facts, the side conditions left to [tac]. *)
Ltac steady_by tac :=
  repeat
    (match goal with
     | |- steady _ (ret _) => apply steady_ret
     | |- steady _ (throw _) => apply steady_throw
     | |- steady _ (gets _) => apply steady_gets
     | |- steady _ (request _ _) => apply steady_request
     | |- steady _ (modify _) => apply steady_modify
     | |- steady _ (bind _ _) => apply steady_bind
     | |- steady _ (try_catch _ _) => apply steady_try_catch
     | |- steady _ (promise_all2 _ _) => apply steady_promise_all2
     | |- forall _, steady _ _ => intros ?
     | |- steady _ (if ?b then _ else _) => destruct b
     | |- steady _ (match ?x with _ => _ end) => destruct x
     end;
     try solve [tac]).

Section Termination.
Context {W : Type} `{!Remote W} `{!Js.Runtime} `{!Pricing}.
Hypothesis Hresponsive : responsive W.
Variable docs : list OutlineDocument.
Variable rank : string -> nat.
Hypothesis Hrank : acyclic_input docs rank.
Variable fuel : nat.
Hypothesis Hfuel : forall i, rank i < fuel.

Let I (st : State W) : Prop := hierarchy_of docs st.

Local Ltac side :=
  first [ exact (fun st c w H => H)
        | intros ? ?; assumption
        | apply Hresponsive ].

Lemma translateTitle_steady dry title force :
  steady I (translateTitle dry title force).
Proof. unfold translateTitle. steady_by side. Qed.

Lemma translateToEnglish_steady dry content title force :
  steady I (translateToEnglish dry content title force).
Proof. unfold translateToEnglish. steady_by side. Qed.

Lemma findFolderByName_steady name collection parentId :
  steady I (findFolderByName name collection parentId).
Proof.
  unfold findFolderByName, getDocumentsByCollection. steady_by side.
Qed.

Lemma createDocument_steady req : steady I (createDocument req).
Proof. unfold createDocument. steady_by side. Qed.

Lemma getDocumentInfo_steady documentId :
  steady I (getDocumentInfo documentId).
Proof. unfold getDocumentInfo. steady_by side. Qed.

Lemma addTranslation_steady originalDoc translatedDoc :
  steady I (addTranslation originalDoc translatedDoc).
Proof.
  intros st Hst. rewrite addTranslation_run.
  destruct (now_remote (world st)) as [stamp w1]. cbv zeta.
  match goal with
  | |- context [writeFileSync_remote ?tr ?w] =>
      pose proof (proj2 (proj2 (proj2 (proj2 Hresponsive))) tr w) as Hw;
      destruct (writeFileSync_remote tr w) as [[[] | e |] w2]
  end; simpl in *; (split; [congruence | exact Hst]).
Qed.

Lemma getDocumentPath_steady documentId :
  steady I (getDocumentPath fuel documentId).
Proof.
  intros st Hst. unfold getDocumentPath. pose proof Hst as [Hsh Hl].
  rewrite Hsh in Hl.
  destruct (getDocumentPath_terminates docs rank Hrank (heap st) Hl documentId)
    as [path Hpath].
  rewrite Hsh, (Hpath fuel (Hfuel _)). split; [discriminate | exact Hst].
Qed.

Lemma createFolder_steady dry target force sourceDoc name cur :
  steady I (createFolder dry target force sourceDoc name cur).
Proof.
  unfold createFolder.
  steady_by ltac:(first [ side | apply translateToEnglish_steady
                        | apply createDocument_steady
                        | apply addTranslation_steady ]).
Qed.

Lemma resolveFolder_steady dry target force cur sourceDoc :
  steady I (resolveFolder dry target force cur sourceDoc).
Proof.
  unfold resolveFolder.
  steady_by ltac:(first [ side | apply translateTitle_steady
                        | apply findFolderByName_steady
                        | apply createFolder_steady ]).
Qed.

Lemma resolveFolders_steady dry target force (folderPath : list nat) :
  forall cur, steady I (resolveFolders dry target force folderPath cur).
Proof.
  induction folderPath as [| a rest IH]; intros cur; cbn [resolveFolders].
  - apply steady_ret.
  - steady_by ltac:(first [ side | apply IH | apply resolveFolder_steady ]).
Qed.

Lemma ensureFolderStructure_steady dry documentId target force :
  steady I (ensureFolderStructure fuel dry documentId target force).
Proof.
  unfold ensureFolderStructure.
  steady_by ltac:(first [ side | apply getDocumentPath_steady
                        | apply resolveFolders_steady ]).
Qed.

Lemma processDocument_steady config i doc stats :
  steady I (processDocument fuel config i doc stats).
Proof.
  unfold processDocument, placeDocument, translateAndCreate.
  steady_by ltac:(first [ side | apply getDocumentInfo_steady
                        | apply ensureFolderStructure_steady
                        | apply translateToEnglish_steady
                        | apply translateTitle_steady
                        | apply createDocument_steady
                        | apply addTranslation_steady ]).
Qed.

Lemma processDocument_counts config i doc stats (st : State W) stats' st' :
  processDocument fuel config i doc stats st = (Ok stats', st') ->
  total stats' = total stats /\ processed stats' = S (processed stats).
Proof.
  unfold processDocument.
  destruct (dryRun config && negb (bool_decide (i = 0))).
  { intros [= <- _]. unfold processed. cbn. lia. }
  intros Hrun.
  apply try_catch_Ok_inv in Hrun as [Hbody | (e & st1 & _ & Hh)].
  - apply bind_Ok_inv in Hbody as (placement & st1 & _ & Hbody).
    destruct placement as [| fullDoc parentId].
    + injection Hbody as <- _. unfold processed. cbn. lia.
    + apply bind_Ok_inv in Hbody as (newDocument & st2 & _ & Hbody).
      apply bind_Ok_inv in Hbody as ([] & st3 & _ & Hbody).
      injection Hbody as <- _. unfold processed. cbn. lia.
  - injection Hh as <- _. unfold processed. cbn. lia.
Qed.

(** X10.  When the collaborators always answer and the declared parents
    of the source documents are acyclic, the processing loop comes to an
    end and never throws; it leaves the total alone and accounts for every
    document of the batch once: translated, skipped and error counts
    together grow by the size of the batch. *)
Theorem processing_accounts_for_every_document :
  forall (config : Config) (batch : list OutlineDocument) (i : nat)
         (stats : TranslationStats) (st : State W),
    hierarchy_of docs st ->
    exists (stats' : TranslationStats) (st' : State W),
      processDocuments fuel config i batch stats st = (Ok stats', st')
      /\ total stats' = total stats
      /\ processed stats' = processed stats + length batch.
Proof.
  intros config batch. induction batch as [| doc rest IH];
    intros i stats st Hst.
  - exists stats, st. split; [reflexivity |]. simpl. lia.
  - cbn [processDocuments]. unfold bind.
    destruct (processDocument_steady config i doc stats st Hst) as [Hr Hi].
    destruct (processDocument fuel config i doc stats st)
      as [[stats1 | e |] st1] eqn:Hdoc; simpl in Hr, Hi.
    + destruct (processDocument_counts _ _ _ _ _ _ _ Hdoc) as [Ht Hp].
      destruct (IH (S i) stats1 st1 Hi) as (stats' & st' & Hrun & Ht' & Hp').
      exists stats', st'. split; [exact Hrun |]. simpl. lia.
    + exfalso. revert Hdoc. unfold processDocument.
      destruct (dryRun config && negb (bool_decide (i = 0)));
        [discriminate |].
      unfold try_catch.
      match goal with
      | |- context [bind ?m ?k st] => destruct (bind m k st) as [[s | e' |] st2]
      end; discriminate.
    + congruence.
Qed.

End Termination.

Lemma example_server_responsive :
  @responsive Store (server_remote example_server).
Proof.
  repeat split; intros x w; cbn; try discriminate.
  destruct (Js.find _ _); discriminate.
Qed.

Lemma lore_acyclic : acyclic_input lore_documents lore_rank.
Proof.
  intros doc p Hin (Hp & _ & _). unfold lore_documents in Hin.
  repeat (apply elem_of_cons in Hin as [-> | Hin]);
    [ discriminate Hp | injection Hp as <- | injection Hp as <-
    | apply elem_of_nil in Hin; destruct Hin ];
    vm_compute; lia.
Qed.

Lemma lore_rank_bound (i : string) : lore_rank i < 3.
Proof. unfold lore_rank. repeat case_decide; lia. Qed.

Lemma processing_accounts_for_every_document_witness :
  let R := server_remote example_server in
  let H := example_runtime in
  let stats := {| total := 3; translated := 0; skipped := 0; errors := 0 |} in
  exists (stats' : TranslationStats) (st' : State Store),
    @processDocuments Store R H 3 (config_with_ceiling None) 0 lore_documents
      stats (built_state lore_documents) = (Ok stats', st')
    /\ total stats' = 3
    /\ processed stats' = 3.
Proof.
  intros R H stats.
  apply (@processing_accounts_for_every_document Store R H
           example_server_responsive lore_documents lore_rank lore_acyclic
           3 lore_rank_bound (config_with_ceiling None) lore_documents 0
           stats (built_state lore_documents)).
  apply buildHierarchy_hierarchy_of; reflexivity.
Defined.

(** ** The batch *)

Section Batch.
Context `{!Js.Runtime}.

(** X11.  The batch [main] settles on is a prefix of the pending source
    documents, in source order: the first [n] of them for a batch size
    [n > 0], all of them for an absent or zero batch size, and all but the
    last [n] for a batch size [-n]. *)
Theorem documentsToProcess_batch :
  forall (config : Config) (tr : TranslationRecord)
         (documents : list OutlineDocument),
    let pendingDocuments :=
      filter (fun doc => pending tr doc = true) documents in
    let batch := documentsToProcess config tr documents in
    batch `prefix_of` pendingDocuments
    /\ (forall doc, doc ∈ batch -> doc ∈ documents /\ pending tr doc = true)
    /\ match batchSize config with
       | Some (Zpos n) =>
           length batch = Nat.min (Pos.to_nat n) (length pendingDocuments)
       | Some (Zneg n) =>
           length batch = length pendingDocuments - Pos.to_nat n
       | Some Z0 | None => batch = pendingDocuments
       end.
Proof.
  intros config tr documents pendingDocuments batch.
  assert (Hprefix : batch `prefix_of` pendingDocuments).
  { unfold batch, documentsToProcess, Js.slice0. fold pendingDocuments.
    destruct (batchSize config) as [[| n | n] |]; try reflexivity;
      cbn; apply prefix_take. }
  split; [exact Hprefix |]. split.
  - intros doc Hin. destruct Hprefix as [rest Hrest].
    assert (Hp : doc ∈ pendingDocuments) by (rewrite Hrest; set_solver).
    apply list_elem_of_filter in Hp as [Hpend Hdoc]. auto.
  - unfold batch, documentsToProcess, Js.slice0. fold pendingDocuments.
    destruct (batchSize config) as [[| n | n] |]; try reflexivity; cbn.
    + rewrite length_take. reflexivity.
    + rewrite length_take. lia.
Qed.

End Batch.

(** ** Runs without work *)

Section NoWork.
Context {W : Type} `{!Remote W} `{!Js.Runtime} `{!Pricing}.

(** X12.  A run that finds nothing to do stops after the listing of the
    source collection, its only request, with the ledger file untouched:
    with a fatal error when the listing throws, with "no documents" when
    the collection is empty, and with "all up to date" when no document is
    pending. *)
Theorem main_without_work :
  forall (fuel stack : nat) (config : Config) (st : State W),
    let source := sourceCollectionId config in
    let tr := loadTranslations (file st) in
    match getDocumentsByCollection_remote source (world st) with
    | (Throw e, _) =>
        exists st', main fuel stack config st = (Ok (FatalError e), st')
                    /\ only_listed source st st'
    | (Ok documents, _) =>
        (documents = [] ->
         exists st', main fuel stack config st = (Ok NoDocuments, st')
                     /\ only_listed source st st')
        /\ (documents <> [] ->
            is_Some (let '(rootNodes, h, _) :=
                       buildHierarchy_on documents [] ∅ in
                     calculateStats stack h rootNodes 0 (0, 0)) ->
            (forall doc, doc ∈ documents -> pending tr doc = false) ->
            exists st', main fuel stack config st = (Ok AllUpToDate, st')
                        /\ only_listed source st st')
    | (Hang, _) => (main fuel stack config st).1 = Hang
    end.
Proof.
  intros fuel stack config st source tr.
  unfold main, try_catch, bind, newTranslationTracker, newDocumentHierarchy,
    modify, getDocumentsByCollection, request, buildHierarchy,
    printHierarchyStats, gets, ret.
  cbn [world set_translations set_folderMappings set_sourceHierarchy set_heap
       heap sourceHierarchy translations calls file].
  fold source.
  destruct (getDocumentsByCollection_remote source (world st))
    as [[documents | e |] w].
  - split.
    + intros ->. cbn. eexists. split; [reflexivity |].
      repeat split.
    + intros Hne Hstats Hpending.
      rewrite bool_decide_eq_false_2
        by (destruct documents; [congruence | discriminate]).
      cbn [world set_translations set_folderMappings set_sourceHierarchy
           set_heap set_world heap sourceHierarchy translations calls file].
      destruct (buildHierarchy_on documents [] ∅) as [[rootNodes h] sh].
      cbn [world set_translations set_folderMappings set_sourceHierarchy
           set_heap set_world heap sourceHierarchy translations calls file].
      destruct Hstats as [counted ->].
      cbn [world set_translations set_folderMappings set_sourceHierarchy
           set_heap set_world heap sourceHierarchy translations calls file].
      fold tr.
      assert (Hnone : filter (fun doc => pending tr doc = true) documents = []).
      { induction documents as [| d ds IH]; [reflexivity |].
        rewrite filter_cons, decide_False.
        - destruct ds as [| d' ds']; [reflexivity |].
          apply IH; [discriminate |].
          intros doc Hd. apply Hpending. right. exact Hd.
        - rewrite (Hpending d) by left. discriminate. }
      rewrite Hnone. cbn. eexists. split; [reflexivity |]. repeat split.
  - cbn. eexists. split; [reflexivity |]. repeat split.
  - reflexivity.
Qed.

End NoWork.

Lemma main_without_work_witness :
  let R := server_remote example_server in
  let H := example_runtime in
  let P := example_pricing in
  let st := initial_state Missing empty_store in
  exists st' : State Store,
    @main Store R H P 3 3 (config_with_ceiling None) st
      = (Ok NoDocuments, st')
    /\ only_listed "src" st st'.
Proof.
  intros R H P st.
  apply (@main_without_work Store R H P 3 3 (config_with_ceiling None) st).
  reflexivity.
Defined.

(** ** A ledger write that fails after the creation *)

Section WriteFailure.
Context {W : Type} `{!Remote W} `{!Js.Runtime} `{!Pricing}.

(** X13.  When the translated document has been created and the write of
    the ledger then throws, the iteration counts an error and the loop
    goes on; the assignment of the entry is not undone (the entry stays in
    the ledger in memory, for every identifier but [__proto__]), so that
    the document reads as translated for the rest of the run, while the
    file is left as it was. *)
Theorem ledger_write_failure_is_counted :
  forall (fuel : nat) (config : Config) (i : nat) (doc : OutlineDocument)
         (stats : TranslationStats) (st st1 st2 : State W)
         (fullDoc newDocument : OutlineDocument) (parentId : option string)
         (stamp : string) (w1 w2 : W) (e : Error),
    let isFirstDoc := bool_decide (i = 0) in
    let entry := ledger_entry fullDoc newDocument stamp in
    dryRun config && negb isFirstDoc = false ->
    placeDocument fuel config isFirstDoc doc st
      = (Ok (Place fullDoc parentId), st1) ->
    translateAndCreate config isFirstDoc fullDoc parentId st1
      = (Ok newDocument, st2) ->
    now_remote (world st2) = (stamp, w1) ->
    writeFileSync_remote
      (set_property (id fullDoc) entry (translations st2)) w1
      = (Throw e, w2) ->
    exists st3 : State W,
      processDocument fuel config i doc stats st
        = (Ok (incr_errors stats), st3)
      /\ (forall rest,
            processDocuments fuel config i (doc :: rest) stats st
            = processDocuments fuel config (S i) rest (incr_errors stats) st3)
      /\ translations st3
         = set_property (id fullDoc) entry (translations st2)
      /\ (id fullDoc <> "__proto__" ->
          translations st3 = <[id fullDoc := entry]> (translations st2))
      /\ isDocumentTranslated (translations st3) (id fullDoc) = true
      /\ file st3 = file st2.
Proof.
  intros fuel config i doc stats st st1 st2 fullDoc newDocument parentId
    stamp w1 w2 e isFirstDoc entry Hdry Hplace Hcreate Hnow Hwrite.
  pose proof (addTranslation_run fullDoc newDocument st2) as Hadd.
  rewrite Hnow in Hadd. cbv zeta in Hadd. fold entry in Hadd.
  rewrite Hwrite in Hadd.
  match type of Hadd with _ = (_, ?s) => set (st3 := s) in * end.
  assert (Hrun : processDocument fuel config i doc stats st
                 = (Ok (incr_errors stats), st3)).
  { unfold processDocument. fold isFirstDoc. rewrite Hdry.
    unfold try_catch, bind. rewrite Hplace, Hcreate, Hadd. reflexivity. }
  exists st3. split; [exact Hrun |]. split.
  { intros rest. cbn [processDocuments]. unfold bind at 1.
    rewrite Hrun. reflexivity. }
  split; [reflexivity |].
  split; [intros Hne; apply set_property_insert; left; exact Hne |].
  split; [| reflexivity].
  change (translations st3)
    with (set_property (id fullDoc) entry (translations st2)).
  unfold isDocumentTranslated.
  destruct (set_property_cases (id fullDoc) entry (translations st2))
    as [-> | (Hproto & _ & _)].
  - eapply has_property_own, lookup_insert_eq.
  - apply has_property_inherited. rewrite Hproto. reflexivity.
Qed.

End WriteFailure.

Lemma ledger_write_failure_is_counted_witness :
  let R := server_remote (with_write_failure example_server) in
  let H := example_runtime in
  let doc := mkdoc "d1" "The title" "This is the body" None "src" "1000" in
  let stats := {| total := 1; translated := 0; skipped := 0; errors := 0 |} in
  exists st3 : State Store,
    @processDocument Store R H 10 (config_with_ceiling None) 0 doc stats
      one_document_state
    = (Ok {| total := 1; translated := 0; skipped := 0; errors := 1 |}, st3)
    /\ isDocumentTranslated (translations st3) "d1" = true
    /\ file st3 = Missing.
Proof.
  intros R H doc stats.
  destruct (@ledger_write_failure_is_counted Store R H 10
              (config_with_ceiling None) 0 doc stats one_document_state
              (set_world [CallInfo "d1"] one_document_store one_document_state)
              (set_world
                 [CallInfo "d1";
                  CallCreate {| req_title := "The title";
                                req_text := "This is the body";
                                req_emoji := None;
                                req_collectionId := "dst";
                                req_parentDocumentId := None |}]
                 {| store_docs :=
                      [doc;
                       mkdoc "n" "The title" "This is the body" None "dst"
                         "5000"];
                    store_next := 1 |}
                 one_document_state)
              doc
              (mkdoc "n" "The title" "This is the body" None "dst" "5000")
              None "5000"
              {| store_docs :=
                   [doc;
                    mkdoc "n" "The title" "This is the body" None "dst"
                      "5000"];
                 store_next := 1 |}
              {| store_docs :=
                   [doc;
                    mkdoc "n" "The title" "This is the body" None "dst"
                      "5000"];
                 store_next := 1 |}
              (MkError "EACCES"))
    as (st3 & Hrun & _ & _ & _ & Hknown & Hfile);
    [reflexivity | reflexivity | reflexivity | reflexivity | reflexivity |].
  exists st3. split; [exact Hrun |]. split; [exact Hknown | exact Hfile].
Defined.

(** ** Documents that are up to date *)

Section UpToDate.
Context {W : Type} `{!Remote W} `{!Js.Runtime} `{!Pricing}.

Lemma up_to_date_skipped fuel config (i : nat) (doc : OutlineDocument)
    (stats : TranslationStats) (st : State W) :
  isDocumentTranslated (translations st) (id doc) = true ->
  needsUpdate (translations st) doc = false ->
  processDocument fuel config i doc stats st = (Ok (incr_skipped stats), st).
Proof.
  intros Hknown Hfresh. unfold processDocument.
  destruct (dryRun config && negb (bool_decide (i = 0))); [reflexivity |].
  unfold try_catch, placeDocument. unfold bind at 1.
  rewrite bind_gets, Hknown, Hfresh. reflexivity.
Qed.

(** X24.  Documents that have a ledger entry and were not modified after
    the recorded translation time are skipped by the loop without a
    request and without a change of state, one skip counted for each, in
    a dry run or not. *)
Theorem up_to_date_documents_are_skipped :
  forall (fuel : nat) (config : Config) (batch : list OutlineDocument)
         (i : nat) (stats : TranslationStats) (st : State W),
    (forall doc, doc ∈ batch ->
       exists (entry : TranslatedDocument) (modified translatedTime : Q),
         translations st !! id doc = Some entry
         /\ Js.date_value (updatedAt doc) = Js.Fin modified
         /\ Js.date_value (translatedAt entry) = Js.Fin translatedTime
         /\ (modified <= translatedTime)%Q) ->
    processDocuments fuel config i batch stats st
    = (Ok (skip_more (length batch) stats), st).
Proof.
  intros fuel config batch. induction batch as [| doc rest IH];
    intros i stats st Hall.
  - cbn. destruct stats. unfold skip_more. cbn. rewrite Nat.add_0_r.
    reflexivity.
  - cbn [processDocuments]. unfold bind.
    destruct (Hall doc ltac:(left)) as (entry & u & t & He & Hu & Ht & Hle).
    rewrite up_to_date_skipped.
    + rewrite IH by (intros d Hd; apply Hall; right; exact Hd).
      unfold skip_more, incr_skipped. cbn. do 2 f_equal. f_equal. lia.
    + eapply has_property_own, He.
    + unfold needsUpdate, getTranslatedDocument.
      rewrite (get_property_own _ _ _ He). cbn. rewrite Hu, Ht.
      apply gt_Fin_false, Hle.
Qed.

End UpToDate.

Lemma up_to_date_documents_are_skipped_witness :
  let R := server_remote example_server in
  let H := example_runtime in
  let doc := mkdoc "d1" "The title" "This is the body" None "src" "1000" in
  let stats := {| total := 1; translated := 0; skipped := 0; errors := 0 |} in
  let st :=
    set_translations (fun _ => {[ "d1" := mkentry "d1" "t1" "2000" ]})
      one_document_state in
  @processDocuments Store R H 10 (config_with_ceiling None) 0 [doc] stats st
  = (Ok {| total := 1; translated := 0; skipped := 1; errors := 0 |}, st).
Proof.
  intros R H doc stats st.
  apply (@up_to_date_documents_are_skipped Store R H 10
           (config_with_ceiling None) [doc] 0 stats st).
  intros d Hd. apply list_elem_of_singleton in Hd as ->.
  exists (mkentry "d1" "t1" "2000"), (inject_Z 1000), (inject_Z 2000).
  split; [reflexivity |]. split; [reflexivity |]. split; [reflexivity |].
  discriminate.
Defined.

(** A source document whose identifier the ledger inherits is never
    pending: a run on a collection that holds only such a document, with
    an empty ledger, ends with all documents up to date. *)
Example inherited_identifier_is_up_to_date :
  let R := server_remote example_server in
  let H := example_runtime in
  let P := example_pricing in
  let doc := mkdoc "constructor" "The title" "This is the body" None "src"
               "1000" in
  let st :=
    initial_state Missing {| store_docs := [doc]; store_next := 0 |} in
  pending ∅ doc = false
  /\ fst (@main Store R H P 10 10 (config_with_ceiling None) st)
     = Ok AllUpToDate.
Proof. vm_compute. split; reflexivity. Qed.

(** ** The paginated listings of [OutlineClient] *)

Section Pagination.
Import OutlineClient.
Context {W : Type} `{!Endpoint W}.
Variable collectionId : option string.
Variable held : list OutlineDocument.
Variable tick : nat -> W -> W.
Hypothesis Hpage :
  forall offset w,
    documents_list collectionId offset limit w
    = (Ok (take limit (drop offset held)), tick offset w).

Let pages : nat := length held / limit.

Lemma list_loop_pages (fuel : nat) :
  forall (k : nat) (documents : list OutlineDocument) (w : W),
    k <= pages ->
    pages - k < fuel ->
    list_loop fuel collectionId (k * limit) documents w
    = (Ok (documents ++ drop (k * limit) held),
       foldl (fun w offset => tick offset w) w
         ((fun j => j * limit) <$> seq k (S pages - k))).
Proof.
  assert (Hdiv : length held = limit * pages + length held mod limit)
    by (apply Nat.div_mod_eq).
  assert (Hmod : length held mod limit < limit)
    by (apply Nat.mod_upper_bound; discriminate).
  unfold pages in *. unfold limit in *.
  set (q := length held / 100) in *. clearbody q.
  induction fuel as [| fuel IH]; intros k documents w Hk Hfuel; [lia |].
  cbn [list_loop]. rewrite Hpage. unfold limit.
  case_bool_decide as Hshort;
    rewrite length_take, length_drop in Hshort.
  - assert (k = q) as -> by (clear - Hdiv Hmod Hk Hshort; lia).
    rewrite take_ge by (rewrite length_drop; clear - Hdiv Hmod; lia).
    replace (S q - q) with 1 by lia. reflexivity.
  - assert (Hlt : k < q) by (clear - Hdiv Hmod Hk Hshort; lia).
    replace (k * 100 + 100) with (S k * 100) by lia.
    rewrite (IH (S k)) by lia. f_equal.
    + rewrite <- app_assoc. f_equal.
      rewrite <- (take_drop 100 (drop (k * 100) held)) at 2.
      rewrite drop_drop. replace (k * 100 + 100) with (S k * 100) by lia.
      reflexivity.
    + replace (S q - k) with (S (S q - S k)) by lia. reflexivity.
Qed.

(** X14.  Against an endpoint that serves the documents it holds by
    pages of the size asked for, the listing returns all of them, in order,
    after one request for each offset 0, 100, 200, ... up to the first page
    that is not full; a collection whose size is a multiple of 100 costs a
    last request that returns nothing. *)
Theorem listing_is_complete :
  forall (fuel : nat) (w : W),
    pages < fuel ->
    list_loop fuel collectionId 0 [] w
    = (Ok held,
       foldl (fun w offset => tick offset w) w
         ((fun j => j * limit) <$> seq 0 (S pages))).
Proof.
  intros fuel w Hfuel.
  pose proof (list_loop_pages fuel 0 [] w ltac:(lia) ltac:(lia)) as H.
  cbn [Nat.mul] in H. rewrite H. rewrite Nat.sub_0_r. reflexivity.
Qed.

End Pagination.

Lemma listing_is_complete_witness :
  @OutlineClient.getDocumentsByCollection (list nat)
    (paging_endpoint (copies 200)) 3 "src" []
  = (Ok (copies 200), [0; 100; 200]).
Proof.
  apply (@listing_is_complete (list nat) (paging_endpoint (copies 200))
           (Some "src") (copies 200) (fun offset log => log ++ [offset])).
  - reflexivity.
  - vm_compute. lia.
Defined.

Section FullPages.
Import OutlineClient.
Context {W : Type} `{!Endpoint W}.
Variable collectionId : option string.
Hypothesis Hfull :
  forall offset w,
    exists data w',
      documents_list collectionId offset limit w = (Ok data, w')
      /\ limit <= length data.

(** X15.  The listing stops only on a page shorter than 100 documents or
    on an error: against an endpoint that answers every request with a
    full page, it is still running after any number of requests. *)
Theorem listing_needs_a_short_page :
  forall (fuel offset : nat) (documents : list OutlineDocument) (w : W),
    (list_loop fuel collectionId offset documents w).1 = Hang.
Proof.
  induction fuel as [| fuel IH]; intros offset documents w; [reflexivity |].
  cbn [list_loop]. destruct (Hfull offset w) as (data & w' & -> & Hlen).
  rewrite bool_decide_eq_false_2 by lia. apply IH.
Qed.

End FullPages.

Lemma listing_needs_a_short_page_witness :
  (@OutlineClient.getAllDocuments unit stuck_endpoint 7 tt).1 = Hang.
Proof.
  apply (@listing_needs_a_short_page unit stuck_endpoint None).
  intros offset w. exists (copies 100), w. split; [reflexivity |].
  vm_compute. lia.
Defined.

(** ** [getConfig] *)

Lemma strip_trailing_slash_app (s : string) :
  JsLib.strip_trailing_slash (s +:+ "/") = s.
Proof.
  induction s as [| c s IH]; [reflexivity |].
  change (String c s +:+ "/") with (String c (s +:+ "/")).
  destruct (s +:+ "/") as [| a t'] eqn:Ht.
  - destruct s; discriminate.
  - change (JsLib.strip_trailing_slash (String c (String a t')))
      with (String c (JsLib.strip_trailing_slash (String a t'))).
    rewrite IH. reflexivity.
Qed.

Lemma strip_trailing_slash_other (s : string) :
  (forall u, s <> u +:+ "/") -> JsLib.strip_trailing_slash s = s.
Proof.
  induction s as [| c s IH]; intros Hno; [reflexivity |].
  destruct s as [| c' s'].
  - cbn. destruct (Ascii.eqb c "/") eqn:Hc; [| reflexivity].
    apply Ascii.eqb_eq in Hc. subst c. destruct (Hno ""). reflexivity.
  - change (JsLib.strip_trailing_slash (String c (String c' s')))
      with (String c (JsLib.strip_trailing_slash (String c' s'))).
    rewrite IH; [reflexivity |].
    intros u Hu. apply (Hno (String c u)).
    change (String c u +:+ "/") with (String c (u +:+ "/")). rewrite Hu.
    reflexivity.
Qed.

Section Config.
Context `{!JsLib.Parsers}.

(** X16.  [getConfig] succeeds exactly when the five required variables
    are set to non-empty strings, and otherwise throws the error that
    names the first of them, in the order checked, that is unset or empty.
    On success the two collection identifiers are the ones given, and the
    dry run is on only for [DRY_RUN] set to exactly ["true"]. *)
Theorem getConfig_required_variables :
  forall env : gmap string string,
    match Js.find (blank env) required_variables with
    | Some name => getConfig env = Throw (required_variable name)
    | None =>
        exists (credentials : Credentials) (config : Config),
          getConfig env = Ok (credentials, config)
          /\ env !! "SOURCE_COLLECTION_ID" = Some (sourceCollectionId config)
          /\ env !! "TARGET_COLLECTION_ID" = Some (targetCollectionId config)
          /\ (dryRun config = true <-> env !! "DRY_RUN" = Some "true")
    end.
Proof.
  intros env. unfold getConfig, required_variables, blank. cbn [Js.find].
  destruct (Js.truthy_ostring (env !! "OPENAI_API_KEY")); [| reflexivity].
  destruct (Js.truthy_ostring (env !! "OUTLINE_API_KEY")); [| reflexivity].
  destruct (Js.truthy_ostring (env !! "OUTLINE_API_URL")); [| reflexivity].
  destruct (env !! "SOURCE_COLLECTION_ID") as [source |] eqn:Hs;
    [| reflexivity].
  destruct (Js.truthy_ostring (Some source)); [| reflexivity].
  destruct (env !! "TARGET_COLLECTION_ID") as [target |] eqn:Ht;
    [| reflexivity].
  destruct (Js.truthy_ostring (Some target)); [| reflexivity].
  cbn [negb]. eexists _, _. split; [reflexivity |]. cbn.
  split; [reflexivity |]. split; [reflexivity |].
  apply bool_decide_eq_true.
Qed.

(** X17.  The address of the wiki loses one slash at its end, and no
    more: an address given with a slash at the end is kept without it,
    any other address is kept as it is, so that an address given with two
    slashes at the end still ends with one. *)
Theorem getConfig_trailing_slash :
  forall (env : gmap string string) (credentials : Credentials)
         (config : Config) (address : string),
    getConfig env = Ok (credentials, config) ->
    (env !! "OUTLINE_API_URL" = Some (address +:+ "/") ->
     outlineApiUrl credentials = address)
    /\ (env !! "OUTLINE_API_URL" = Some address ->
        (forall u, address <> u +:+ "/") ->
        outlineApiUrl credentials = address).
Proof.
  intros env credentials config address. unfold getConfig.
  repeat match goal with
         | |- context [if negb ?b then _ else _] => destruct b; cbn [negb]
         end; try discriminate.
  intros [= <- _]. cbn [outlineApiUrl]. split.
  - intros ->. apply strip_trailing_slash_app.
  - intros -> Hno. apply strip_trailing_slash_other, Hno.
Qed.

(** X18.  A ceiling that is not set, set to the empty string, or set to
    a text that [parseFloat] reads as [NaN] or as zero, leaves the run
    without a limit: both gates pass whatever the estimate. *)
Theorem getConfig_ceiling_without_effect :
  forall (env : gmap string string) (credentials : Credentials)
         (config : Config) (estimate : CostEstimate),
    getConfig env = Ok (credentials, config) ->
    blank env "MAX_SPENDING_USD" = true
    \/ (exists text,
          env !! "MAX_SPENDING_USD" = Some text
          /\ Js.truthy_number (JsLib.parseFloat text) = false) ->
    confirmCostWithUser estimate (maxSpendingUsd config) = true
    /\ checkSpendingLimit (estimatedCostUsd estimate) (maxSpendingUsd config)
       = true.
Proof.
  intros env credentials config estimate. unfold getConfig, blank.
  repeat match goal with
         | |- context [if negb ?b then _ else _] => destruct b; cbn [negb]
         end; try discriminate.
  intros [= _ <-] Hceiling. cbn [maxSpendingUsd].
  rewrite checkSpendingLimit_confirmCostWithUser.
  assert (Hgoal : forall m, (forall c, m = Some c ->
                                       Js.truthy_number c = false) ->
                            confirmCostWithUser estimate m = true).
  { intros [c |] Hm; [| reflexivity]. unfold confirmCostWithUser.
    rewrite (Hm c eq_refl). reflexivity. }
  split; apply Hgoal; intros c;
    (destruct Hceiling as [Hblank | (text & Htext & Hnan)];
     [ apply negb_true_iff in Hblank; rewrite Hblank; discriminate
     | rewrite Htext; cbn [default];
       destruct (Js.truthy_ostring (Some text)); [| discriminate];
       intros [= <-]; exact Hnan ]).
Qed.

End Config.

Lemma getConfig_trailing_slash_witness :
  exists (credentials : Credentials) (config : Config),
    @getConfig example_parsers example_env = Ok (credentials, config)
    /\ outlineApiUrl credentials = "https://wiki.example.com/api".
Proof.
  destruct (@getConfig example_parsers example_env)
    as [[credentials config] | e |] eqn:Hrun;
    [| vm_compute in Hrun; discriminate | vm_compute in Hrun; discriminate].
  exists credentials, config. split; [reflexivity |].
  apply (proj1 (@getConfig_trailing_slash example_parsers example_env
                  credentials config "https://wiki.example.com/api" Hrun)).
  reflexivity.
Defined.

Lemma getConfig_ceiling_without_effect_witness :
  exists (credentials : Credentials) (config : Config),
    @getConfig example_parsers example_env = Ok (credentials, config)
    /\ confirmCostWithUser
         {| totalDocuments := 1; estimatedCostUsd := Js.Fin 1000 |}
         (maxSpendingUsd config) = true.
Proof.
  destruct (@getConfig example_parsers example_env)
    as [[credentials config] | e |] eqn:Hrun;
    [| vm_compute in Hrun; discriminate | vm_compute in Hrun; discriminate].
  exists credentials, config. split; [reflexivity |].
  apply (@getConfig_ceiling_without_effect example_parsers example_env
           credentials config _ Hrun).
  right. exists "ten". split; reflexivity.
Defined.

(** ** [TranslationService]: what can go wrong *)

Section Translation.
Context {W : Type} `{!Remote W} `{!Js.Runtime}.

(** X20.  [translateTitle] never throws and issues at most one request;
    when the engine fails, or answers nothing or blanks, the title comes
    back as it was given, and a title that is not empty is never turned
    into an empty one. *)
Theorem translateTitle_never_throws :
  forall (dry : bool) (title : string) (force : bool) (st : State W),
    let run := translateTitle dry title force st in
    (forall e, run.1 <> Throw e)
    /\ (run.2 = st
        \/ exists w, run.2
                     = set_world (calls st ++ [CallChat (TitlePrompt title)])
                         w st)
    /\ (forall t, run.1 = Ok t ->
                  Js.truthy_string title = true -> Js.truthy_string t = true)
    /\ (dry && negb force = false ->
        Js.isAlreadyInEnglish title = false ->
        forall e w, chat_remote (TitlePrompt title) (world st) = (Throw e, w) ->
                    run.1 = Ok title).
Proof.
  intros dry title force st run. unfold run, translateTitle.
  destruct (dry && negb force) eqn:Hdry.
  { cbn. split; [discriminate |]. split; [left; reflexivity |].
    split; [| discriminate]. intros t [= <-] _. reflexivity. }
  destruct (Js.isAlreadyInEnglish title) eqn:Heng.
  { cbn. split; [discriminate |]. split; [left; reflexivity |].
    split; [| discriminate]. intros t [= <-] Ht. exact Ht. }
  unfold try_catch, bind, request, ret.
  destruct (chat_remote (TitlePrompt title) (world st)) as [[[c |] | e |] w];
    cbn.
  - destruct (Js.truthy_string (Js.trim c)) eqn:Hc; cbn;
      (split; [discriminate |]); (split; [right; eauto |]);
      (split; [| intros _ _ e' w' [=]]); intros t [= <-] Ht;
      [exact Hc | exact Ht].
  - split; [discriminate |]. split; [right; eauto |].
    split; [| intros _ _ e' w' [=]]. intros t [= <-] Ht. exact Ht.
  - split; [discriminate |]. split; [right; eauto |].
    split; [intros t [= <-] Ht; exact Ht | reflexivity].
  - split; [discriminate |]. split; [right; eauto |].
    split; [discriminate | intros _ _ e' w' [=]].
Qed.

(** X21.  [translateToEnglish] answers without a request in a dry run
    that is not forced and for a text it takes for English; otherwise it
    issues one request, and every failure of it, an empty answer included,
    is thrown as an error whose message starts with ["Translation failed:
    "]. *)
Theorem translateToEnglish_failures :
  forall (dry : bool) (content title : string) (force : bool) (st : State W),
    let run := translateToEnglish dry content title force st in
    (dry && negb force = true \/ Js.isAlreadyInEnglish content = true ->
     (exists t, run.1 = Ok t) /\ run.2 = st)
    /\ (forall e, run.1 = Throw e ->
          exists message,
            e = MkError ("Translation failed: " +:+ message)
            /\ exists w,
                 run.2 = set_world
                           (calls st ++ [CallChat (ContentPrompt content)])
                           w st)
    /\ (dry && negb force = false ->
        Js.isAlreadyInEnglish content = false ->
        forall reply w,
          chat_remote (ContentPrompt content) (world st) = (Ok reply, w) ->
          Js.truthy_ostring reply = false ->
          run.1 = Throw (MkError
                           "Translation failed: OpenAI returned empty translation")).
Proof.
  intros dry content title force st run. unfold run, translateToEnglish.
  destruct (dry && negb force) eqn:Hdry.
  { cbn. split; [eauto |]. split; [discriminate | discriminate]. }
  destruct (Js.isAlreadyInEnglish content) eqn:Heng.
  { cbn. split; [eauto |]. split; [discriminate | discriminate]. }
  unfold try_catch, bind, request, ret, throw.
  split; [intros [| ]; discriminate |].
  destruct (chat_remote (ContentPrompt content) (world st))
    as [[reply | [message] |] w]; cbn.
  - destruct (Js.truthy_ostring reply) eqn:Hr; cbn.
    + split; [discriminate |]. intros _ _ reply' w' [= <- <-]. congruence.
    + split; [| reflexivity]. intros e [= <-]. eauto.
  - split; [| intros _ _ reply' w' [=]]. intros e [= <-]. eauto.
  - split; [discriminate | intros _ _ reply' w' [=]].
Qed.

End Translation.

Lemma translateTitle_never_throws_witness :
  let R := server_remote (with_chat_failure example_server) in
  let H := foreign_runtime in
  (@translateTitle Store R H false "Personajes" false
     (initial_state Missing empty_store)).1 = Ok "Personajes".
Proof.
  intros R H.
  apply (proj2 (proj2 (proj2
           (@translateTitle_never_throws Store R H false "Personajes" false
              (initial_state Missing empty_store))))
           eq_refl eq_refl (MkError "OpenAI error") empty_store).
  reflexivity.
Defined.

Lemma translateToEnglish_failures_witness :
  let R := server_remote example_server in
  let H := example_runtime in
  exists t : string,
    (@translateToEnglish Store R H true "Erase una vez" "Arturo" false
       (initial_state Missing empty_store)).1 = Ok t.
Proof.
  intros R H.
  apply (proj1 (@translateToEnglish_failures Store R H true "Erase una vez"
                  "Arturo" false (initial_state Missing empty_store))).
  left. reflexivity.
Defined.

(** ** The statistics of the hierarchy *)

Lemma foldl_stats_None {A} (f : option (nat * nat) -> A -> option (nat * nat))
    (l : list A) :
  (forall a, f None a = None) -> foldl f None l = None.
Proof. intros Hf. induction l as [| a l IH]; simpl; [| rewrite Hf]; auto. Qed.

Lemma max_list_app (l k : list nat) :
  max_list (l ++ k) = Nat.max (max_list l) (max_list k).
Proof. induction l as [| x l IH]; simpl; [reflexivity |]. rewrite IH. lia. Qed.

Lemma visited_first (h : list DocumentNode) (stack : nat) (nodes : list nat)
    (depth : nat) (l : list (nat * nat)) :
  0 < length nodes ->
  visited stack h nodes depth = Some l -> depth <= max_list (l.*2).
Proof.
  destruct stack as [| stack]; [discriminate |].
  destruct nodes as [| a nodes]; [simpl; lia |]. intros _.
  cbn [visited foldr].
  destruct (match h !! a with Some _ => _ | None => _ end) as [below |];
    [| discriminate].
  cbn [mbind option_bind]. destruct (foldr _ _ nodes) as [rest |];
    [| discriminate].
  intros [= <-]. cbn. lia.
Qed.

(** [calculateStats] counts the nodes [visited] lists, and its depth is
    the largest depth among them. *)
Lemma calculateStats_visited (h : list DocumentNode) (stack : nat) :
  forall (nodes : list nat) (depth totalDocs maxDepth : nat),
    calculateStats stack h nodes depth (totalDocs, maxDepth)
    = (fun l => (totalDocs + length l,
                 Nat.max (Nat.max maxDepth depth) (max_list (l.*2))))
      <$> visited stack h nodes depth.
Proof.
  induction stack as [| stack IH]; intros nodes depth t md; [reflexivity |].
  cbn [calculateStats visited fst snd].
  assert (Hmd : depth <= Nat.max md depth) by lia.
  revert Hmd. generalize (Nat.max md depth). clear md. intros md. revert t md.
  induction nodes as [| a nodes IHn]; intros t md Hmd.
  { cbn. f_equal. f_equal; lia. }
  cbn [foldl foldr].
  destruct (h !! a) as [node |].
  - case_bool_decide as Hc.
    + rewrite IH.
      destruct (visited stack h (children node) (S depth)) as [below |] eqn:Hb;
        cbn [fmap option_fmap option_map mbind option_bind].
      * pose proof (visited_first _ _ _ _ _ Hc Hb) as Hfirst.
        rewrite IHn by lia.
        destruct (foldr _ _ nodes) as [l |]; cbn; [| reflexivity].
        f_equal. rewrite length_app, fmap_app, max_list_app.
        f_equal; lia.
      * apply foldl_stats_None. reflexivity.
    + cbn [mbind option_bind]. rewrite IHn by lia.
      destruct (foldr _ _ nodes) as [l |]; cbn; [| reflexivity].
      f_equal. f_equal; lia.
  - cbn [mbind option_bind]. rewrite IHn by lia.
    destruct (foldr _ _ nodes) as [l |]; cbn; [| reflexivity].
    f_equal. f_equal; lia.
Qed.

(** *** Paths *)

Section Paths.
Variable h : list DocumentNode.

Lemma has_path_fun (a : nat) (p p' : list nat) :
  has_path h a p -> has_path h a p' -> p = p'.
Proof.
  intros [f Hf] [f' Hf'].
  apply (path_loop_mono f (Nat.max f f')) in Hf; [| lia].
  apply (path_loop_mono f' (Nat.max f f')) in Hf'; [| lia].
  congruence.
Qed.

Lemma has_path_root (a : nat) : parent_of h a = None -> has_path h a [a].
Proof.
  intros Hp. exists 1. rewrite path_loop_step, Hp. reflexivity.
Qed.

Lemma has_path_child (c a : nat) (q : list nat) :
  parent_of h c = Some a -> has_path h a q -> has_path h c (q ++ [c]).
Proof.
  intros Hp [f Hf]. exists (S f). rewrite path_loop_step, Hp, Hf. reflexivity.
Qed.

Lemma has_path_inv (c : nat) (p : list nat) :
  has_path h c p ->
  exists q, p = q ++ [c]
            /\ match parent_of h c with
               | None => q = []
               | Some a => has_path h a q
               end.
Proof.
  intros [[| f] Hf]; [discriminate |]. rewrite path_loop_step in Hf.
  destruct (parent_of h c) as [a |].
  - destruct (path_loop f h (Some a) []) as [q |] eqn:Hq; [| discriminate].
    injection Hf as <-. exists q. split; [reflexivity |]. exists f. exact Hq.
  - rewrite path_loop_None_current in Hf. injection Hf as <-.
    exists []. split; reflexivity.
Qed.

Lemma has_path_last (a : nat) (p : list nat) :
  has_path h a p -> p !! (length p - 1) = Some a /\ 0 < length p.
Proof.
  intros Hp. destruct (has_path_inv _ _ Hp) as (q & -> & _).
  rewrite length_app. simpl. split; [| lia].
  replace (length q + 1 - 1) with (length q) by lia.
  rewrite lookup_app_r by lia. rewrite Nat.sub_diag. reflexivity.
Qed.

Lemma chain_from_lookup (prev : option nat) (p : list nat) :
  chain_from h prev p ->
  (forall r, p !! 0 = Some r -> parent_of h r = prev)
  /\ (forall i c, p !! S i = Some c -> parent_of h c = p !! i).
Proof.
  revert prev. induction p as [| a p IH]; intros prev Hc.
  - split; intros; discriminate.
  - destruct Hc as [Ha Hc]. destruct (IH _ Hc) as [H0 HS]. split.
    + intros r [= <-]. exact Ha.
    + intros [| i] c Hi; simpl in *.
      * rewrite (H0 c Hi). reflexivity.
      * apply HS, Hi.
Qed.

Lemma has_path_links (a : nat) (p : list nat) :
  has_path h a p ->
  (forall r, p !! 0 = Some r -> parent_of h r = None)
  /\ (forall i c, p !! S i = Some c -> parent_of h c = p !! i).
Proof.
  intros [f Hf]. apply path_loop_chain in Hf as [Hc _].
  apply chain_from_lookup, Hc.
Qed.

Lemma has_path_prefix (a : nat) (p : list nat) (k b : nat) :
  has_path h a p -> p !! k = Some b -> has_path h b (take (S k) p).
Proof.
  intros [f Hf] Hk. exists f. eapply path_loop_prefix; eauto.
Qed.

Lemma has_path_NoDup (a : nat) (p : list nat) : has_path h a p -> NoDup p.
Proof. intros [f Hf]. eapply path_loop_NoDup, Hf. Qed.

(** The loop needs as many rounds as the path has nodes. *)
Lemma has_path_fuel (a : nat) (p : list nat) (fuel : nat) :
  has_path h a p -> length p <= fuel ->
  path_loop fuel h (Some a) [] = Some p.
Proof.
  intros [f Hf] Hle. apply (path_loop_mono (length p)); [exact Hle |].
  clear fuel Hle. revert a p Hf.
  induction f as [| f IH]; intros a p Hf; [discriminate |].
  rewrite path_loop_step in Hf.
  destruct (parent_of h a) as [b |] eqn:Hb.
  - destruct (path_loop f h (Some b) []) as [q |] eqn:Hq; [| discriminate].
    injection Hf as <-. rewrite length_app. simpl.
    replace (length q + 1) with (S (length q)) by lia.
    rewrite path_loop_step, Hb, (IH _ _ Hq). reflexivity.
  - rewrite path_loop_None_current in Hf. injection Hf as <-. simpl.
    rewrite path_loop_step, Hb. reflexivity.
Qed.

End Paths.

(** *** The traversal of a forest *)

Section Traversal.
Variable h : list DocumentNode.
Variable n : nat.
Hypothesis Hlen : length h = n.
Hypothesis Hbound : forall k pa, parent_of h k = Some pa -> pa < n.
Hypothesis Hchildren :
  forall k node,
    h !! k = Some node ->
    children node = filter (fun j => parent_of h j = Some k) (seq 0 n).

Lemma parent_of_lt (c a : nat) : parent_of h c = Some a -> c < n.
Proof.
  unfold parent_of. intros Hp. destruct (h !! c) as [node |] eqn:Hc;
    [| discriminate].
  rewrite <- Hlen. eapply lookup_lt_Some, Hc.
Qed.

Lemma has_path_lt (a : nat) (p : list nat) :
  a < n -> has_path h a p -> forall b, b ∈ p -> b < n.
Proof.
  intros Ha Hp b Hb. apply list_elem_of_lookup in Hb as [i Hi].
  destruct (has_path_links _ _ _ Hp) as [_ Hlink].
  destruct (p !! S i) as [c |] eqn:Hc.
  - apply (Hbound c). rewrite (Hlink i c Hc). exact Hi.
  - destruct (has_path_last _ _ _ Hp) as [Hlast Hpos].
    apply lookup_ge_None in Hc. pose proof (lookup_lt_Some _ _ _ Hi) as Hil.
    replace (length p - 1) with i in Hlast by lia.
    assert (b = a) by congruence. subst b. exact Ha.
Qed.

Lemma has_path_length (a : nat) (p : list nat) :
  a < n -> has_path h a p -> length p <= n.
Proof.
  intros Ha Hp.
  assert (Hsub : p ⊆+ seq 0 n).
  { apply NoDup_submseteq; [eapply has_path_NoDup, Hp |].
    intros b Hb. apply elem_of_seq. pose proof (has_path_lt _ _ Ha Hp b Hb).
    lia. }
  apply submseteq_length in Hsub. rewrite length_seq in Hsub. exact Hsub.
Qed.

(** The node after [a] on a path is one of the children of [a]. *)
Lemma next_on_path (x a d : nat) (p : list nat) (node : DocumentNode) :
  has_path h x p -> h !! a = Some node ->
  (exists c, c ∈ children node /\ p !! S d = Some c)
  <-> p !! d = Some a /\ S d < length p.
Proof.
  intros Hp Ha. destruct (has_path_links _ _ _ Hp) as [_ Hlink].
  rewrite (Hchildren _ _ Ha). split.
  - intros (c & Hc & Hpc). apply list_elem_of_filter in Hc as [Hca _].
    split; [rewrite <- (Hlink d c Hpc); exact Hca |].
    eapply lookup_lt_Some, Hpc.
  - intros [Hd Hlt]. destruct (lookup_lt_is_Some_2 p (S d) Hlt) as [c Hc].
    exists c. split; [| exact Hc].
    assert (Hca : parent_of h c = Some a) by (rewrite (Hlink d c Hc); exact Hd).
    apply list_elem_of_filter. split; [exact Hca |].
    apply elem_of_seq. pose proof (parent_of_lt _ _ Hca). lia.
Qed.

Lemma visited_forest (stack : nat) :
  forall (d : nat) (nodes : list nat),
    NoDup nodes ->
    (forall a, a ∈ nodes -> a < n /\ exists p, has_path h a p
                                               /\ length p = S d) ->
    n < stack + d -> 0 < stack ->
    exists l, visited stack h nodes d = Some l
              /\ NoDup (l.*1)
              /\ forall x k, (x, k) ∈ l <-> counted_under h nodes d x k.
Proof.
  induction stack as [| stack IH]; intros d nodes Hnd Hlevel Hstack Hpos;
    [lia |].
  cbn [visited].
  induction nodes as [| a rest IHrest].
  { exists []. split; [reflexivity |]. split; [constructor |].
    intros x k. split; [intros Hx; inversion Hx |].
    intros (p & _ & _ & b & Hb & _). inversion Hb. }
  apply NoDup_cons in Hnd as [Hnotin Hnd].
  destruct (Hlevel a ltac:(left)) as (Ha & pa & Hpa & Hlpa).
  destruct (lookup_lt_is_Some_2 h a ltac:(lia)) as [node Hnode].
  destruct IHrest as (lr & Hlr & Hndr & Hcr); [exact Hnd | |].
  { intros b Hb. apply Hlevel. right. exact Hb. }
  cbn [foldr]. rewrite Hlr, Hnode.
  assert (Hbelow : exists below,
             (if bool_decide (0 < length (children node))
              then visited stack h (children node) (S d) else Some [])
             = Some below
             /\ NoDup (below.*1)
             /\ forall x k, (x, k) ∈ below
                            <-> counted_under h (children node) (S d) x k).
  { assert (Hkids : forall c, c ∈ children node ->
                c < n /\ exists p, has_path h c p /\ length p = S (S d)).
    { intros c Hc. rewrite (Hchildren _ _ Hnode) in Hc.
      apply list_elem_of_filter in Hc as [Hca Hseq].
      split; [eapply parent_of_lt, Hca |].
      exists (pa ++ [c]). split; [eapply has_path_child; eauto |].
      rewrite length_app. simpl. lia. }
    case_bool_decide as Hc.
    - apply IH; [| exact Hkids | lia |].
      + rewrite (Hchildren _ _ Hnode). apply NoDup_filter, NoDup_seq.
      + destruct (children node) as [| c cs]; [simpl in Hc; lia |].
        destruct (Hkids c ltac:(left)) as (Hcn & p & Hp & Hlp).
        pose proof (has_path_length _ _ Hcn Hp). lia.
    - exists []. split; [reflexivity |]. split; [constructor |].
      intros x k. split; [intros Hx; inversion Hx |].
      intros (p & _ & _ & b & Hb & _).
      destruct (children node); [inversion Hb | simpl in Hc; lia]. }
  destruct Hbelow as (below & -> & Hndb & Hcb).
  cbn [mbind option_bind].
  exists ((a, d) :: below ++ lr). split; [reflexivity |].
  assert (Hhead : forall x k p,
            has_path h x p -> length p = S k -> p !! d = Some a ->
            (x = a /\ k = d) \/ counted_under h (children node) (S d) x k).
  { intros x k p Hp Hlp Hd.
    destruct (decide (S d < length p)) as [Hlt | Hge].
    - right. exists p. split; [exact Hp |]. split; [exact Hlp |].
      apply (next_on_path _ _ _ _ _ Hp Hnode). auto.
    - left. apply lookup_lt_Some in Hd as Hdl.
      assert (k = d) as -> by lia. split; [| reflexivity].
      destruct (has_path_last _ _ _ Hp) as [Hlast _].
      rewrite Hlp in Hlast. replace (S d - 1) with d in Hlast by lia.
      congruence. }
  assert (Hunder : forall x k,
            counted_under h (children node) (S d) x k ->
            exists p, has_path h x p /\ length p = S k /\ p !! d = Some a
                      /\ S d < length p).
  { intros x k (p & Hp & Hlp & Hc). exists p.
    apply (next_on_path _ _ _ _ _ Hp Hnode) in Hc as [Hd Hlt]. auto. }
  split.
  - cbn [fmap list_fmap fst]. apply NoDup_cons. split.
    + rewrite fmap_app. intros Hin. apply elem_of_app in Hin as [Hin | Hin];
        apply list_elem_of_fmap in Hin as ([x k] & Hx & Hin); simpl in Hx;
        subst x.
      * apply Hcb, Hunder in Hin as (p & Hp & Hlp & Hd & Hlt).
        rewrite (has_path_fun _ _ _ _ Hp Hpa) in Hlt. lia.
      * apply Hcr in Hin as (p & Hp & Hlp & b & Hb & Hd).
        rewrite (has_path_fun _ _ _ _ Hp Hpa) in Hd.
        destruct (has_path_last _ _ _ Hpa) as [Hlast _].
        rewrite Hlpa in Hlast. replace (S d - 1) with d in Hlast by lia.
        assert (b = a) by congruence. subst b. exact (Hnotin Hb).
    + rewrite fmap_app. apply NoDup_app. split; [exact Hndb |].
      split; [| exact Hndr].
      intros x Hxb Hxr.
      apply list_elem_of_fmap in Hxb as ([x1 k1] & Hx1 & Hin1).
      apply list_elem_of_fmap in Hxr as ([x2 k2] & Hx2 & Hin2).
      simpl in Hx1, Hx2. subst x1 x2.
      apply Hcb, Hunder in Hin1 as (p1 & Hp1 & _ & Hd1 & _).
      apply Hcr in Hin2 as (p2 & Hp2 & _ & b & Hb & Hd2).
      rewrite (has_path_fun _ _ _ _ Hp2 Hp1) in Hd2.
      assert (b = a) by congruence. subst b. exact (Hnotin Hb).
  - intros x k. rewrite elem_of_cons, elem_of_app, Hcb, Hcr. split.
    + intros [[= -> ->] | [Hin | Hin]].
      * exists pa. split; [exact Hpa |]. split; [exact Hlpa |].
        exists a. split; [left |].
        destruct (has_path_last _ _ _ Hpa) as [Hlast _].
        rewrite Hlpa in Hlast. replace (S d - 1) with d in Hlast by lia.
        exact Hlast.
      * apply Hunder in Hin as (p & Hp & Hlp & Hd & _).
        exists p. split; [exact Hp |]. split; [exact Hlp |].
        exists a. split; [left | exact Hd].
      * destruct Hin as (p & Hp & Hlp & b & Hb & Hd).
        exists p. split; [exact Hp |]. split; [exact Hlp |].
        exists b. split; [right; exact Hb | exact Hd].
    + intros (p & Hp & Hlp & b & Hb & Hd).
      apply elem_of_cons in Hb as [-> | Hb].
      * destruct (Hhead x k p Hp Hlp Hd) as [[-> ->] | Hc]; auto.
      * right. right. exists p. split; [exact Hp |]. split; [exact Hlp |].
        exists b. auto.
Qed.

End Traversal.

(** *** The statistics [printHierarchyStats] reports *)

Section Statistics.
Variable docs : list OutlineDocument.
Hypothesis Hnd : NoDup (map id docs).
Variable stack : nat.
Hypothesis Hstack : length docs < stack.

(** X23.  For documents with distinct identifiers and a call stack deeper
    than their number, [printHierarchyStats] never overflows, whether or
    not the declared parents are acyclic.  The total it reports is the
    number of documents from which the parent references lead to a root,
    which is all of them when the declared parents are acyclic; and the
    maximum depth it reports is the number of nodes of the longest path
    [getDocumentPath] can return. *)
Theorem printHierarchyStats_counts :
  let '(roots, h, sh) := buildHierarchy_on docs [] ∅ in
  exists totalDocs maxDepth : nat,
    calculateStats stack h roots 0 (0, 0) = Some (totalDocs, maxDepth)
    /\ totalDocs = length (filter (rooted h) (seq 0 (length docs)))
    /\ (forall rank, acyclic_input docs rank -> totalDocs = length docs)
    /\ (forall a p, a < length docs -> has_path h a p ->
                    length p <= S maxDepth)
    /\ (totalDocs <> 0 ->
        exists a p, a < length docs /\ has_path h a p
                    /\ length p = S maxDepth).
Proof.
  pose proof (forest_shape docs Hnd) as Hshape.
  destruct (buildHierarchy_on docs [] ∅) as [[roots h] sh] eqn:Hb.
  destruct Hshape as (Hsh & Hlen & _ & _ & Hbound & Hchildren & Hroots).
  set (n := length docs) in *.
  assert (Hroot_path : forall a, a ∈ roots ->
            a < n /\ exists p, has_path h a p /\ length p = 1).
  { intros a Ha. rewrite Hroots in Ha.
    apply list_elem_of_filter in Ha as [Hp Hseq].
    apply elem_of_seq in Hseq. split; [lia |].
    exists [a]. split; [apply has_path_root, Hp | reflexivity]. }
  destruct (visited_forest h n Hlen Hbound Hchildren stack 0 roots)
    as (l & Hl & Hndl & Hchar); [| exact Hroot_path | lia | lia |].
  { rewrite Hroots. apply NoDup_filter, NoDup_seq. }
  assert (Hin : forall x, x ∈ l.*1 <-> x < n /\ exists p, has_path h x p).
  { intros x. split.
    - intros Hx. apply list_elem_of_fmap in Hx as ([x' k] & -> & Hx).
      apply Hchar in Hx as (p & Hp & Hlp & b & Hbr & Hd). simpl.
      split; [| eauto].
      destruct (decide (x' < n)) as [Hlt | Hge]; [exact Hlt |].
      destruct (has_path_inv _ _ _ Hp) as (q & -> & Hq).
      assert (Hnone : parent_of h x' = None).
      { unfold parent_of. rewrite (proj2 (lookup_ge_None h x')); [reflexivity |].
        lia. }
      rewrite Hnone in Hq. subst q. simpl in Hd. injection Hd as <-.
      destruct (Hroot_path x' Hbr). lia.
    - intros (Hx & p & Hp).
      destruct (has_path_last _ _ _ Hp) as [_ Hpos].
      destruct (lookup_lt_is_Some_2 p 0 Hpos) as [r Hr].
      apply (list_elem_of_fmap_2 fst l (x, length p - 1)).
      apply Hchar. exists p. split; [exact Hp |]. split; [lia |].
      exists r. split; [| exact Hr]. rewrite Hroots.
      apply list_elem_of_filter. split.
      + apply (has_path_links _ _ _ Hp). exact Hr.
      + apply elem_of_seq.
        pose proof (has_path_lt h n Hlen Hbound x p Hx Hp r
                      ltac:(apply list_elem_of_lookup; eauto)).
        lia. }
  assert (Hrooted : forall x, x < n -> rooted h x <-> exists p, has_path h x p).
  { intros x Hx. unfold rooted. split.
    - intros [p Hp]. exists p, (length h). exact Hp.
    - intros [p Hp]. exists p. apply has_path_fuel; [exact Hp |].
      rewrite Hlen. eapply has_path_length; eauto. }
  rewrite calculateStats_visited, Hl. cbn [fmap option_fmap option_map].
  exists (0 + length l), (Nat.max (Nat.max 0 0) (max_list (l.*2))).
  split; [reflexivity |].
  assert (Htotal : 0 + length l = length (filter (rooted h) (seq 0 n))).
  { rewrite <- (length_fmap fst l). simpl. apply Permutation_length.
    apply NoDup_Permutation; [exact Hndl | apply NoDup_filter, NoDup_seq |].
    intros x. rewrite Hin, list_elem_of_filter, elem_of_seq. split.
    - intros [Hx Hp]. split; [apply Hrooted; assumption | lia].
    - intros [Hr Hx]. split; [lia |]. apply Hrooted; [lia | exact Hr]. }
  split; [exact Htotal |]. split; [| split].
  - intros rank Hrank. rewrite Htotal.
    transitivity (length (seq 0 n)); [| apply length_seq]. f_equal.
    apply filter_all. intros x Hx. apply elem_of_seq in Hx.
    apply Hrooted; [lia |].
    apply buildHierarchy_linked in Hb as [-> Hlinked].
    destruct (path_loop_terminates docs rank Hrank h Hlinked _ x (Nat.lt_succ_diag_r _))
      as [p Hp].
    exists p. eexists. exact Hp.
  - intros a p Ha Hp.
    assert (Hk : (a, length p - 1) ∈ l).
    { pose proof (proj2 (Hin a) (conj Ha (ex_intro _ p Hp))) as Hx.
      apply list_elem_of_fmap in Hx as ([a' k] & Ha' & Hx). simpl in Ha'.
      subst a'. pose proof Hx as Hx'.
      apply Hchar in Hx' as (p' & Hp' & Hlp' & _).
      rewrite (has_path_fun _ _ _ _ Hp Hp'), Hlp'.
      replace (S k - 1) with k by lia. exact Hx. }
    apply (list_elem_of_fmap_2 snd) in Hk. simpl in Hk.
    apply max_list_elem_of_le in Hk.
    destruct (has_path_last _ _ _ Hp) as [_ Hpos]. lia.
  - intros Hne.
    assert (Hl2 : l.*2 <> []).
    { destruct l; [simpl in Hne; lia | discriminate]. }
    apply max_list_elem_of in Hl2.
    apply list_elem_of_fmap in Hl2 as ([x k] & Hk & Hx). simpl in Hk.
    pose proof Hx as Hx'. apply Hchar in Hx' as (p & Hp & Hlp & _).
    exists x, p. split; [| split; [exact Hp |]].
    + apply Hin. apply (list_elem_of_fmap_2 fst l (x, k)). exact Hx.
    + rewrite Hlp, <- Hk. lia.
Qed.

End Statistics.

Lemma printHierarchyStats_counts_witness :
  let '(roots, h, sh) := buildHierarchy_on lore_documents [] ∅ in
  exists totalDocs maxDepth : nat,
    calculateStats 4 h roots 0 (0, 0) = Some (totalDocs, maxDepth)
    /\ totalDocs = 3.
Proof.
  pose proof (printHierarchyStats_counts lore_documents) as H.
  destruct (buildHierarchy_on lore_documents [] ∅) as [[roots h] sh].
  destruct (H ltac:(apply (bool_decide_unpack _); vm_compute; reflexivity)
              4 ltac:(simpl; lia))
    as (totalDocs & maxDepth & Hrun & _ & Hall & _).
  exists totalDocs, maxDepth. split; [exact Hrun |].
  exact (Hall lore_rank lore_acyclic).
Defined.

(** On the two documents that name each other as parent no node leads to
    a root: nothing is counted. *)
Example mutual_documents_statistics :
  let '(roots, h, sh) := buildHierarchy_on mutual_documents [] ∅ in
  roots = [] /\ calculateStats 3 h roots 0 (0, 0) = Some (0, 0).
Proof. vm_compute. split; reflexivity. Qed.
